(** * Sector AI Agent SDK: request queue, thread builder, scheduling loops
      and agent supervisor

    A shallow embedding of the orchestration core of the SDK:

    - [RequestQueue]    the class [RequestQueue] of the Twitter client base
                        ([add], [processQueue], [exponentialBackoff],
                        [randomDelay]);
    - [ThreadBuilder]   [buildConversationThread] and its inner
                        [processThread] (client-twitter/utils.ts);
    - [SchedulingLoop]  the three self-rescheduling loops
                        ([generateNewTweetLoop], [engageWithSearchTermsLoop],
                        [handleTwitterInteractionsLoop]);
    - [Supervisor]      the gRPC handlers [startAgent], [stopAgent] and
                        [getAgentStatus] of server.ts.

    JavaScript runs each piece of code between two [await]s atomically, so
    asynchronous code is modelled as a labelled transition system whose
    steps are exactly those atomic pieces. *)

From stdpp Require Import gmap strings list fin_maps pretty.
From Stdlib Require Import ZArith Lia.

Open Scope Z_scope.

(* ===================================================================== *)
(** * The request queue                                                   *)
(* ===================================================================== *)

Module RequestQueue.

(** How the promise returned by a caller's [request()] settles. *)
Inductive settled := Fulfilled | Rejected.

(** A caller's [request : () => Promise<T>].  It may be called several
    times; [req_outcome r k] is how its call number [k] (counted from 0)
    settles. *)
Record request := {
  req_name : string;
  req_outcome : nat → settled
}.

(** What an awaited queue entry does to the [try] block of
    [processQueue]. *)
Inductive completion := Returns | Throws.

(** Everything the queue does that an observer can see. *)
Inductive event :=
| Attempt (name : string) (o : settled)  (* request() was called, settled as o *)
| Resolve (name : string)                (* resolve(result) of add's promise   *)
| Reject (name : string)                 (* reject(error) of add's promise     *)
| Backoff (ms : Z)                       (* setTimeout of exponentialBackoff   *)
| Pace (ms : Z).                         (* setTimeout of randomDelay          *)

(** The queue is private and [add] is the only code that pushes to it: every
    entry is the async closure built in [add] around a caller's request. *)
Inductive thunk := Wrapper (r : request).

Definition thunk_name (t : thunk) : string :=
  match t with Wrapper r => req_name r end.

Definition is_attempt_of (name : string) (e : event) : bool :=
  match e with
  | Attempt n _ => bool_decide (n = name)
  | _ => false
  end.

(** Number of calls of the request called [name] made so far. *)
Definition attempts (name : string) (tr : list event) : nat :=
  length (List.filter (is_attempt_of name) tr).

(** The closure pushed by [add]:
<<
  async () => { try { const result = await request(); resolve(result); }
                catch (error) { reject(error); } }
>>
    It returns the completion seen by whoever awaits the closure. *)
Definition invoke (t : thunk) (tr : list event) : completion * list event :=
  match t with
  | Wrapper r =>
      match req_outcome r (attempts (req_name r) tr) with
      | Fulfilled =>
          (Returns, tr ++ [Attempt (req_name r) Fulfilled; Resolve (req_name r)])
      | Rejected =>
          (Returns, tr ++ [Attempt (req_name r) Rejected; Reject (req_name r)])
      end
  end.

(** Where an activation of [processQueue] is suspended. *)
Inductive phase :=
| Executing (t : thunk)   (* await request()                      *)
| BackingOff (t : thunk)  (* await this.exponentialBackoff(...)   *)
| Pacing.                 (* await this.randomDelay()             *)

Record state := {
  queue : list thunk;          (* this.queue                                *)
  processing : bool;           (* this.processing                           *)
  loops : list phase;          (* suspended activations of processQueue     *)
  trace : list event;
  draws : nat                  (* calls of Math.random made so far          *)
}.

Definition init : state :=
  {| queue := []; processing := false; loops := []; trace := []; draws := 0 |}.

(** [Math.pow(2, retryCount) * 1000]. *)
Definition exponentialBackoff (retryCount : Z) : Z := 2 ^ retryCount * 1000.

Section Machine.

(** [random2000 k] is the value of [Math.floor(Math.random() * 2000)] at the
    [k]-th call of [Math.random]. *)
Variable random2000 : nat → Z.

Definition randomDelay (k : nat) : Z := random2000 k + 1500.

(** The test of [while (this.queue.length > 0)] and what follows it up to
    the next [await], for the activation stored at index [i] (or a new
    activation when [i] is past the end). *)
Definition loop_head (i : nat) (s : state) : state :=
  match queue s with
  | [] =>
      {| queue := []; processing := false; loops := delete i (loops s);
         trace := trace s; draws := draws s |}
  | request :: rest =>
      {| queue := rest; processing := processing s;
         loops := if decide (i < length (loops s))%nat
                  then <[i := Executing request]> (loops s)
                  else loops s ++ [Executing request];
         trace := trace s; draws := draws s |}
  end.

(** A call of [processQueue], up to its first [await]. *)
Definition processQueue (s : state) : state :=
  if processing s || bool_decide (length (queue s) = 0%nat) then s
  else loop_head (length (loops s))
         {| queue := queue s; processing := true; loops := loops s;
            trace := trace s; draws := draws s |}.

(** [add(request)]: the promise executor pushes the closure and calls
    [processQueue]. *)
Definition add (r : request) (s : state) : state :=
  processQueue
    {| queue := queue s ++ [Wrapper r]; processing := processing s;
       loops := loops s; trace := trace s; draws := draws s |}.

(** Activation [i] resumes after [await request()] with completion [c]. *)
Definition after_request (i : nat) (request : thunk) (c : completion)
    (tr : list event) (s : state) : state :=
  match c with
  | Returns =>
      {| queue := queue s; processing := processing s;
         loops := <[i := Pacing]> (loops s);
         trace := tr ++ [Pace (randomDelay (draws s))];
         draws := S (draws s) |}
  | Throws =>
      let q := request :: queue s in
      {| queue := q; processing := processing s;
         loops := <[i := BackingOff request]> (loops s);
         trace := tr ++ [Backoff (exponentialBackoff (Z.of_nat (length q)))];
         draws := draws s |}
  end.

(** The queue entry awaited by activation [i] settles. *)
Definition settle (i : nat) (s : state) : option state :=
  match loops s !! i with
  | Some (Executing request) =>
      let '(c, tr) := invoke request (trace s) in
      Some (after_request i request c tr s)
  | _ => None
  end.

(** The timer awaited by activation [i] fires. *)
Definition wake (i : nat) (s : state) : option state :=
  match loops s !! i with
  | Some (BackingOff _) =>
      Some {| queue := queue s; processing := processing s;
              loops := <[i := Pacing]> (loops s);
              trace := trace s ++ [Pace (randomDelay (draws s))];
              draws := S (draws s) |}
  | Some Pacing => Some (loop_head i s)
  | _ => None
  end.

(** What can happen next: a caller calls [add], an awaited request settles,
    or a timer fires. *)
Inductive label :=
| Add (r : request)
| Settle (i : nat)
| Wake (i : nat).

Definition step (l : label) (s : state) : option state :=
  match l with
  | Add r => Some (add r s)
  | Settle i => settle i s
  | Wake i => wake i s
  end.

Fixpoint run (ls : list label) (s : state) : option state :=
  match ls with
  | [] => Some s
  | l :: ls' =>
      match step l s with
      | Some s' => run ls' s'
      | None => None
      end
  end.

Definition reachable (s : state) : Prop := ∃ ls, run ls init = Some s.

Definition is_executing (p : phase) : bool :=
  match p with Executing _ => true | _ => false end.

(** Number of queue entries that have been started and not yet settled. *)
Definition in_flight (s : state) : nat :=
  length (List.filter is_executing (loops s)).

Definition is_backing_off (p : phase) : bool :=
  match p with BackingOff _ => true | _ => false end.

(** The calls of requests, in the order in which they settled. *)
Fixpoint observed (tr : list event) : list (string * settled) :=
  match tr with
  | [] => []
  | Attempt n o :: tr' => (n, o) :: observed tr'
  | _ :: tr' => observed tr'
  end.

(** ** Facts about the queue *)

Lemma invoke_returns (t : thunk) (tr : list event) : (invoke t tr).1 = Returns.
Proof.
  destruct t as [r]; simpl.
  destruct (req_outcome r (attempts (req_name r) tr)); reflexivity.
Qed.

(** The shape of the activation list: no activation and an idle, drained
    queue, or exactly one activation, which is not backing off. *)
Definition well_formed (s : state) : Prop :=
  match loops s with
  | [] => processing s = false ∧ queue s = []
  | [p] => processing s = true ∧ is_backing_off p = false
  | _ => False
  end.

Lemma well_formed_init : well_formed init.
Proof. split; reflexivity. Qed.

Lemma well_formed_add (r : request) (s : state) :
  well_formed s → well_formed (add r s).
Proof.
  destruct s as [q proc lp tr d].
  unfold well_formed, add, processQueue; simpl.
  destruct lp as [|p [|p' l]]; [| |tauto].
  - intros [-> ->]; simpl. split; reflexivity.
  - intros [-> Hp]; simpl. split; [reflexivity | exact Hp].
Qed.

Lemma well_formed_settle (i : nat) (s s' : state) :
  well_formed s → settle i s = Some s' → well_formed s'.
Proof.
  destruct s as [q proc lp tr d].
  unfold well_formed, settle; simpl.
  destruct lp as [|p [|p' l]]; [| |tauto].
  - destruct i; discriminate.
  - intros [Hproc _]. destruct i as [|i]; simpl; [|destruct i; discriminate].
    destruct p as [t|t|]; try discriminate.
    pose proof (invoke_returns t tr) as Hret.
    destruct (invoke t tr) as [c tr']; simpl in Hret; subst c.
    intros [= <-]; simpl. split; [exact Hproc | reflexivity].
Qed.

Lemma well_formed_wake (i : nat) (s s' : state) :
  well_formed s → wake i s = Some s' → well_formed s'.
Proof.
  destruct s as [q proc lp tr d].
  unfold well_formed, wake; simpl.
  destruct lp as [|p [|p' l]]; [| |tauto].
  - destruct i; discriminate.
  - intros [Hproc Hp]. destruct i as [|i]; simpl; [|destruct i; discriminate].
    destruct p as [t|t|]; try discriminate.
    intros [= <-]. unfold loop_head; simpl.
    destruct q as [|request rest]; simpl.
    + split; reflexivity.
    + split; [exact Hproc | reflexivity].
Qed.

Lemma well_formed_step (l : label) (s s' : state) :
  well_formed s → step l s = Some s' → well_formed s'.
Proof.
  destruct l as [r|i|i]; simpl; intros Hwf Hstep.
  - injection Hstep as <-. by apply well_formed_add.
  - by eapply well_formed_settle.
  - by eapply well_formed_wake.
Qed.

Lemma well_formed_run (ls : list label) (s s' : state) :
  well_formed s → run ls s = Some s' → well_formed s'.
Proof.
  revert s. induction ls as [|l ls IH]; simpl; intros s Hwf Hrun.
  - by injection Hrun as <-.
  - destruct (step l s) as [s1|] eqn:Hstep; [|discriminate].
    eapply IH; [|exact Hrun]. by eapply well_formed_step.
Qed.

Lemma well_formed_reachable (s : state) : reachable s → well_formed s.
Proof. intros [ls Hrun]. eapply well_formed_run; [apply well_formed_init | exact Hrun]. Qed.

(** C6. Single flight: in every state the queue can reach, whatever the
    callers of [add] and the timers do, at most one queue entry has been
    started and not yet settled; indeed at most one activation of
    [processQueue] exists at all. *)
Theorem single_flight (s : state) :
  reachable s → (in_flight s ≤ 1)%nat ∧ (length (loops s) ≤ 1)%nat.
Proof.
  intros Hreach. apply well_formed_reachable in Hreach.
  unfold well_formed in Hreach. unfold in_flight.
  destruct (loops s) as [|p [|p' l]]; [simpl; lia | | tauto].
  simpl. destruct (is_executing p); simpl; lia.
Qed.

(** No activation of [processQueue] ever reaches the [catch] block: the
    entries pushed by [add] turn every failure into a rejection of the
    caller's promise and return normally. *)
Lemma never_backing_off (s : state) :
  reachable s → List.filter is_backing_off (loops s) = [].
Proof.
  intros Hreach. apply well_formed_reachable in Hreach.
  unfold well_formed in Hreach.
  destruct (loops s) as [|p [|p' l]]; [reflexivity | | tauto].
  simpl. destruct Hreach as [_ ->]. reflexivity.
Qed.

Lemma observed_app (tr1 tr2 : list event) :
  observed (tr1 ++ tr2) = observed tr1 ++ observed tr2.
Proof.
  induction tr1 as [|e tr1 IH]; simpl; [reflexivity|].
  destruct e; simpl; rewrite ?IH; reflexivity.
Qed.

Lemma invoke_observed (t : thunk) (tr : list event) :
  (observed (invoke t tr).2).*1 = (observed tr).*1 ++ [thunk_name t].
Proof.
  destruct t as [r]; simpl.
  destruct (req_outcome r (attempts (req_name r) tr)); simpl;
    rewrite observed_app, fmap_app; reflexivity.
Qed.

(** The requests called so far, then the one in flight, then the pending
    ones. *)
Definition executing_names (ps : list phase) : list string :=
  flat_map (λ p, match p with Executing t => [thunk_name t] | _ => [] end) ps.

Definition lineup (s : state) : list string :=
  (observed (trace s)).*1 ++ executing_names (loops s) ++ (thunk_name <$> queue s).

Definition added (ls : list label) : list string :=
  flat_map (λ l, match l with Add r => [req_name r] | _ => [] end) ls.

Lemma lineup_step (l : label) (s s' : state) :
  well_formed s → step l s = Some s' → lineup s' = lineup s ++ added [l].
Proof.
  destruct s as [q proc lp tr d]. unfold well_formed, lineup; simpl.
  destruct lp as [|p [|p' lp]]; [| |tauto].
  - intros [-> ->]. destruct l as [r|i|i]; simpl.
    + intros [= <-]; simpl. rewrite app_nil_r. reflexivity.
    + destruct i; discriminate.
    + destruct i; discriminate.
  - intros [-> Hp]. destruct l as [r|i|i]; simpl.
    + intros [= <-]; simpl. rewrite fmap_app, !app_assoc. reflexivity.
    + unfold settle; simpl. destruct i as [|i]; simpl; [|destruct i; discriminate].
      destruct p as [t|t|]; try discriminate.
      pose proof (invoke_returns t tr) as Hret.
      pose proof (invoke_observed t tr) as Hobs.
      destruct (invoke t tr) as [c tr']; simpl in Hret, Hobs; subst c.
      intros [= <-]; simpl.
      rewrite observed_app, fmap_app, Hobs; simpl.
      rewrite !app_nil_r, <- !app_assoc. reflexivity.
    + unfold wake; simpl. destruct i as [|i]; simpl; [|destruct i; discriminate].
      destruct p as [t|t|]; try discriminate.
      intros [= <-]. unfold loop_head; simpl.
      destruct q as [|request rest]; simpl; rewrite ?app_nil_r; reflexivity.
Qed.

(** Requests are called in the order of their [add], and each of them at
    most once, whatever its outcome: at any moment the calls made so far,
    the request in flight and the pending requests are, in this order, the
    requests added so far. *)
Lemma fifo_single_attempt (ls : list label) (s : state) :
  run ls init = Some s → lineup s = added ls.
Proof.
  enough (H : ∀ s0, well_formed s0 → run ls s0 = Some s →
                    lineup s = lineup s0 ++ added ls).
  { intros Hrun. apply (H init well_formed_init Hrun). }
  induction ls as [|l ls IH]; intros s0 Hwf; simpl.
  - intros [= <-]. rewrite app_nil_r. reflexivity.
  - destruct (step l s0) as [s1|] eqn:Hstep; [|discriminate].
    intros Hrun. rewrite (IH s1 (well_formed_step _ _ _ Hwf Hstep) Hrun).
    rewrite (lineup_step _ _ _ Hwf Hstep); simpl.
    rewrite app_nil_r, <- app_assoc. reflexivity.
Qed.

Lemma attempts_observed (name : string) (tr : list event) :
  attempts name tr
  = length (List.filter (λ n, bool_decide (n = name)) (observed tr).*1).
Proof.
  unfold attempts. induction tr as [|e tr IH]; simpl; [reflexivity|].
  destruct e as [n o| | | |]; simpl; try exact IH.
  destruct (bool_decide (n = name)); simpl; rewrite IH; reflexivity.
Qed.

(** A request is called at most as often as it was added: a failure never
    leads to a second call. *)
Corollary no_more_attempts_than_adds (name : string) (ls : list label) (s : state) :
  run ls init = Some s →
  (attempts name (trace s)
   ≤ length (List.filter (λ n, bool_decide (n = name)) (added ls)))%nat.
Proof.
  intros Hrun. rewrite <- (fifo_single_attempt ls s Hrun), attempts_observed.
  unfold lineup. rewrite List.filter_app, length_app. lia.
Qed.

(** Tasks A, B, C of the ordering scenario: B fails on its first two calls
    and succeeds on the third. *)
Definition taskA : request := {| req_name := "A"; req_outcome := λ _, Fulfilled |}.
Definition taskB : request :=
  {| req_name := "B";
     req_outcome := λ k, if (k <? 2)%nat then Rejected else Fulfilled |}.
Definition taskC : request := {| req_name := "C"; req_outcome := λ _, Fulfilled |}.

(** A, B, C are added in this order while A is in flight; then requests
    settle and timers fire until the queue is idle. *)
Definition abc_schedule : list label :=
  [Add taskA; Add taskB; Add taskC;
   Settle 0; Wake 0; Settle 0; Wake 0; Settle 0; Wake 0].

(** C1. The code on tasks A, B, C: B is called once, its failure rejects the
    caller's promise, and C runs next; B is never called again and the
    queue ends idle and empty.  The order A(success), B(fail), B(fail),
    B(success), C(success) is not observed. *)
Theorem failed_task_is_not_retried :
  ∃ s, run abc_schedule init = Some s
       ∧ observed (trace s) = [("A", Fulfilled); ("B", Rejected); ("C", Fulfilled)]
       ∧ observed (trace s) ≠
           [("A", Fulfilled); ("B", Rejected); ("B", Rejected);
            ("B", Fulfilled); ("C", Fulfilled)]
       ∧ queue s = [] ∧ loops s = [] ∧ processing s = false.
Proof.
  eexists. split; [reflexivity|]. simpl.
  repeat split; discriminate.
Qed.

(** C2. The delay of the [catch] block is [2 ^ this.queue.length] seconds,
    the length being taken after the failed entry is put back: it does not
    depend on how often the entry has failed.  And on tasks A, B, C the
    failure of B is followed by the pacing delay only: no backoff delay is
    slept and B has no next attempt. *)
Theorem backoff_exponent_is_queue_length :
  (∀ (i : nat) (t : thunk) (tr : list event) (s : state),
      trace (after_request i t Throws tr s)
      = tr ++ [Backoff (2 ^ (Z.of_nat (length (queue s)) + 1) * 1000)])
  ∧ (∃ s, run abc_schedule init = Some s
          ∧ trace s =
              [Attempt "A" Fulfilled; Resolve "A"; Pace (randomDelay 0);
               Attempt "B" Rejected; Reject "B"; Pace (randomDelay 1);
               Attempt "C" Fulfilled; Resolve "C"; Pace (randomDelay 2)]).
Proof.
  split.
  - intros i t tr s. unfold after_request, exponentialBackoff; simpl length.
    rewrite Nat2Z.inj_succ, <- Z.add_1_r. reflexivity.
  - eexists. split; reflexivity.
Qed.

End Machine.

(** A reachable state at which [single_flight] is applied: B was added while
    A is in flight. *)
Lemma single_flight_witness :
  let s := add taskB (add taskA init) in
  reachable (λ _, 0) s ∧ (in_flight s ≤ 1)%nat ∧ (length (loops s) ≤ 1)%nat.
Proof.
  assert (Hreach : reachable (λ _, 0) (add taskB (add taskA init))).
  { exists [Add taskA; Add taskB]. reflexivity. }
  split; [exact Hreach | exact (single_flight (λ _, 0) _ Hreach)].
Defined.

End RequestQueue.

(* ===================================================================== *)
(** * The conversation thread builder                                     *)
(* ===================================================================== *)

Module ThreadBuilder.

Abbreviation UUID := string (only parsing).

(** The fields of [TweetData] that [buildConversationThread] reads.  The
    optional fields of [TweetV2] are options; [author_id] is read through a
    non-null assertion only. *)
Record TweetData := {
  id : string;
  text : string;
  author_id : string;
  conversation_id : option string;
  in_reply_to_user_id : option string;
  created_at : option string;
  username : string;
  name : string
}.

Record TwitterProfile := { profile_id : string; profile_username : string }.

(** How [await client.getTweet(id)] ends: with a tweet, with a falsy value,
    or by throwing. *)
Inductive fetched := Found (t : TweetData) | NoTweet | FetchFailed.

(** [client.profile] is [TwitterProfile | null]: [init()] loads it, except
    when no access token is configured, where [init()] returns after the app
    login (the client that [generateReply] builds for a simulation). *)
Record Client := {
  agentId : UUID;                      (* client.runtime.agentId *)
  profile : option TwitterProfile;     (* client.profile         *)
  getTweet : string → fetched          (* client.getTweet        *)
}.

Record Content := {
  content_text : string;
  source : string;
  url : string;
  inReplyTo : option UUID
}.

(** A [Memory] as [processThread] builds it; its [embedding] is the constant
    [getEmbeddingZeroVector()] and is left out. *)
Record Memory := {
  memory_id : UUID;
  memory_agentId : UUID;
  content : Content;
  createdAt : Z;
  roomId : UUID;
  userId : UUID
}.

Record Connection := {
  conn_userId : UUID;
  conn_roomId : UUID;
  conn_userName : string;
  conn_name : string;
  conn_source : string
}.

(** The durable store behind [runtime.messageManager] and
    [runtime.ensureConnection]: rows in the order of their creation.
    [createMemory] appends a row without looking at the rows present. *)
Record Store := {
  memories : list Memory;
  connections : list Connection
}.

Definition getMemoryById (k : UUID) (d : Store) : option Memory :=
  List.find (λ m, bool_decide (memory_id m = k)) (memories d).

Definition createMemory (m : Memory) (d : Store) : Store :=
  {| memories := memories d ++ [m]; connections := connections d |}.

Definition ensureConnection (c : Connection) (d : Store) : Store :=
  {| memories := memories d; connections := connections d ++ [c] |}.

(** Rows of the store whose id is [k]. *)
Definition entries_for (k : UUID) (d : Store) : list Memory :=
  List.filter (λ m, bool_decide (memory_id m = k)) (memories d).

(** JavaScript's [String(x)] of an optional string, as [+] applies it. *)
Definition js_string (o : option string) : string :=
  match o with Some s => s | None => "undefined" end.

(** JavaScript's truthiness of an optional string. *)
Definition truthy (o : option string) : bool :=
  match o with Some s => bool_decide (s ≠ EmptyString) | None => false end.

(** An async function resolves or rejects. *)
Inductive outcome := Completed | Thrown.

(** The closure state of [buildConversationThread], and the store. *)
Record Build := {
  thread : list TweetData;
  visited : gset string;
  store : Store
}.

Inductive result := Returned (th : list TweetData) | Rejected.

Section Builder.

(** [stringToUuid] and [new Date(s).getTime()] are library code. *)
Variable stringToUuid : string → UUID.
Variable getTime : option string → Z.

Variable client : Client.

(** The depth limit, an integer; callers that leave it out get 10. *)
Variable maxReplies : Z.

Definition memoryKey (t : TweetData) : UUID :=
  stringToUuid (id t +:+ "-" +:+ agentId client).

Definition memoryOf (t : TweetData) (p : TwitterProfile) : Memory :=
  {| memory_id := memoryKey t;
     memory_agentId := agentId client;
     content :=
       {| content_text := text t;
          source := "twitter";
          url := id t;
          inReplyTo :=
            if truthy (in_reply_to_user_id t)
            then Some (stringToUuid
                         (js_string (in_reply_to_user_id t) +:+ "-" +:+ agentId client))
            else None |};
     createdAt := getTime (created_at t);
     roomId := stringToUuid (js_string (conversation_id t) +:+ "-" +:+ agentId client);
     userId :=
       if bool_decide (author_id t = profile_id p) then agentId client
       else stringToUuid (author_id t) |}.

(** The memory-storage step of [processThread] ("Handle memory storage").
    Reading [client.profile!.id] throws when the profile is [null]; this
    happens after [ensureConnection] and before [createMemory] is called. *)
Definition persist (t : TweetData) (d : Store) : outcome * Store :=
  match getMemoryById (memoryKey t) d with
  | Some _ => (Completed, d)
  | None =>
      let d1 :=
        ensureConnection
          {| conn_userId := stringToUuid (author_id t);
             conn_roomId :=
               stringToUuid (js_string (conversation_id t) +:+ "-" +:+ agentId client);
             conn_userName := username t;
             conn_name := name t;
             conn_source := "twitter" |} d in
      match profile client with
      | None => (Thrown, d1)
      | Some p => (Completed, createMemory (memoryOf t p) d1)
      end
  end.

(** [processThread(currentTweet, depth)].  The recursion is bounded by
    [fuel]; [None] means that the fuel ran out.  A recursive call sits
    inside the [try] block around the fetch of the parent, so its rejection
    is caught and logged there.  The test [!currentTweet] is left out: the
    function is only called on a tweet that is there. *)
Fixpoint processThread (fuel : nat) (currentTweet : TweetData) (depth : Z)
    (b : Build) : option (outcome * Build) :=
  match fuel with
  | O => None
  | S fuel' =>
      if bool_decide (depth >= maxReplies) then Some (Completed, b)
      else
        match persist currentTweet (store b) with
        | (Thrown, d) =>
            Some (Thrown, {| thread := thread b; visited := visited b; store := d |})
        | (Completed, d) =>
            if bool_decide (id currentTweet ∈ visited b)
            then Some (Completed,
                       {| thread := thread b; visited := visited b; store := d |})
            else
              let b' := {| thread := currentTweet :: thread b;
                           visited := {[ id currentTweet ]} ∪ visited b;
                           store := d |} in
              if truthy (in_reply_to_user_id currentTweet) then
                match getTweet client (js_string (in_reply_to_user_id currentTweet)) with
                | Found parentTweet =>
                    match processThread fuel' parentTweet (depth + 1) b' with
                    | Some (_, b'') => Some (Completed, b'')
                    | None => None
                    end
                | NoTweet => Some (Completed, b')
                | FetchFailed => Some (Completed, b')
                end
              else Some (Completed, b')
        end
  end.

Definition buildConversationThread (fuel : nat) (tweet : TweetData) (d : Store)
    : option (result * Store) :=
  match processThread fuel tweet 0
          {| thread := []; visited := ∅; store := d |} with
  | None => None
  | Some (Completed, b) => Some (Returned (thread b), store b)
  | Some (Thrown, b) => Some (Rejected, store b)
  end.

(** Fuel that is enough from depth 0. *)
Definition enough : nat := S (Z.to_nat maxReplies).

(** ** Termination *)

Lemma processThread_total (fuel : nat) (t : TweetData) (depth : Z) (b : Build) :
  (Z.to_nat (maxReplies - depth) < fuel)%nat →
  is_Some (processThread fuel t depth b).
Proof.
  revert t depth b. induction fuel as [|fuel IH]; intros t depth b Hfuel; [lia|].
  simpl. case_bool_decide as Hdepth; [eauto|].
  destruct (persist t (store b)) as [[|] d]; [|eauto].
  case_bool_decide; [eauto|].
  destruct (truthy (in_reply_to_user_id t)); [|eauto].
  destruct (getTweet client _) as [parent| |]; [|eauto|eauto].
  destruct (IH parent (depth + 1)
              {| thread := t :: thread b; visited := {[id t]} ∪ visited b;
                 store := d |}) as [[o b''] ->]; [lia|eauto].
Qed.

Lemma processThread_more_fuel (fuel fuel' : nat) (t : TweetData) (depth : Z)
    (b : Build) (r : outcome * Build) :
  processThread fuel t depth b = Some r → (fuel ≤ fuel')%nat →
  processThread fuel' t depth b = Some r.
Proof.
  revert fuel' t depth b r.
  induction fuel as [|fuel IH]; intros fuel' t depth b r; [discriminate|].
  destruct fuel' as [|fuel']; [lia|]. simpl.
  case_bool_decide; [tauto|].
  destruct (persist t (store b)) as [[|] d]; [|tauto].
  case_bool_decide; [tauto|].
  destruct (truthy (in_reply_to_user_id t)); [|tauto].
  destruct (getTweet client _) as [parent| |]; [|tauto|tauto].
  destruct (processThread fuel parent (depth + 1) _) as [[o b'']|] eqn:Hrec;
    [|discriminate].
  intros Hr Hle. rewrite (IH fuel' _ _ _ _ Hrec); [exact Hr | lia].
Qed.

(** ** An induction principle following the cases of [processThread] *)

Section Cases.

Variable P : TweetData → Z → Build → outcome → Build → Prop.

Hypothesis case_depth : ∀ t depth b,
  depth >= maxReplies → P t depth b Completed b.
Hypothesis case_thrown : ∀ t depth b d,
  ¬ depth >= maxReplies → persist t (store b) = (Thrown, d) →
  P t depth b Thrown {| thread := thread b; visited := visited b; store := d |}.
Hypothesis case_visited : ∀ t depth b d,
  ¬ depth >= maxReplies → persist t (store b) = (Completed, d) →
  id t ∈ visited b →
  P t depth b Completed {| thread := thread b; visited := visited b; store := d |}.
Hypothesis case_end : ∀ t depth b d,
  ¬ depth >= maxReplies → persist t (store b) = (Completed, d) →
  id t ∉ visited b →
  (truthy (in_reply_to_user_id t) = false
   ∨ ∀ parent, getTweet client (js_string (in_reply_to_user_id t)) ≠ Found parent) →
  P t depth b Completed
    {| thread := t :: thread b; visited := {[id t]} ∪ visited b; store := d |}.
Hypothesis case_parent : ∀ t depth b d parent o b'',
  ¬ depth >= maxReplies → persist t (store b) = (Completed, d) →
  id t ∉ visited b →
  truthy (in_reply_to_user_id t) = true →
  getTweet client (js_string (in_reply_to_user_id t)) = Found parent →
  P parent (depth + 1)
    {| thread := t :: thread b; visited := {[id t]} ∪ visited b; store := d |}
    o b'' →
  P t depth b Completed b''.

Lemma processThread_cases (fuel : nat) (t : TweetData) (depth : Z) (b : Build)
    (o : outcome) (b' : Build) :
  processThread fuel t depth b = Some (o, b') → P t depth b o b'.
Proof.
  revert t depth b o b'.
  induction fuel as [|fuel IH]; intros t depth b o b'; [discriminate|].
  simpl. case_bool_decide as Hdepth.
  { intros [= <- <-]. by apply case_depth. }
  destruct (persist t (store b)) as [[|] d] eqn:Hpersist.
  2: { intros [= <- <-]. by apply case_thrown. }
  case_bool_decide as Hvisited.
  { intros [= <- <-]. by apply case_visited. }
  destruct (truthy (in_reply_to_user_id t)) eqn:Htruthy.
  2: { intros [= <- <-]. apply case_end; auto. }
  destruct (getTweet client _) as [parent| |] eqn:Hfetch.
  - destruct (processThread fuel parent (depth + 1) _) as [[o' b'']|] eqn:Hrec;
      [|discriminate].
    intros [= <- <-]. eapply case_parent; eauto.
  - intros [= <- <-]. apply case_end; auto. right. congruence.
  - intros [= <- <-]. apply case_end; auto. right. congruence.
Qed.

End Cases.

(** ** What [processThread] keeps true *)

(** The ids in the thread are distinct and all marked as visited. *)
Definition tidy (b : Build) : Prop :=
  NoDup (id <$> thread b) ∧ ∀ x, x ∈ id <$> thread b → x ∈ visited b.

Lemma tidy_cons (t : TweetData) (b : Build) (d : Store) :
  id t ∉ visited b → tidy b →
  tidy {| thread := t :: thread b; visited := {[id t]} ∪ visited b; store := d |}.
Proof.
  unfold tidy; simpl. intros Hfresh [Hnodup Hsub]. split.
  - apply NoDup_cons. split; [|exact Hnodup]. intros Hin. apply Hfresh, Hsub, Hin.
  - intros x [->|Hin]%elem_of_cons; [set_solver|]. apply Hsub in Hin. set_solver.
Qed.

Lemma processThread_tidy (fuel : nat) (t : TweetData) (depth : Z) (b : Build)
    (o : outcome) (b' : Build) :
  processThread fuel t depth b = Some (o, b') → tidy b → tidy b'.
Proof.
  revert fuel t depth b o b'.
  apply (processThread_cases (λ _ _ b _ b', tidy b → tidy b')).
  - tauto.
  - intros t depth b d _ _ Htidy. exact Htidy.
  - intros t depth b d _ _ _ Htidy. exact Htidy.
  - intros t depth b d _ _ Hfresh _ Htidy. by apply tidy_cons.
  - intros t depth b d parent o b'' _ _ Hfresh _ _ IH Htidy.
    apply IH. by apply tidy_cons.
Qed.

(** Every level of the recursion below [maxReplies] adds at most one
    tweet. *)
Lemma processThread_length (fuel : nat) (t : TweetData) (depth : Z) (b : Build)
    (o : outcome) (b' : Build) :
  processThread fuel t depth b = Some (o, b') →
  (length (thread b') ≤ length (thread b) + Z.to_nat (maxReplies - depth))%nat.
Proof.
  revert fuel t depth b o b'.
  apply (processThread_cases
           (λ _ depth b _ b',
              (length (thread b') ≤ length (thread b) + Z.to_nat (maxReplies - depth))%nat));
    simpl; intros; lia.
Qed.

(** With a loaded profile the memory step does not throw. *)
Lemma persist_completed (p : TwitterProfile) (t : TweetData) (d : Store) :
  profile client = Some p → (persist t d).1 = Completed.
Proof.
  intros Hp. unfold persist. destruct (getMemoryById _ d); [reflexivity|].
  rewrite Hp. reflexivity.
Qed.

(** [processThread] rejects only when [client.profile] is [null]. *)
Lemma processThread_thrown (fuel : nat) (t : TweetData) (depth : Z) (b : Build)
    (o : outcome) (b' : Build) :
  processThread fuel t depth b = Some (o, b') →
  match o with Completed => True | Thrown => profile client = None end.
Proof.
  revert fuel t depth b o b'.
  apply (processThread_cases
           (λ _ _ _ o _, match o with Completed => True | Thrown => profile client = None end));
    simpl; try tauto.
  intros t _ b d _ Hpersist.
  destruct (profile client) as [p|] eqn:Hp; [|reflexivity].
  pose proof (persist_completed p t (store b) Hp) as H.
  rewrite Hpersist in H. discriminate.
Qed.



Lemma buildConversationThread_total (tweet : TweetData) (d : Store) (extra : nat) :
  is_Some (buildConversationThread (enough + extra) tweet d).
Proof.
  unfold buildConversationThread, enough.
  destruct (processThread_total (S (Z.to_nat maxReplies) + extra) tweet 0
              {| thread := []; visited := ∅; store := d |}) as [[o b] ->].
  - rewrite Z.sub_0_r. lia.
  - destruct o; eauto.
Qed.

End Builder.

(** ** The store *)

Lemma find_none_of_filter_nil {A} (f : A → bool) (l : list A) :
  List.filter f l = [] → List.find f l = None.
Proof.
  induction l as [|x l IH]; simpl; [reflexivity|].
  destruct (f x); [discriminate | exact IH].
Qed.

Lemma find_app_some {A} (f : A → bool) (l l' : list A) (x : A) :
  List.find f l = Some x → List.find f (l ++ l') = Some x.
Proof.
  induction l as [|y l IH]; simpl; [discriminate|].
  destruct (f y); [tauto | exact IH].
Qed.

Lemma find_app_none {A} (f : A → bool) (l l' : list A) :
  List.find f l = None → List.find f (l ++ l') = List.find f l'.
Proof.
  induction l as [|y l IH]; simpl; [reflexivity|].
  destruct (f y); [discriminate | exact IH].
Qed.

Section StoreFacts.

Variable stringToUuid : string → UUID.
Variable getTime : option string → Z.
Variable client : Client.

Local Abbreviation memoryKey := (memoryKey stringToUuid client).
Local Abbreviation memoryOf := (memoryOf stringToUuid getTime client).
Local Abbreviation persist := (persist stringToUuid getTime client).

Lemma memoryKey_same_id (t t' : TweetData) : id t' = id t → memoryKey t' = memoryKey t.
Proof. unfold ThreadBuilder.memoryKey. by intros ->. Qed.

(** After the memory step the tweet has a row. *)
Lemma persist_stored (t : TweetData) (d d1 : Store) :
  persist t d = (Completed, d1) → is_Some (getMemoryById (memoryKey t) d1).
Proof.
  unfold ThreadBuilder.persist.
  destruct (getMemoryById (memoryKey t) d) as [m|] eqn:Hget.
  - intros [= <-]. eauto.
  - destruct (profile client) as [p|]; [|discriminate].
    intros [= <-]. unfold getMemoryById in *; simpl.
    rewrite find_app_none by exact Hget. simpl.
    rewrite bool_decide_eq_true_2 by reflexivity. eauto.
Qed.

(** A tweet that has a row is left alone. *)
Lemma persist_present (t : TweetData) (d : Store) :
  is_Some (getMemoryById (memoryKey t) d) → persist t d = (Completed, d).
Proof. intros [m Hm]. unfold ThreadBuilder.persist. by rewrite Hm. Qed.

(** Rows are never removed. *)
Lemma persist_keeps (t : TweetData) (d d1 : Store) (o : outcome) (k : UUID) :
  persist t d = (o, d1) → is_Some (getMemoryById k d) → is_Some (getMemoryById k d1).
Proof.
  unfold ThreadBuilder.persist.
  destruct (getMemoryById (memoryKey t) d) as [m|].
  - by intros [= <- <-].
  - destruct (profile client) as [p|]; intros [= <- <-]; [|tauto].
    intros [m Hm]. exists m. unfold getMemoryById in *; simpl.
    by apply find_app_some.
Qed.

(** Every id with a row in [d] has a row in [e]. *)
Definition covers (d e : Store) : Prop :=
  ∀ k, is_Some (getMemoryById k d) → is_Some (getMemoryById k e).

Variable maxReplies : Z.

Local Abbreviation processThread := (processThread stringToUuid getTime client maxReplies).
Local Abbreviation buildConversationThread :=
  (buildConversationThread stringToUuid getTime client maxReplies).

Lemma processThread_grows (fuel : nat) (t : TweetData) (depth : Z) (b : Build)
    (o : outcome) (b' : Build) :
  processThread fuel t depth b = Some (o, b') → covers (store b) (store b').
Proof.
  revert fuel t depth b o b'.
  apply (processThread_cases stringToUuid getTime client maxReplies
           (λ _ _ b _ b', covers (store b) (store b'))); unfold covers; simpl.
  - tauto.
  - intros t depth b d _ Hpersist k. by eapply persist_keeps.
  - intros t depth b d _ Hpersist _ k. by eapply persist_keeps.
  - intros t depth b d _ Hpersist _ _ k. by eapply persist_keeps.
  - intros t depth b d parent o b'' _ Hpersist _ _ _ IH k Hk.
    apply IH. by eapply persist_keeps.
Qed.

(** A traversal repeated on a store that has the rows of the first traversal
    visits the same tweets and writes nothing. *)
Lemma processThread_replay (p : TwitterProfile) (fuel : nat) (t : TweetData)
    (depth : Z) (b : Build) (o : outcome) (b' : Build) (e : Store) :
  profile client = Some p →
  processThread fuel t depth b = Some (o, b') →
  covers (store b') e →
  processThread fuel t depth {| thread := thread b; visited := visited b; store := e |}
  = Some (o, {| thread := thread b'; visited := visited b'; store := e |}).
Proof.
  intros Hp. revert t depth b o b'.
  induction fuel as [|fuel IH]; intros t depth b o b'; [discriminate|].
  simpl. case_bool_decide as Hdepth.
  { intros [= <- <-] _. reflexivity. }
  pose proof (persist_completed stringToUuid getTime client p t (store b) Hp) as Hc.
  destruct (ThreadBuilder.persist _ _ _ t (store b)) as [o1 d] eqn:Hpersist.
  simpl in Hc; subst o1.
  pose proof (persist_stored _ _ _ Hpersist) as Hrow.
  case_bool_decide as Hvisited.
  { intros [= <- <-] Hcov; simpl in Hcov.
    rewrite persist_present by (by apply Hcov). reflexivity. }
  destruct (truthy (in_reply_to_user_id t)) eqn:Htruthy.
  2: { intros [= <- <-] Hcov; simpl in Hcov.
       rewrite persist_present by (by apply Hcov). reflexivity. }
  destruct (getTweet client _) as [parent| |] eqn:Hfetch.
  - destruct (ThreadBuilder.processThread _ _ _ _ fuel parent (depth + 1) _)
      as [[o' b'']|] eqn:Hrec; [|discriminate].
    intros [= <- <-] Hcov.
    rewrite persist_present
      by (apply Hcov; apply (processThread_grows _ _ _ _ _ _ Hrec); exact Hrow).
    pose proof (IH _ _ _ _ _ Hrec Hcov) as Hnext. simpl in Hnext.
    rewrite Hnext. reflexivity.
  - intros [= <- <-] Hcov; simpl in Hcov.
    rewrite persist_present by (by apply Hcov). reflexivity.
  - intros [= <- <-] Hcov; simpl in Hcov.
    rewrite persist_present by (by apply Hcov). reflexivity.
Qed.

(** A second [buildConversationThread] of the same tweet returns the same
    thread and leaves the store as the first call left it. *)
Lemma rebuild_keeps_store (p : TwitterProfile) (fuel : nat) (tweet : TweetData)
    (d d1 : Store) (r : result) :
  profile client = Some p →
  buildConversationThread fuel tweet d = Some (r, d1) →
  buildConversationThread fuel tweet d1 = Some (r, d1).
Proof.
  intros Hp. unfold ThreadBuilder.buildConversationThread.
  destruct (ThreadBuilder.processThread _ _ _ _ fuel tweet 0 _) as [[o b]|] eqn:Hrun;
    [|discriminate].
  intros Hres.
  assert (Hd1 : store b = d1) by (destruct o; by injection Hres).
  pose proof (processThread_replay p _ _ _ _ _ _ d1 Hp Hrun) as Hreplay.
  simpl in Hreplay. rewrite Hreplay; [|rewrite Hd1; by intros k].
  destruct o; simpl; injection Hres as <- _; reflexivity.
Qed.

End StoreFacts.

(** ** The specified properties of the thread builder *)

(** C3. Whatever the parent references are, in particular when they form a
    cycle, [buildConversationThread] ends (with enough fuel for the depth
    limit, and then for any larger fuel), and a thread it returns has no id
    twice.  It rejects only when [client.profile] is [null]. *)
Theorem cyclic_thread_terminates_without_duplicates
    (stringToUuid : string → UUID) (getTime : option string → Z)
    (client : Client) (maxReplies : Z) (tweet : TweetData) (d : Store)
    (extra : nat) :
  ∃ r d',
    buildConversationThread stringToUuid getTime client maxReplies
      (enough maxReplies + extra) tweet d = Some (r, d')
    ∧ match r with
      | Returned th => NoDup (id <$> th)
      | Rejected => profile client = None
      end.
Proof.
  destruct (buildConversationThread_total stringToUuid getTime client maxReplies
              tweet d extra) as [[r d'] Hbuild].
  exists r, d'. split; [exact Hbuild|].
  unfold buildConversationThread in Hbuild.
  destruct (processThread _ _ _ _ _ _ _ _) as [[o b]|] eqn:Hrun; [|discriminate].
  pose proof (processThread_tidy _ _ _ _ _ _ _ _ _ _ Hrun) as Htidy.
  pose proof (processThread_thrown _ _ _ _ _ _ _ _ _ _ Hrun) as Hthrown.
  destruct o; injection Hbuild as <- <-; [|exact Hthrown].
  apply Htidy. split; simpl; [constructor | set_solver].
Qed.

(** C10. The thread has at most [maxReplies] tweets, and none at all when
    [maxReplies] is 0: the tweet under analysis is then not part of it. *)
Theorem thread_has_at_most_maxReplies_tweets
    (stringToUuid : string → UUID) (getTime : option string → Z)
    (client : Client) (maxReplies : Z) (tweet : TweetData) (d : Store)
    (extra : nat) :
  (∃ r d',
     buildConversationThread stringToUuid getTime client maxReplies
       (enough maxReplies + extra) tweet d = Some (r, d')
     ∧ match r with
       | Returned th => (length th ≤ Z.to_nat maxReplies)%nat
       | Rejected => profile client = None
       end)
  ∧ buildConversationThread stringToUuid getTime client 0
      (enough 0 + extra) tweet d = Some (Returned [], d).
Proof.
  split; [|reflexivity].
  destruct (buildConversationThread_total stringToUuid getTime client maxReplies
              tweet d extra) as [[r d'] Hbuild].
  exists r, d'. split; [exact Hbuild|].
  unfold buildConversationThread in Hbuild.
  destruct (processThread _ _ _ _ _ _ _ _) as [[o b]|] eqn:Hrun; [|discriminate].
  pose proof (processThread_length _ _ _ _ _ _ _ _ _ _ Hrun) as Hlen.
  pose proof (processThread_thrown _ _ _ _ _ _ _ _ _ _ Hrun) as Hthrown.
  destruct o; injection Hbuild as <- <-; [|exact Hthrown].
  simpl in Hlen. rewrite Z.sub_0_r in Hlen. exact Hlen.
Qed.



(** C9. The memory step writes a tweet once: on a store without a row for
    the tweet, the first pass creates the row; a second pass over a tweet
    with the same id (and the same agent) leaves the store as it is, so the
    row of the first pass is the only one for this id. *)
Theorem memory_write_is_first_seen_wins
    (stringToUuid : string → UUID) (getTime : option string → Z)
    (client : Client) (p : TwitterProfile) (t t' : TweetData) (d : Store) :
  profile client = Some p →
  id t' = id t →
  entries_for (memoryKey stringToUuid client t) d = [] →
  let d1 := (persist stringToUuid getTime client t d).2 in
  let d2 := (persist stringToUuid getTime client t' d1).2 in
  entries_for (memoryKey stringToUuid client t) d1
  = [memoryOf stringToUuid getTime client t p]
  ∧ d2 = d1
  ∧ entries_for (memoryKey stringToUuid client t) d2
    = [memoryOf stringToUuid getTime client t p].
Proof.
  intros Hp Hid Hfresh d1 d2.
  assert (Hd1 : persist stringToUuid getTime client t d
                = (Completed,
                   createMemory (memoryOf stringToUuid getTime client t p)
                     (ensureConnection
                        {| conn_userId := stringToUuid (author_id t);
                           conn_roomId :=
                             stringToUuid
                               (js_string (conversation_id t) +:+ "-" +:+ agentId client);
                           conn_userName := username t;
                           conn_name := name t;
                           conn_source := "twitter" |} d))).
  { unfold persist, getMemoryById.
    rewrite (find_none_of_filter_nil _ _ Hfresh), Hp. reflexivity. }
  assert (Hrow : entries_for (memoryKey stringToUuid client t) d1
                 = [memoryOf stringToUuid getTime client t p]).
  { subst d1. rewrite Hd1. unfold entries_for in *; simpl.
    rewrite List.filter_app, Hfresh; simpl.
    rewrite bool_decide_eq_true_2 by reflexivity. reflexivity. }
  assert (Hd2 : d2 = d1).
  { subst d2. rewrite persist_present; [reflexivity|].
    rewrite (memoryKey_same_id _ _ _ _ Hid).
    apply (persist_stored stringToUuid getTime client t d). subst d1.
    rewrite Hd1. reflexivity. }
  rewrite Hd2. auto.
Qed.

(** ** Concrete conversations *)

Definition tweet (i : string) (parent : option string) : TweetData :=
  {| id := i; text := "text of " +:+ i; author_id := "author of " +:+ i;
     conversation_id := Some "conversation"; in_reply_to_user_id := parent;
     created_at := None; username := "user"; name := "User" |}.

Definition tweetA : TweetData := tweet "a" None.
Definition tweetB : TweetData := tweet "b" (Some "a").
Definition tweetC : TweetData := tweet "c" (Some "b").
Definition tweetD : TweetData := tweet "d" (Some "c").

Definition agentProfile : TwitterProfile :=
  {| profile_id := "author of a"; profile_username := "agent" |}.

Definition chainClient : Client :=
  {| agentId := "agent"; profile := Some agentProfile;
     getTweet := λ ref,
       if String.eqb ref "a" then Found tweetA
       else if String.eqb ref "b" then Found tweetB
       else if String.eqb ref "c" then Found tweetC
       else NoTweet |}.

(** A cycle of two tweets: X replies to Y and Y replies to X. *)
Definition tweetX : TweetData := tweet "x" (Some "y").
Definition tweetY : TweetData := tweet "y" (Some "x").

Definition cycleClient : Client :=
  {| agentId := "agent"; profile := Some agentProfile;
     getTweet := λ ref,
       if String.eqb ref "x" then Found tweetX
       else if String.eqb ref "y" then Found tweetY
       else NoTweet |}.

Definition emptyStore : Store := {| memories := []; connections := [] |}.

Example cycle_is_cut :
  fst <$> buildConversationThread (λ s, s) (λ _, 0) cycleClient 10 (enough 10)
            tweetX emptyStore
  = Some (Returned [tweetY; tweetX]).
Proof. vm_compute. reflexivity. Qed.




Lemma memory_write_is_first_seen_wins_witness :
  let t' := tweet "d" None in
  let d1 := (persist (λ s, s) (λ _, 0) chainClient tweetD emptyStore).2 in
  let d2 := (persist (λ s, s) (λ _, 0) chainClient t' d1).2 in
  entries_for (memoryKey (λ s, s) chainClient tweetD) d1
  = [memoryOf (λ s, s) (λ _, 0) chainClient tweetD agentProfile]
  ∧ d2 = d1
  ∧ entries_for (memoryKey (λ s, s) chainClient tweetD) d2
    = [memoryOf (λ s, s) (λ _, 0) chainClient tweetD agentProfile].
Proof.
  apply (memory_write_is_first_seen_wins (λ s, s) (λ _, 0) chainClient
           agentProfile tweetD (tweet "d" None) emptyStore);
    reflexivity.
Defined.

End ThreadBuilder.

(* ===================================================================== *)
(** * The scheduling loops                                                *)
(* ===================================================================== *)

Module SchedulingLoop.

(** The three loops of a worker: [generateNewTweetLoop] (post.ts),
    [engageWithSearchTermsLoop] (utils.ts) and
    [handleTwitterInteractionsLoop] (interactions.ts). *)
Inductive kind := ContentPosting | SearchEngage | InteractionScan.

(** [character.promptConfig.POST] and the two switches of [twitterConfig]
    read by [TwitterPostClient.start]. *)
Record Config := {
  intervalMin : option Z;
  intervalMax : option Z;
  POST_IMMEDIATELY : bool;
  TWITTER_DRY_RUN : bool
}.

(** An asynchronous activity of the loop that has started and not yet
    completed. *)
Inductive activity :=
| ReadingLastPost        (* posting: await cacheManager.get(".../lastPost")     *)
| PostingFirst           (* posting: start() awaits generateNewTweet()          *)
| Posting (delay : Z)    (* posting: the loop awaits generateNewTweet()         *)
| Publishing             (* posting: this.postTweet(...), called by
                            generateNewTweet and awaited by nobody              *)
| Searching              (* search: engageWithSearchTerms(), awaited by nobody  *)
| Scanning.              (* scanning: await handleTwitterInteractions()         *)


(** The activities that the loop awaits before it goes on. *)
Definition is_awaited (a : activity) : bool :=
  match a with Publishing => false | Searching => false | _ => true end.

Record state := {
  running : list activity;   (* activities in progress                      *)
  timers : list Z            (* pending setTimeout calls of the loop, in ms *)
}.

(** [randomMinutes * 60 * 1000], where [r] is the value of
    [Math.floor(Math.random() * (intervalMax - intervalMin + 1))]. *)
Definition delay_of (r : Z) (min : Z) : Z := (r + min) * 60 * 1000.

Definition posting_delay (cfg : Config) (r : Z) : Z :=
  delay_of r (default 90 (intervalMin cfg)).

Definition scanning_delay (cfg : Config) (r : Z) : Z :=
  delay_of r (default 5 (intervalMin cfg)).

Definition search_delay (r : Z) : Z := delay_of r 60.

Definition idle : state := {| running := []; timers := [] |}.

(** A call of [generateNewTweetLoop], up to its [await] of the cache. *)
Definition generateNewTweetLoop (s : state) : state :=
  {| running := running s ++ [ReadingLastPost]; timers := timers s |}.

(** A call of [engageWithSearchTermsLoop]: it starts the search, which it
    does not await, and sets the timer of its next call. *)
Definition engageWithSearchTermsLoop (r : Z) (s : state) : state :=
  {| running := running s ++ [Searching];
     timers := timers s ++ [search_delay r] |}.

(** A call of [handleTwitterInteractionsLoop]: it sets the timer whose
    callback does the work and then calls the loop again. *)
Definition handleTwitterInteractionsLoop (cfg : Config) (r : Z) (s : state) : state :=
  {| running := running s; timers := timers s ++ [scanning_delay cfg r] |}.

(** The call of [start()], up to its first suspension.  (The posting client
    first awaits [client.init()] when the profile is missing.) *)
Definition start (k : kind) (cfg : Config) (r : Z) : state :=
  match k with
  | ContentPosting =>
      if POST_IMMEDIATELY cfg then {| running := [PostingFirst]; timers := [] |}
      else if TWITTER_DRY_RUN cfg then idle
      else generateNewTweetLoop idle
  | SearchEngage => engageWithSearchTermsLoop r idle
  | InteractionScan => handleTwitterInteractionsLoop cfg r idle
  end.

(** How an awaited call of the work settles.  [generateNewTweet] and
    [engageWithSearchTerms] catch every error and resolve;
    [handleTwitterInteractions] reads [client.profile!.username] before its
    [try] block and rejects when the profile is [null]. *)
Inductive ending :=
| Resolved           (* it resolves and leaves nothing in flight             *)
| ResolvedPosting    (* generateNewTweet resolves after it called postTweet  *)
| Rejected.

Inductive label :=
| CacheRead (i : nat) (lastPost : option Z) (now : Z) (r : Z)
    (* the cache answers activity i; now = Date.now()                     *)
| CacheFailed (i : nat)
    (* the cache rejects the read of activity i                           *)
| WorkDone (i : nat) (e : ending) (r : Z)
    (* the work of activity i settles                                     *)
| PostDone (i : nat)
    (* the post of activity i is over (postTweet catches its errors)      *)
| TimerFired (j : nat) (r : Z).
    (* timer j fires and its callback runs                                *)

(** Activity [i] is over. *)
Definition finish (i : nat) (s : state) : state :=
  {| running := delete i (running s); timers := timers s |}.

Definition setTimeout (delay : Z) (s : state) : state :=
  {| running := running s; timers := timers s ++ [delay] |}.

(** [this.postTweet(...)] without [await]. *)
Definition postTweet (s : state) : state :=
  {| running := running s ++ [Publishing]; timers := timers s |}.

Definition step (k : kind) (cfg : Config) (l : label) (s : state) : option state :=
  match l with
  | CacheRead i lastPost now r =>
      match running s !! i with
      | Some ReadingLastPost =>
          let delay := posting_delay cfg r in
          if bool_decide (now > default 0 lastPost + delay)
          then Some {| running := <[i := Posting delay]> (running s);
                       timers := timers s |}
          else Some (setTimeout delay (finish i s))
      | _ => None
      end
  | CacheFailed i =>
      match running s !! i with
      | Some ReadingLastPost => Some (finish i s)
      | _ => None
      end
  | WorkDone i e r =>
      match running s !! i with
      | Some PostingFirst =>
          match e with
          | Resolved =>
              if TWITTER_DRY_RUN cfg then Some (finish i s)
              else Some (generateNewTweetLoop (finish i s))
          | ResolvedPosting =>
              if TWITTER_DRY_RUN cfg then None
              else Some (generateNewTweetLoop (postTweet (finish i s)))
          | Rejected => None
          end
      | Some (Posting delay) =>
          match e with
          | Resolved => Some (setTimeout delay (finish i s))
          | ResolvedPosting =>
              if TWITTER_DRY_RUN cfg then None
              else Some (setTimeout delay (postTweet (finish i s)))
          | Rejected => None
          end
      | Some Searching =>
          match e with
          | Resolved => Some (finish i s)
          | _ => None
          end
      | Some Scanning =>
          match e with
          | Resolved => Some (handleTwitterInteractionsLoop cfg r (finish i s))
          | Rejected => Some (finish i s)
          | ResolvedPosting => None
          end
      | _ => None
      end
  | PostDone i =>
      match running s !! i with
      | Some Publishing => Some (finish i s)
      | _ => None
      end
  | TimerFired j r =>
      match timers s !! j with
      | Some _ =>
          let s' := {| running := running s; timers := delete j (timers s) |} in
          match k with
          | ContentPosting => Some (generateNewTweetLoop s')
          | SearchEngage => Some (engageWithSearchTermsLoop r s')
          | InteractionScan =>
              Some {| running := running s' ++ [Scanning]; timers := timers s' |}
          end
      | None => None
      end
  end.

Fixpoint run (k : kind) (cfg : Config) (ls : list label) (s : state) : option state :=
  match ls with
  | [] => Some s
  | l :: ls' =>
      match step k cfg l s with
      | Some s' => run k cfg ls' s'
      | None => None
      end
  end.

Definition reachable (k : kind) (cfg : Config) (s : state) : Prop :=
  ∃ r ls, run k cfg ls (start k cfg r) = Some s.


(** Activities that the loop is waiting for. *)
Definition awaited (s : state) : nat :=
  length (List.filter is_awaited (running s)).


Definition defaults : Config :=
  {| intervalMin := None; intervalMax := None;
     POST_IMMEDIATELY := false; TWITTER_DRY_RUN := false |}.

(** ** Counting the awaited activities *)

Definition weight (a : activity) : nat := if is_awaited a then 1 else 0.

Lemma awaited_delete (l : list activity) (i : nat) (a : activity) :
  l !! i = Some a →
  length (List.filter is_awaited l)
  = (length (List.filter is_awaited (delete i l)) + weight a)%nat.
Proof.
  revert i. induction l as [|x l IH]; intros [|i]; simpl; try discriminate.
  - intros [= ->]. unfold weight. destruct (is_awaited a); simpl; lia.
  - intros Hi. pose proof (IH _ Hi). destruct (is_awaited x); simpl; lia.
Qed.

Lemma awaited_insert (l : list activity) (i : nat) (a b : activity) :
  l !! i = Some a →
  (length (List.filter is_awaited (<[i := b]> l)) + weight a)%nat
  = (length (List.filter is_awaited l) + weight b)%nat.
Proof.
  revert i. induction l as [|x l IH]; intros [|i]; simpl; try discriminate.
  - intros [= ->]. unfold weight. destruct (is_awaited a), (is_awaited b); simpl; lia.
  - intros Hi. pose proof (IH _ Hi). destruct (is_awaited x); simpl; lia.
Qed.

Lemma awaited_snoc (l : list activity) (a : activity) :
  length (List.filter is_awaited (l ++ [a]))
  = (length (List.filter is_awaited l) + weight a)%nat.
Proof.
  rewrite List.filter_app, length_app. unfold weight. simpl.
  destruct (is_awaited a); reflexivity.
Qed.

(** ** The posting and the scanning loop *)

(** At most one thing is going on that the loop waits for: an awaited
    activity or a pending timer. *)
Definition single (s : state) : Prop :=
  (awaited s + length (timers s) ≤ 1)%nat.

Lemma single_start (k : kind) (cfg : Config) (r : Z) :
  k ≠ SearchEngage → single (start k cfg r).
Proof.
  unfold single, awaited, start. destruct k; [|congruence|]; intros _.
  - destruct (POST_IMMEDIATELY cfg), (TWITTER_DRY_RUN cfg); simpl; lia.
  - simpl; lia.
Qed.

Lemma length_delete_timer (tm : list Z) (j : nat) (d : Z) :
  tm !! j = Some d → length tm = S (length (delete j tm)).
Proof.
  revert j. induction tm as [|x tm IH]; intros [|j]; simpl; try discriminate.
  - reflexivity.
  - intros Hj. by rewrite (IH _ Hj).
Qed.

Lemma single_step (k : kind) (cfg : Config) (l : label) (s s' : state) :
  k ≠ SearchEngage → single s → step k cfg l s = Some s' → single s'.
Proof.
  intros Hk. destruct s as [rn tm]. unfold single, awaited; simpl. intros Hs.
  destruct l as [i lastPost now r|i|i e r|i|j r]; simpl.
  - destruct (rn !! i) as [a|] eqn:Hi; [|discriminate].
    destruct a; try discriminate.
    pose proof (awaited_delete _ _ _ Hi) as Hdel.
    pose proof (awaited_insert _ _ _ (Posting (posting_delay cfg r)) Hi) as Hins.
    unfold weight in *; simpl in *.
    case_bool_decide; intros [= <-]; simpl; rewrite ?length_app; simpl; lia.
  - destruct (rn !! i) as [a|] eqn:Hi; [|discriminate].
    destruct a; try discriminate.
    pose proof (awaited_delete _ _ _ Hi) as Hdel. unfold weight in *; simpl in *.
    intros [= <-]; simpl; lia.
  - destruct (rn !! i) as [a|] eqn:Hi; [|discriminate].
    pose proof (awaited_delete _ _ _ Hi) as Hdel. unfold weight in *.
    destruct a, e; simpl in *; try discriminate;
      repeat match goal with
             | |- context [if ?c then _ else _] => destruct c
             end;
      try discriminate; intros [= <-]; simpl;
      rewrite ?awaited_snoc, ?length_app; unfold weight; simpl; lia.
  - destruct (rn !! i) as [a|] eqn:Hi; [|discriminate].
    destruct a; try discriminate.
    pose proof (awaited_delete _ _ _ Hi) as Hdel. unfold weight in *; simpl in *.
    intros [= <-]; simpl; lia.
  - destruct (tm !! j) as [d|] eqn:Hj; [|discriminate].
    pose proof (length_delete_timer _ _ _ Hj) as Hlen.
    destruct k; [|congruence|]; intros [= <-]; simpl;
      rewrite awaited_snoc; unfold weight; simpl; lia.
Qed.

Lemma single_run (k : kind) (cfg : Config) (ls : list label) (s s' : state) :
  k ≠ SearchEngage → single s → run k cfg ls s = Some s' → single s'.
Proof.
  intros Hk. revert s. induction ls as [|l ls IH]; simpl; intros s Hs.
  - by intros [= <-].
  - destruct (step k cfg l s) as [s1|] eqn:Hstep; [|discriminate].
    apply IH. by eapply single_step.
Qed.






(** ** The search loop *)

Definition searching (s : state) : Prop :=
  Forall (λ a, a = Searching) (running s) ∧ length (timers s) = 1%nat.

Lemma searching_step (cfg : Config) (l : label) (s s' : state) :
  searching s → step SearchEngage cfg l s = Some s' → searching s'.
Proof.
  destruct s as [rn tm]. unfold searching; simpl. intros [Hall Htm].
  destruct tm as [|d [|d' tm]]; try discriminate. clear Htm.
  destruct l as [i lastPost now r|i|i e r|i|j r]; simpl.
  - destruct (rn !! i) as [a|] eqn:Hi; [|discriminate].
    rewrite (Forall_lookup_1 _ _ _ _ Hall Hi). discriminate.
  - destruct (rn !! i) as [a|] eqn:Hi; [|discriminate].
    rewrite (Forall_lookup_1 _ _ _ _ Hall Hi). discriminate.
  - destruct (rn !! i) as [a|] eqn:Hi; [|discriminate].
    rewrite (Forall_lookup_1 _ _ _ _ Hall Hi).
    destruct e; try discriminate.
    intros [= <-]; simpl. split; [by apply Forall_delete | reflexivity].
  - destruct (rn !! i) as [a|] eqn:Hi; [|discriminate].
    rewrite (Forall_lookup_1 _ _ _ _ Hall Hi). discriminate.
  - destruct j as [|j]; simpl; [|destruct j; discriminate].
    intros [= <-]; simpl. split; [|reflexivity].
    apply Forall_app. split; [exact Hall | by constructor].
Qed.

(** [engageWithSearchTermsLoop] sets the timer of the next invocation in the
    call that starts the work: from [start()] on exactly one timer is
    pending, whether or not an invocation is in flight. *)
Lemma search_timer_always_pending (cfg : Config) (s : state) :
  reachable SearchEngage cfg s → length (timers s) = 1%nat.
Proof.
  intros (r & ls & Hrun).
  enough (Hs : searching s) by apply Hs.
  assert (Hstart : searching (start SearchEngage cfg r)).
  { split; [by repeat constructor | reflexivity]. }
  revert Hrun Hstart. generalize (start SearchEngage cfg r) as s0.
  induction ls as [|l ls IH]; simpl; intros s0.
  - by intros [= <-].
  - destruct (step SearchEngage cfg l s0) as [s1|] eqn:Hstep; [|discriminate].
    intros Hrun Hs0. apply (IH s1 Hrun). by eapply searching_step.
Qed.

(** The search loop two seconds after [start()]: the first search is in
    flight and the timer of the second is pending; and when that timer fires
    before the first search is done, two searches are in flight. *)
Lemma search_overlap :
  reachable SearchEngage defaults
    {| running := [Searching]; timers := [search_delay 0] |}
  ∧ reachable SearchEngage defaults
      {| running := [Searching; Searching]; timers := [search_delay 0] |}.
Proof.
  split.
  - exists 0, []. reflexivity.
  - exists 0, [TimerFired 0 0]. reflexivity.
Qed.

(** The posting loop after a generation that called [postTweet]: the post
    is in flight while the timer of the next generation is pending, and it
    can still be in flight when the next generation runs.  With
    [POST_IMMEDIATELY] the loop reads the cache, and can start the second
    generation, before the first post has written [lastPost]. *)
Lemma post_outlives_its_generation :
  reachable ContentPosting defaults
    {| running := [Publishing]; timers := [posting_delay defaults 7] |}
  ∧ reachable ContentPosting defaults
      {| running := [Publishing; Posting (posting_delay defaults 3)]; timers := [] |}
  ∧ reachable ContentPosting
      {| intervalMin := None; intervalMax := None;
         POST_IMMEDIATELY := true; TWITTER_DRY_RUN := false |}
      {| running := [Publishing; Posting (posting_delay defaults 7)]; timers := [] |}.
Proof.
  split; [|split].
  - exists 0, [CacheRead 0 None 1700000000000 7; WorkDone 0 ResolvedPosting 0].
    reflexivity.
  - exists 0, [CacheRead 0 None 1700000000000 7; WorkDone 0 ResolvedPosting 0;
               TimerFired 0 0; CacheRead 1 None 1700000000000 3].
    reflexivity.
  - exists 0, [WorkDone 0 ResolvedPosting 0; CacheRead 1 None 1700000000000 7].
    reflexivity.
Qed.

(** ** The specified property of the loops *)




End SchedulingLoop.

(* ===================================================================== *)
(** * The agent supervisor                                                *)
(* ===================================================================== *)

Module Supervisor.

Inductive grpc_status := INVALID_ARGUMENT | NOT_FOUND | INTERNAL.

(** The error object handed to a gRPC callback. *)
Record ServiceError := {
  message : string;
  code : grpc_status;
  name : string
}.

(** How a handler ends: it calls back with a value, calls back with an
    error, or throws a [TypeError] before calling back. *)
Inductive reply (A : Type) :=
| Ok (a : A)
| Failed (e : ServiceError)
| TypeError (what : string).
Arguments Ok {A} a.
Arguments Failed {A} e.
Arguments TypeError {A} what.

Record TwitterCredentials := {
  username : option string;
  token : option string;
  secret : option string
}.

Record StartAgentRequest := {
  character : option string;
  twitter : option TwitterCredentials
}.

(** A spawned [ChildProcess]: its pid ([undefined] when the spawn failed) and
    the variables added to its environment. *)
Record ChildProcess := {
  pid : option N;
  env : list (string * string)
}.

Record AgentEntry := {
  process : ChildProcess;
  status : string
}.

Record state := {
  agents : gmap string AgentEntry;    (* own properties of [agents]     *)
  children : list ChildProcess;       (* calls of [spawn]               *)
  killed : list ChildProcess          (* calls of [process.kill()]      *)
}.

Definition init : state := {| agents := ∅; children := []; killed := [] |}.

(** JavaScript's truthiness of an optional string. *)
Definition truthy (o : option string) : bool :=
  match o with Some s => bool_decide (s ≠ EmptyString) | None => false end.

Definition js_string (o : option string) : string :=
  match o with Some s => s | None => "undefined" end.

(** [String(child.pid)], which is also the property key of
    [agents[child.pid]]. *)
Definition pid_key (p : option N) : string :=
  match p with Some n => pretty n | None => "undefined" end.

(** [agents] is created by the object literal [{}], so a property read also
    finds the members of [Object.prototype]. *)
Definition object_prototype : list string :=
  ["constructor"; "hasOwnProperty"; "isPrototypeOf"; "propertyIsEnumerable";
   "toLocaleString"; "toString"; "valueOf"; "__proto__";
   "__defineGetter__"; "__defineSetter__"; "__lookupGetter__";
   "__lookupSetter__"].

(** The value of [agents[key]]. *)
Inductive property :=
| Own (a : AgentEntry)
| Inherited            (* a member of Object.prototype: truthy, no fields *)
| Undefined.

Definition get (key : string) (s : state) : property :=
  match agents s !! key with
  | Some a => Own a
  | None => if bool_decide (key ∈ object_prototype) then Inherited else Undefined
  end.

Definition missing_parameters : ServiceError :=
  {| message := "Missing required parameters."; code := INVALID_ARGUMENT;
     name := "MissingRequiredParametersError" |}.

Definition agent_not_found : ServiceError :=
  {| message := "Agent not found"; code := NOT_FOUND;
     name := "AgentNotFoundError" |}.

(** The test
    [!character || !twitter || !twitter.username || !twitter.token || !twitter.secret]. *)
Definition missing (req : StartAgentRequest) : bool :=
  negb (truthy (character req))
  || match twitter req with
     | None => true
     | Some tw =>
         negb (truthy (username tw)) || negb (truthy (token tw))
         || negb (truthy (secret tw))
     end.

(** The child that [spawn] returns for a request; [os_pid] is the pid given
    by the operating system. *)
Definition spawn (req : StartAgentRequest) (os_pid : option N) : ChildProcess :=
  {| pid := os_pid;
     env := [("CHARACTER", js_string (character req));
             ("TWITTER_USERNAME", js_string (twitter req ≫= username));
             ("TWITTER_ACCESS_TOKEN", js_string (twitter req ≫= token));
             ("TWITTER_ACCESS_SECRET", js_string (twitter req ≫= secret))] |}.

Definition startAgent (req : StartAgentRequest) (os_pid : option N) (s : state)
    : reply string * state :=
  if missing req then (Failed missing_parameters, s)
  else
    let child := spawn req os_pid in
    (Ok (pid_key (pid child)),
     {| agents := <[pid_key (pid child) := {| process := child; status := "running" |}]>
                    (agents s);
        children := children s ++ [child];
        killed := killed s |}).

(** The listener [child.on("exit", ...)] of [startAgent].  Its key is a
    decimal number or ["undefined"], so the read finds an own property or
    nothing. *)
Definition on_exit (child : ChildProcess) (s : state) : state :=
  match get (pid_key (pid child)) s with
  | Own a =>
      {| agents := <[pid_key (pid child) := {| process := process a; status := "stopped" |}]>
                     (agents s);
         children := children s; killed := killed s |}
  | Inherited => s
  | Undefined => s
  end.

Definition stopAgent (pid : string) (s : state) : reply bool * state :=
  match get pid s with
  | Own agent =>
      (Ok true,
       {| agents := <[pid := {| process := process agent; status := "stopped" |}]>
                      (agents s);
          children := children s;
          killed := killed s ++ [process agent] |})
  | Inherited =>
      (TypeError "Cannot read properties of undefined (reading 'kill')", s)
  | Undefined => (Failed agent_not_found, s)
  end.

(** The response of [getAgentStatus]: the pid and [agent.status]. *)
Definition getAgentStatus (pid : string) (s : state)
    : reply (string * option string) :=
  match get pid s with
  | Own agent => Ok (pid, Some (status agent))
  | Inherited => Ok (pid, None)
  | Undefined => Failed agent_not_found
  end.

(** A field that is not there: [undefined], or the empty string that the
    proto loader puts in its place. *)
Definition absent (o : option string) : Prop := o = None ∨ o = Some EmptyString.

Lemma absent_not_truthy (o : option string) : absent o → truthy o = false.
Proof. by intros [-> | ->]. Qed.

Lemma truthy_not_absent (o : option string) : truthy o = true → ¬ absent o.
Proof. intros Ht Ha. apply absent_not_truthy in Ha. congruence. Qed.

(** ** The life of an agent *)

Lemma get_own (key : string) (a : AgentEntry) (s : state) :
  agents s !! key = Some a → get key s = Own a.
Proof. unfold get. by intros ->. Qed.

(** A valid request starts a child and answers with its pid; the status of
    that pid is then [running], and [stopped] once the child has exited. *)
Lemma started_running_then_stopped (req : StartAgentRequest) (n : N) (s : state) :
  missing req = false →
  let s1 := (startAgent req (Some n) s).2 in
  (startAgent req (Some n) s).1 = Ok (pretty n)
  ∧ children s1 = children s ++ [spawn req (Some n)]
  ∧ getAgentStatus (pretty n) s1 = Ok (pretty n, Some "running")
  ∧ getAgentStatus (pretty n) (on_exit (spawn req (Some n)) s1)
    = Ok (pretty n, Some "stopped").
Proof.
  intros Hvalid. unfold startAgent. rewrite Hvalid; simpl.
  split; [reflexivity|]. split; [reflexivity|].
  unfold getAgentStatus, on_exit; simpl.
  rewrite !(get_own (pretty n) {| process := spawn req (Some n); status := "running" |})
    by (simpl; apply lookup_insert_eq).
  split; [reflexivity|].
  rewrite (get_own (pretty n) {| process := spawn req (Some n); status := "stopped" |})
    by (simpl; apply lookup_insert_eq).
  reflexivity.
Qed.

(** Stopping a running agent signals its process and marks it stopped. *)
Lemma stop_known (key : string) (a : AgentEntry) (s : state) :
  agents s !! key = Some a →
  (stopAgent key s).1 = Ok true
  ∧ killed (stopAgent key s).2 = killed s ++ [process a]
  ∧ getAgentStatus key (stopAgent key s).2 = Ok (key, Some "stopped").
Proof.
  intros Ha. unfold stopAgent. rewrite (get_own _ _ _ Ha); simpl.
  split; [reflexivity|]. split; [reflexivity|].
  unfold getAgentStatus.
  rewrite (get_own key {| process := process a; status := "stopped" |})
    by (simpl; apply lookup_insert_eq).
  reflexivity.
Qed.

(** A pid that is neither registered nor the name of a member of
    [Object.prototype] is not found. *)
Lemma unknown_not_found (key : string) (s : state) :
  agents s !! key = None → key ∉ object_prototype →
  stopAgent key s = (Failed agent_not_found, s)
  ∧ getAgentStatus key s = Failed agent_not_found.
Proof.
  intros Hnone Hproto. unfold stopAgent, getAgentStatus, get.
  rewrite Hnone, bool_decide_eq_false_2 by exact Hproto. split; reflexivity.
Qed.

Example stop_unknown :
  stopAgent "unknown" init = (Failed agent_not_found, init).
Proof. reflexivity. Qed.

(** ** The specified properties of the supervisor *)

(** C7. [StopAgent] with the pid ["constructor"], which no agent has: the
    read of [agents[pid]] finds [Object.prototype.constructor], the handler
    takes the branch of a registered agent and throws on
    [agent.process.kill()]; the answer is not [NOT_FOUND].  [GetAgentStatus]
    with the same pid answers with success and no status. *)
Theorem stop_agent_with_inherited_key :
  stopAgent "constructor" init
  = (TypeError "Cannot read properties of undefined (reading 'kill')", init)
  ∧ (stopAgent "constructor" init).1 ≠ Failed agent_not_found
  ∧ getAgentStatus "constructor" init = Ok ("constructor", None).
Proof. repeat split. discriminate. Qed.

(** C8. A request without persona, without credentials, or with credentials
    that lack the username, the token or the secret is answered with
    [INVALID_ARGUMENT]; no process is spawned and the registry is left as it
    was. *)
Theorem start_agent_rejects_missing_fields
    (req : StartAgentRequest) (os_pid : option N) (s : state) :
  (absent (character req)
   ∨ twitter req = None
   ∨ ∃ tw, twitter req = Some tw
           ∧ (absent (username tw) ∨ absent (token tw) ∨ absent (secret tw))) →
  ∃ e, (startAgent req os_pid s).1 = Failed e
       ∧ code e = INVALID_ARGUMENT
       ∧ children (startAgent req os_pid s).2 = children s
       ∧ agents (startAgent req os_pid s).2 = agents s.
Proof.
  intros Habsent.
  assert (Hmissing : missing req = true).
  { unfold missing.
    destruct Habsent as [Hc|[Htw|(tw & Htw & Hfield)]].
    - by rewrite (absent_not_truthy _ Hc).
    - rewrite Htw. apply orb_true_r.
    - rewrite Htw. apply orb_true_iff. right.
      destruct Hfield as [H|[H|H]]; rewrite (absent_not_truthy _ H); simpl;
        rewrite ?orb_true_r; reflexivity. }
  unfold startAgent. rewrite Hmissing. exists missing_parameters. by repeat split.
Qed.

(** A request whose credentials have no token. *)
Definition request_without_token : StartAgentRequest :=
  {| character := Some "{ name: agent }";
     twitter := Some {| username := Some "agent"; token := None;
                        secret := Some "secret" |} |}.

Lemma start_agent_rejects_missing_fields_witness :
  ∃ e, (startAgent request_without_token (Some 4242%N) init).1 = Failed e
       ∧ code e = INVALID_ARGUMENT
       ∧ children (startAgent request_without_token (Some 4242%N) init).2 = []
       ∧ agents (startAgent request_without_token (Some 4242%N) init).2 = ∅.
Proof.
  apply (start_agent_rejects_missing_fields request_without_token (Some 4242%N) init).
  right; right. eexists. split; [reflexivity|]. right; left; left. reflexivity.
Defined.

End Supervisor.

(* ===================================================================== *)
(** * JavaScript strings                                                  *)
(* ===================================================================== *)

(** The string operations that the text functions of the client use:
    [String.prototype.trim], [slice], [indexOf], [lastIndexOf] and [split]
    with a string separator.  A string is the list of its UTF-16 code
    units, which is what [length] and the indices of these operations
    count. *)
Module Text.

(** The code units of a literal. *)
Definition codes (s : string) : list N :=
  Ascii.N_of_ascii <$> String.list_ascii_of_string s.

(** WhiteSpace and LineTerminator of ECMAScript, the characters that [trim]
    removes. *)
Definition whitespace : list N :=
  [9; 10; 11; 12; 13; 32; 160; 5760;
   8192; 8193; 8194; 8195; 8196; 8197; 8198; 8199; 8200; 8201; 8202;
   8232; 8233; 8239; 8287; 12288; 65279]%N.

Definition is_space (c : N) : bool := bool_decide (c ∈ whitespace).

Fixpoint trimStart (s : list N) : list N :=
  match s with
  | [] => []
  | c :: r => if is_space c then trimStart r else s
  end.

Fixpoint trimEnd (s : list N) : list N :=
  match s with
  | [] => []
  | c :: r =>
      match trimEnd r with
      | [] => if is_space c then [] else [c]
      | r' => c :: r'
      end
  end.

Definition trim (s : list N) : list N := trimEnd (trimStart s).

(** The index that [slice] makes of an argument: negative arguments count
    from the end, everything is clamped to [0, len]. *)
Definition relative (len i : Z) : Z :=
  if i <? 0 then Z.max (len + i) 0 else Z.min i len.

(** [s.slice(start, end)]; [None] is an [end] left out. *)
Definition slice (s : list N) (start : Z) (end_ : option Z) : list N :=
  let len := Z.of_nat (length s) in
  let from := relative len start in
  let to := match end_ with Some e => relative len e | None => len end in
  take (Z.to_nat (to - from)) (drop (Z.to_nat from) s).

Fixpoint starts_with (pat s : list N) : bool :=
  match pat, s with
  | [], _ => true
  | p :: pat', c :: s' => (p =? c)%N && starts_with pat' s'
  | _ :: _, [] => false
  end.

(** The first index, counted from [k] for the head of [s], at which [pat]
    occurs. *)
Fixpoint search (pat s : list N) (k : nat) : option nat :=
  if starts_with pat s then Some k
  else match s with
       | [] => None
       | _ :: s' => search pat s' (S k)
       end.

(** The last index not above [bound], counted from [k] for the head of [s],
    at which [pat] occurs. *)
Fixpoint search_last (pat s : list N) (k bound : nat) : option nat :=
  let here := if (k <=? bound)%nat && starts_with pat s then Some k else None in
  match s with
  | [] => here
  | _ :: s' =>
      match search_last pat s' (S k) bound with
      | Some r => Some r
      | None => here
      end
  end.

Definition found (r : option nat) : Z :=
  match r with Some k => Z.of_nat k | None => -1 end.

(** [s.indexOf(pat, position)]. *)
Definition indexOf (s pat : list N) (position : Z) : Z :=
  let start := Z.to_nat (Z.min (Z.max position 0) (Z.of_nat (length s))) in
  found (search pat (drop start s) start).

(** [s.lastIndexOf(pat, position)]; [None] is a position left out, which
    stands for the end. *)
Definition lastIndexOf (s pat : list N) (position : option Z) : Z :=
  let len := Z.of_nat (length s) in
  let bound :=
    match position with
    | Some p => Z.to_nat (Z.min (Z.max p 0) len)
    | None => length s
    end in
  found (search_last pat s 0 bound).

(** [s.split(sep)] for a separator that is not empty: [cur] holds, in
    reverse, the characters of the piece being read. *)
Fixpoint split_go (sep : list N) (fuel : nat) (cur s : list N) : list (list N) :=
  match fuel with
  | O => [rev cur ++ s]
  | S fuel' =>
      match s with
      | [] => [rev cur]
      | c :: s' =>
          if starts_with sep s
          then rev cur :: split_go sep fuel' [] (drop (length sep) s)
          else split_go sep fuel' (c :: cur) s'
      end
  end.

Definition split (s sep : list N) : list (list N) :=
  split_go sep (length s) [] s.

(** [a] occurs in [s] as a contiguous piece. *)
Definition infix (a s : list N) : Prop := ∃ l r, s = l ++ a ++ r.

(** ** Trimming *)

Lemma trimStart_suffix (s : list N) : ∃ l, s = l ++ trimStart s.
Proof.
  induction s as [|c r [l IH]]; simpl; [by exists []|].
  destruct (is_space c); [|by exists []].
  exists (c :: l). simpl. by rewrite <- IH.
Qed.

Lemma trimEnd_prefix (s : list N) : ∃ r, s = trimEnd s ++ r.
Proof.
  induction s as [|c s [r IH]]; simpl; [by exists []|].
  destruct (trimEnd s) as [|c' s'] eqn:Hend.
  - destruct (is_space c); [by exists (c :: s)|]. exists s. reflexivity.
  - exists r. simpl in *. by rewrite <- IH.
Qed.

Lemma length_trimStart (s : list N) : (length (trimStart s) ≤ length s)%nat.
Proof.
  destruct (trimStart_suffix s) as [l Hl]. rewrite Hl at 2.
  rewrite length_app. lia.
Qed.

Lemma length_trimEnd (s : list N) : (length (trimEnd s) ≤ length s)%nat.
Proof.
  destruct (trimEnd_prefix s) as [r Hr]. rewrite Hr at 2.
  rewrite length_app. lia.
Qed.

Lemma length_trim (s : list N) : (length (trim s) ≤ length s)%nat.
Proof.
  unfold trim. pose proof (length_trimEnd (trimStart s)).
  pose proof (length_trimStart s). lia.
Qed.

Lemma trim_infix (s : list N) : infix (trim s) s.
Proof.
  unfold trim. destruct (trimStart_suffix s) as [l Hl].
  destruct (trimEnd_prefix (trimStart s)) as [r Hr].
  exists l, r. by rewrite <- Hr.
Qed.

Lemma trimStart_app_last (s : list N) (c : N) :
  is_space c = false → trimStart (s ++ [c]) = trimStart s ++ [c].
Proof.
  intros Hc. induction s as [|d s IH]; simpl; [by rewrite Hc|].
  destruct (is_space d); [exact IH | reflexivity].
Qed.

Lemma trimEnd_app_last (s : list N) (c : N) :
  is_space c = false → trimEnd (s ++ [c]) = s ++ [c].
Proof.
  intros Hc. induction s as [|d s IH]; simpl; [by rewrite Hc|].
  rewrite IH. by destruct s.
Qed.

(** A text that ends in a character that is not white space keeps its
    end. *)
Lemma trim_app_last (s : list N) (c : N) :
  is_space c = false → trim (s ++ [c]) = trimStart s ++ [c].
Proof.
  intros Hc. unfold trim. rewrite trimStart_app_last by exact Hc.
  by apply trimEnd_app_last.
Qed.

Lemma trimStart_no_space (s : list N) :
  Forall (λ c, is_space c = false) s → trimStart s = s.
Proof. intros [|c r Hc _]; simpl; [reflexivity | by rewrite Hc]. Qed.

Lemma trimEnd_no_space (s : list N) :
  Forall (λ c, is_space c = false) s → trimEnd s = s.
Proof.
  induction 1 as [|c r Hc _ IH]; simpl; [reflexivity|].
  rewrite IH, Hc. by destruct r.
Qed.

Lemma trim_no_space (s : list N) :
  Forall (λ c, is_space c = false) s → trim s = s.
Proof.
  intros Hs. unfold trim. rewrite trimStart_no_space by exact Hs.
  by apply trimEnd_no_space.
Qed.

Lemma trimEnd_idempotent (s : list N) : trimEnd (trimEnd s) = trimEnd s.
Proof.
  induction s as [|c s IH]; simpl; [reflexivity|].
  destruct (trimEnd s) as [|c' s'] eqn:Hend.
  - destruct (is_space c) eqn:Hc; simpl; [reflexivity | by rewrite Hc].
  - simpl in *. by rewrite IH.
Qed.

Lemma trimStart_idempotent (s : list N) : trimStart (trimStart s) = trimStart s.
Proof.
  induction s as [|c s IH]; simpl; [reflexivity|].
  destruct (is_space c) eqn:Hc; [exact IH | simpl; by rewrite Hc].
Qed.

Lemma trimStart_trimEnd (s : list N) : trimStart (trimEnd s) = trimEnd (trimStart s).
Proof.
  induction s as [|c s IH]; simpl; [reflexivity|].
  destruct (is_space c) eqn:Hc.
  - destruct (trimEnd s) as [|c' s'] eqn:Hend; simpl.
    + by rewrite <- IH.
    + by rewrite Hc.
  - destruct (trimEnd s) as [|c' s'] eqn:Hend; simpl; by rewrite Hc, Hend.
Qed.

Lemma trim_idempotent (s : list N) : trim (trim s) = trim s.
Proof.
  unfold trim. rewrite trimStart_trimEnd, trimStart_idempotent.
  by apply trimEnd_idempotent.
Qed.

(** ** Slices *)

Lemma slice_prefix (s : list N) (e : Z) :
  slice s 0 (Some e) = take (Z.to_nat (relative (Z.of_nat (length s)) e)) s.
Proof.
  unfold slice. replace (relative (Z.of_nat (length s)) 0) with 0
    by (unfold relative; simpl; lia).
  by rewrite Z.sub_0_r.
Qed.

Lemma length_slice_prefix (s : list N) (e : Z) :
  0 <= e → Z.of_nat (length (slice s 0 (Some e))) <= e.
Proof.
  intros He. rewrite slice_prefix, length_take. unfold relative.
  destruct (e <? 0) eqn:Hneg; lia.
Qed.

(** ** Searching *)

Lemma starts_with_single (c : N) (s : list N) :
  starts_with [c] s = true ↔ head s = Some c.
Proof.
  destruct s as [|d s]; simpl; [split; discriminate|].
  rewrite andb_true_r, N.eqb_eq. split; [by intros -> | by intros [= ->]].
Qed.

Lemma head_drop (s : list N) (i : nat) : head (drop i s) = s !! i.
Proof.
  revert i. induction s as [|c s IH]; intros [|i]; simpl; try reflexivity.
  apply IH.
Qed.

(** [c] is at index [i] exactly when the pattern [c] occurs there. *)
Lemma occurs_single (c : N) (s : list N) (i : nat) :
  starts_with [c] (drop i s) = true ↔ s !! i = Some c.
Proof. by rewrite starts_with_single, head_drop. Qed.

Lemma search_last_Some (pat s : list N) (k bound r : nat) :
  search_last pat s k bound = Some r →
  (k ≤ r ≤ bound)%nat ∧ (r - k ≤ length s)%nat
  ∧ starts_with pat (drop (r - k) s) = true.
Proof.
  revert k. induction s as [|c s IH]; intros k; simpl.
  - destruct (k <=? bound)%nat eqn:Hk; simpl; [|discriminate].
    destruct (starts_with pat []) eqn:Hsw; [|discriminate].
    intros [= <-]. apply Nat.leb_le in Hk. rewrite Nat.sub_diag. simpl.
    repeat split; (lia || done).
  - destruct (search_last pat s (S k) bound) as [r'|] eqn:Hrec.
    + intros [= <-]. destruct (IH _ Hrec) as ((Hlo & Hhi) & Hlen & Hsw).
      replace (r' - k)%nat with (S (r' - S k)) by lia. simpl.
      repeat split; (lia || done).
    + destruct (k <=? bound)%nat eqn:Hk; simpl; [|discriminate].
      destruct (starts_with pat (c :: s)) eqn:Hsw; [|discriminate].
      intros [= <-]. apply Nat.leb_le in Hk. rewrite Nat.sub_diag. simpl.
      repeat split; (lia || done).
Qed.

Lemma search_last_None (pat s : list N) (k bound : nat) :
  search_last pat s k bound = None →
  ∀ i, (i ≤ length s)%nat → (k + i ≤ bound)%nat →
       starts_with pat (drop i s) = false.
Proof.
  revert k. induction s as [|c s IH]; intros k; simpl.
  - intros Hnone i Hi Hbound. assert (i = 0%nat) as -> by lia. simpl.
    rewrite (proj2 (Nat.leb_le k bound)) in Hnone by lia. simpl in Hnone.
    by destruct (starts_with pat []).
  - destruct (search_last pat s (S k) bound) as [r'|] eqn:Hrec; [discriminate|].
    intros Hnone [|i] Hi Hbound; simpl.
    + rewrite (proj2 (Nat.leb_le k bound)) in Hnone by lia. simpl in Hnone.
      by destruct (starts_with pat (c :: s)).
    + apply (IH _ Hrec); lia.
Qed.

(** No occurrence lies between the index found and the bound. *)
Lemma search_last_latest (pat s : list N) (k bound r : nat) :
  search_last pat s k bound = Some r →
  ∀ i, (r - k < i ≤ length s)%nat → (k + i ≤ bound)%nat →
       starts_with pat (drop i s) = false.
Proof.
  revert k. induction s as [|c s IH]; intros k; simpl.
  - intros _ i Hi. lia.
  - destruct (search_last pat s (S k) bound) as [r'|] eqn:Hrec.
    + intros [= <-] [|i] Hi Hbound; [lia|]. simpl.
      destruct (search_last_Some _ _ _ _ _ Hrec) as ((Hlo & _) & _).
      apply (IH _ Hrec); lia.
    + intros Hhere [|i] Hi Hbound; simpl.
      * destruct ((k <=? bound)%nat && starts_with pat (c :: s)); [|discriminate].
        injection Hhere as <-. lia.
      * apply (search_last_None _ _ _ _ Hrec); lia.
Qed.

Lemma search_Some (pat s : list N) (k r : nat) :
  search pat s k = Some r →
  (k ≤ r)%nat ∧ (r - k ≤ length s)%nat
  ∧ starts_with pat (drop (r - k) s) = true
  ∧ ∀ i, (i < r - k)%nat → starts_with pat (drop i s) = false.
Proof.
  revert k. induction s as [|c s IH]; intros k; simpl.
  - destruct (starts_with pat []) eqn:Hsw; [|discriminate].
    intros [= <-]. rewrite Nat.sub_diag. simpl. repeat split; (lia || done).
  - destruct (starts_with pat (c :: s)) eqn:Hsw.
    + intros [= <-]. rewrite Nat.sub_diag. simpl. repeat split; (lia || done).
    + intros Hrec. destruct (IH _ Hrec) as (Hlo & Hlen & Hhit & Hfirst).
      replace (r - k)%nat with (S (r - S k)) by lia. simpl.
      repeat split; try (lia || done).
      intros [|i] Hi; simpl; [exact Hsw | apply Hfirst; lia].
Qed.

Lemma search_None (pat s : list N) (k : nat) :
  search pat s k = None →
  ∀ i, (i ≤ length s)%nat → starts_with pat (drop i s) = false.
Proof.
  revert k. induction s as [|c s IH]; intros k; simpl.
  - destruct (starts_with pat []) eqn:Hsw; [discriminate|].
    intros _ i Hi. assert (i = 0%nat) as -> by lia. exact Hsw.
  - destruct (starts_with pat (c :: s)) eqn:Hsw; [discriminate|].
    intros Hrec [|i] Hi; simpl; [exact Hsw | apply (IH _ Hrec); lia].
Qed.

(** The first occurrence is the one found. *)
Lemma search_first (pat s : list N) (k i : nat) :
  starts_with pat (drop i s) = true →
  (∀ j, (j < i)%nat → starts_with pat (drop j s) = false) →
  search pat s k = Some (k + i)%nat.
Proof.
  revert k i. induction s as [|c s IH]; intros k i Hhit Hfirst.
  - rewrite drop_nil in Hhit. simpl. rewrite Hhit.
    destruct i as [|i]; [by rewrite Nat.add_0_r|].
    specialize (Hfirst 0%nat ltac:(lia)). simpl in Hfirst. congruence.
  - destruct i as [|i].
    + simpl in Hhit. simpl. rewrite Hhit. by rewrite Nat.add_0_r.
    + pose proof (Hfirst 0%nat ltac:(lia)) as H0. simpl in H0.
      cbn [search]. rewrite H0.
      rewrite (IH (S k) i); [f_equal; lia | exact Hhit |].
      intros j Hj. apply (Hfirst (S j)). lia.
Qed.

End Text.

(* ===================================================================== *)
(** * Shortening a tweet (post.ts)                                        *)
(* ===================================================================== *)

Module Post.
Import Text.

Definition period : list N := codes ".".
Definition space : list N := codes " ".
Definition ellipsis : list N := codes "...".

(** [truncateToCompleteSentence(text, maxTweetLength)]. *)
Definition truncateToCompleteSentence (text : list N) (maxTweetLength : Z) : list N :=
  if Z.of_nat (length text) <=? maxTweetLength then text
  else
    let lastPeriodIndex := lastIndexOf text period (Some (maxTweetLength - 1)) in
    let truncatedAtPeriod := trim (slice text 0 (Some (lastPeriodIndex + 1))) in
    if negb (lastPeriodIndex =? -1) && (0 <? Z.of_nat (length truncatedAtPeriod))
    then truncatedAtPeriod
    else
      let lastSpaceIndex := lastIndexOf text space (Some (maxTweetLength - 1)) in
      let truncatedAtSpace := trim (slice text 0 (Some lastSpaceIndex)) in
      if negb (lastSpaceIndex =? -1) && (0 <? Z.of_nat (length truncatedAtSpace))
      then truncatedAtSpace ++ ellipsis
      else trim (slice text 0 (Some (maxTweetLength - 3))) ++ ellipsis.

(** [trimTweetLength(text, maxLength)]; its callers leave [maxLength] out and
    get 280. *)
Definition trimTweetLength (text : list N) (maxLength : Z) : list N :=
  if Z.of_nat (length text) <=? maxLength then text
  else
    let lastSentence := lastIndexOf (slice text 0 (Some maxLength)) period None in
    if 0 <? lastSentence
    then trim (slice text 0 (Some (lastSentence + 1)))
    else
      trim (slice text 0 (Some (lastIndexOf text space (Some (maxLength - 3)))))
      ++ ellipsis.

(** ** What [lastIndexOf] returns *)

Lemma lastIndexOf_found (s pat : list N) (p : Z) :
  lastIndexOf s pat (Some p) = -1
  ∨ (0 <= lastIndexOf s pat (Some p) <= Z.max p 0
     ∧ starts_with pat (drop (Z.to_nat (lastIndexOf s pat (Some p))) s) = true).
Proof.
  unfold lastIndexOf.
  destruct (search_last pat s 0 _) as [r|] eqn:Hsearch; simpl; [right | by left].
  destruct (search_last_Some _ _ _ _ _ Hsearch) as ((_ & Hhi) & _ & Hsw).
  rewrite Nat.sub_0_r in Hsw. rewrite Nat2Z.id. split; [lia | exact Hsw].
Qed.

Lemma lastIndexOf_missing (s pat : list N) (p : Z) (i : nat) :
  lastIndexOf s pat (Some p) = -1 →
  Z.of_nat i <= p → (i ≤ length s)%nat →
  starts_with pat (drop i s) = false.
Proof.
  unfold lastIndexOf.
  destruct (search_last pat s 0 _) as [r|] eqn:Hsearch; simpl; [lia|].
  intros _ Hp Hi. apply (search_last_None _ _ _ _ Hsearch); lia.
Qed.

Lemma lastIndexOf_all_found (s pat : list N) :
  lastIndexOf s pat None = -1
  ∨ (0 <= lastIndexOf s pat None <= Z.of_nat (length s)
     ∧ starts_with pat (drop (Z.to_nat (lastIndexOf s pat None)) s) = true).
Proof.
  unfold lastIndexOf.
  destruct (search_last pat s 0 _) as [r|] eqn:Hsearch; simpl; [right | by left].
  destruct (search_last_Some _ _ _ _ _ Hsearch) as ((_ & Hhi) & _ & Hsw).
  rewrite Nat.sub_0_r in Hsw. rewrite Nat2Z.id. split; [lia | exact Hsw].
Qed.

Lemma lastIndexOf_all_missing (s pat : list N) (i : nat) :
  lastIndexOf s pat None = -1 → (i ≤ length s)%nat →
  starts_with pat (drop i s) = false.
Proof.
  unfold lastIndexOf.
  destruct (search_last pat s 0 _) as [r|] eqn:Hsearch; simpl; [lia|].
  intros _ Hi. apply (search_last_None _ _ _ _ Hsearch); lia.
Qed.

(** An occurrence at [i] makes the search from [i] or later succeed. *)
Lemma lastIndexOf_at_least (s pat : list N) (p : Z) (i : nat) :
  starts_with pat (drop i s) = true → Z.of_nat i <= p → (i ≤ length s)%nat →
  Z.of_nat i <= lastIndexOf s pat (Some p).
Proof.
  intros Hsw Hp Hi. unfold lastIndexOf.
  destruct (search_last pat s 0 _) as [r|] eqn:Hsearch; simpl.
  - destruct (decide (i ≤ r)%nat) as [|Hlt]; [lia|].
    rewrite (search_last_latest _ _ _ _ _ Hsearch i) in Hsw; [discriminate|lia|lia].
  - rewrite (search_last_None _ _ _ _ Hsearch i) in Hsw; [discriminate|lia|lia].
Qed.

Lemma lastIndexOf_latest (s pat : list N) (p : Z) (i : nat) :
  lastIndexOf s pat (Some p) < Z.of_nat i → Z.of_nat i <= p → (i ≤ length s)%nat →
  starts_with pat (drop i s) = false.
Proof.
  intros Hlt Hp Hi. destruct (starts_with pat (drop i s)) eqn:Hsw; [|reflexivity].
  pose proof (lastIndexOf_at_least _ _ _ _ Hsw Hp Hi). lia.
Qed.

Lemma lastIndexOf_all_at_least (s pat : list N) (i : nat) :
  starts_with pat (drop i s) = true → (i ≤ length s)%nat →
  Z.of_nat i <= lastIndexOf s pat None.
Proof.
  intros Hsw Hi. unfold lastIndexOf.
  destruct (search_last pat s 0 _) as [r|] eqn:Hsearch; simpl.
  - destruct (decide (i ≤ r)%nat) as [|Hlt]; [lia|].
    rewrite (search_last_latest _ _ _ _ _ Hsearch i) in Hsw; [discriminate|lia|lia].
  - rewrite (search_last_None _ _ _ _ Hsearch i) in Hsw; [discriminate|lia|lia].
Qed.

Lemma length_trim_slice (text : list N) (e : Z) :
  0 <= e → Z.of_nat (length (trim (slice text 0 (Some e)))) <= e.
Proof.
  intros He. pose proof (length_trim (slice text 0 (Some e))).
  pose proof (length_slice_prefix text e He). lia.
Qed.

Lemma slice_take (text : list N) (n : nat) :
  (n ≤ length text)%nat → slice text 0 (Some (Z.of_nat n)) = take n text.
Proof.
  intros Hn. rewrite slice_prefix. unfold relative.
  rewrite (proj2 (Z.ltb_ge _ _)) by lia. f_equal. lia.
Qed.

(** ** [truncateToCompleteSentence] *)

(** The result can be longer than the limit, by at most two characters: a
    cut at a space keeps up to [maxTweetLength - 1] characters and appends
    three dots. *)
Theorem truncate_exceeds_by_at_most_two (text : list N) (maxTweetLength : Z) :
  3 <= maxTweetLength →
  Z.of_nat (length (truncateToCompleteSentence text maxTweetLength))
  <= maxTweetLength + 2.
Proof.
  intros Hmax. unfold truncateToCompleteSentence.
  destruct (Z.of_nat (length text) <=? maxTweetLength) eqn:Hfit;
    [apply Z.leb_le in Hfit; lia|].
  assert (Hdots : length ellipsis = 3%nat) by reflexivity.
  destruct (negb _ && _) eqn:Hperiod.
  - apply andb_true_iff in Hperiod as [Hfound _].
    apply negb_true_iff, Z.eqb_neq in Hfound.
    destruct (lastIndexOf_found text period (maxTweetLength - 1)) as [|[Hrange _]];
      [contradiction|].
    pose proof (length_trim_slice text
                  (lastIndexOf text period (Some (maxTweetLength - 1)) + 1)).
    lia.
  - clear Hperiod. destruct (negb _ && _) eqn:Hspace.
    + apply andb_true_iff in Hspace as [Hfound _].
      apply negb_true_iff, Z.eqb_neq in Hfound.
      destruct (lastIndexOf_found text space (maxTweetLength - 1)) as [|[Hrange _]];
        [contradiction|].
      pose proof (length_trim_slice text
                    (lastIndexOf text space (Some (maxTweetLength - 1)))).
      rewrite length_app, Hdots. lia.
    + pose proof (length_trim_slice text (maxTweetLength - 3)).
      rewrite length_app, Hdots. lia.
Qed.

(** The bound is reached. *)
Example truncate_exceeds_by_two :
  truncateToCompleteSentence (codes "aaaaaaaaa bbbbb") 10 = codes "aaaaaaaaa...".
Proof. vm_compute. reflexivity. Qed.

Lemma truncate_exceeds_by_at_most_two_witness :
  3 <= 10
  ∧ Z.of_nat (length (truncateToCompleteSentence (codes "aaaaaaaaa bbbbb") 10))
    <= 10 + 2.
Proof.
  split; [lia|].
  apply (truncate_exceeds_by_at_most_two (codes "aaaaaaaaa bbbbb") 10). lia.
Defined.

(** A text that is too long and has a period among its first
    [maxTweetLength] characters is cut after the last such period: the
    result ends in that period and fits the limit. *)
Theorem truncate_at_last_period (text : list N) (maxTweetLength : Z) (i : nat) :
  maxTweetLength < Z.of_nat (length text) →
  Z.of_nat i < maxTweetLength →
  text !! i = Some 46%N →
  ∃ p : nat,
    Z.of_nat p < maxTweetLength
    ∧ text !! p = Some 46%N
    ∧ (∀ j, (p < j)%nat → Z.of_nat j < maxTweetLength → text !! j ≠ Some 46%N)
    ∧ truncateToCompleteSentence text maxTweetLength = trim (take (S p) text)
    ∧ last (truncateToCompleteSentence text maxTweetLength) = Some 46%N
    ∧ Z.of_nat (length (truncateToCompleteSentence text maxTweetLength))
      <= maxTweetLength.
Proof.
  intros Hlong Hi Hdot.
  assert (Hhit : starts_with period (drop i text) = true)
    by (by apply (occurs_single 46)).
  pose proof (lastIndexOf_at_least text period (maxTweetLength - 1) i Hhit) as Hge.
  destruct (lastIndexOf_found text period (maxTweetLength - 1)) as [Hnone|[Hrange Hsw]];
    [lia|].
  set (idx := lastIndexOf text period (Some (maxTweetLength - 1))) in *.
  exists (Z.to_nat idx).
  assert (Hp : text !! Z.to_nat idx = Some 46%N) by (by apply (occurs_single 46)).
  assert (Hcut : slice text 0 (Some (idx + 1)) = take (Z.to_nat idx) text ++ [46%N]).
  { replace (idx + 1) with (Z.of_nat (S (Z.to_nat idx))) by lia.
    rewrite slice_take by lia. by apply take_S_r. }
  assert (Hres : truncateToCompleteSentence text maxTweetLength
                 = trim (take (S (Z.to_nat idx)) text)).
  { unfold truncateToCompleteSentence.
    rewrite (proj2 (Z.leb_gt _ _)) by lia. fold idx.
    rewrite Hcut, (take_S_r _ _ _ Hp), trim_app_last by reflexivity.
    rewrite (proj2 (Z.eqb_neq idx (-1))) by lia. simpl negb.
    rewrite length_app; simpl.
    rewrite (proj2 (Z.ltb_lt _ _)) by lia. reflexivity. }
  split; [lia|]. split; [exact Hp|]. split.
  { intros j Hj Hjmax Hjdot.
    apply (occurs_single 46) in Hjdot.
    assert (Hno : starts_with period (drop j text) = false).
    { apply (lastIndexOf_latest text period (maxTweetLength - 1) j);
        [fold idx; lia | lia | lia]. }
    change (starts_with [46%N] (drop j text) = false) in Hno. congruence. }
  split; [exact Hres|]. rewrite Hres, (take_S_r _ _ _ Hp).
  rewrite trim_app_last by reflexivity. split; [apply last_snoc|].
  rewrite length_app; simpl.
  pose proof (length_trimStart (take (Z.to_nat idx) text)).
  rewrite length_take in *. lia.
Qed.

Lemma truncate_at_last_period_witness :
  let text := codes "One. Two. Three four five" in
  ∃ p : nat,
    Z.of_nat p < 12
    ∧ text !! p = Some 46%N
    ∧ (∀ j, (p < j)%nat → Z.of_nat j < 12 → text !! j ≠ Some 46%N)
    ∧ truncateToCompleteSentence text 12 = trim (take (S p) text)
    ∧ last (truncateToCompleteSentence text 12) = Some 46%N
    ∧ Z.of_nat (length (truncateToCompleteSentence text 12)) <= 12.
Proof.
  apply (truncate_at_last_period (codes "One. Two. Three four five") 12 3);
    [simpl; lia | lia | reflexivity].
Defined.

Example truncate_at_last_period_example :
  truncateToCompleteSentence (codes "One. Two. Three four five") 12
  = codes "One. Two.".
Proof. vm_compute. reflexivity. Qed.

(** ** [trimTweetLength] *)

Lemma occurrence_below_length (c : N) (s : list N) (r : Z) :
  0 <= r → starts_with [c] (drop (Z.to_nat r) s) = true →
  r < Z.of_nat (length s).
Proof.
  intros Hr Hsw. apply occurs_single, lookup_lt_Some in Hsw. lia.
Qed.

(** The result fits the limit when the text has a period among its first
    [maxLength] characters, the very first excepted, or a space no later
    than three characters before the limit. *)
Theorem trim_fits_with_period_or_space (text : list N) (maxLength : Z) (i : nat) :
  maxLength < Z.of_nat (length text) →
  ((1 ≤ i)%nat ∧ Z.of_nat i < maxLength ∧ text !! i = Some 46%N)
  ∨ (Z.of_nat i <= maxLength - 3 ∧ text !! i = Some 32%N) →
  Z.of_nat (length (trimTweetLength text maxLength)) <= maxLength.
Proof.
  intros Hlong Hmark. unfold trimTweetLength.
  rewrite (proj2 (Z.leb_gt _ _)) by lia.
  assert (Hmax : 0 <= maxLength) by (destruct Hmark as [(?&?&?)|[? ?]]; lia).
  assert (Hhead : slice text 0 (Some maxLength) = take (Z.to_nat maxLength) text).
  { rewrite <- (Z2Nat.id maxLength) at 1 by lia. apply slice_take. lia. }
  set (head := slice text 0 (Some maxLength)) in *.
  destruct (0 <? lastIndexOf head period None) eqn:Hsentence.
  - apply Z.ltb_lt in Hsentence.
    destruct (lastIndexOf_all_found head period) as [|[Hrange Hsw]]; [lia|].
    apply (occurrence_below_length 46) in Hsw; [|lia].
    assert (Z.of_nat (length head) <= maxLength)
      by (rewrite Hhead, length_take; lia).
    pose proof (length_trim_slice text (lastIndexOf head period None + 1)). lia.
  - apply Z.ltb_ge in Hsentence.
    destruct Hmark as [(Hi1 & Himax & Hdot)|[Hi Hsp]].
    + assert (Hin : head !! i = Some 46%N).
      { rewrite Hhead, lookup_take_lt by lia. exact Hdot. }
      apply (occurs_single 46) in Hin.
      apply lookup_lt_Some in Hdot.
      assert (Hlen : (i ≤ length head)%nat) by (rewrite Hhead, length_take; lia).
      pose proof (lastIndexOf_all_at_least head period i Hin Hlen). lia.
    + assert (Hin : starts_with space (drop i text) = true)
        by (by apply (occurs_single 32)).
      pose proof (lastIndexOf_at_least text space (maxLength - 3) i Hin Hi) as Hge.
      apply lookup_lt_Some in Hsp.
      destruct (lastIndexOf_found text space (maxLength - 3)) as [|[Hrange _]];
        [lia|].
      pose proof (length_trim_slice text
                    (lastIndexOf text space (Some (maxLength - 3)))).
      rewrite length_app. change (length ellipsis) with 3%nat. lia.
Qed.

Lemma trim_fits_with_period_or_space_witness :
  let text := codes "A first sentence. And then more words" in
  20 < Z.of_nat (length text)
  ∧ Z.of_nat (length (trimTweetLength text 20)) <= 20.
Proof.
  split; [simpl; lia|].
  apply (trim_fits_with_period_or_space
           (codes "A first sentence. And then more words") 20 16);
    [simpl; lia|]. left. repeat split; (lia || reflexivity).
Defined.

(** A text that is too long, has no period among its first [maxLength]
    characters (the very first excepted) and no space up to three characters
    before the limit, loses its last character only and gets three dots:
    [lastIndexOf] answers -1 and [slice(0, -1)] keeps all but the last
    character.  Without white space the result is two characters longer
    than the text. *)
Theorem trim_without_period_or_space (text : list N) (maxLength : Z) :
  3 <= maxLength →
  maxLength < Z.of_nat (length text) →
  (∀ i, (1 ≤ i)%nat → Z.of_nat i < maxLength → text !! i ≠ Some 46%N) →
  (∀ i, Z.of_nat i <= maxLength - 3 → text !! i ≠ Some 32%N) →
  trimTweetLength text maxLength
  = trim (take (length text - 1) text) ++ ellipsis
  ∧ (Forall (λ c, is_space c = false) text →
     length (trimTweetLength text maxLength) = (length text + 2)%nat).
Proof.
  intros Hmax Hlong Hdots Hspaces.
  assert (Hhead : slice text 0 (Some maxLength) = take (Z.to_nat maxLength) text).
  { rewrite <- (Z2Nat.id maxLength) at 1 by lia. apply slice_take. lia. }
  assert (Hres : trimTweetLength text maxLength
                 = trim (take (length text - 1) text) ++ ellipsis).
  { unfold trimTweetLength. rewrite (proj2 (Z.leb_gt _ _)) by lia. rewrite Hhead.
    remember (take (Z.to_nat maxLength) text) as head eqn:Hdef.
    assert (Hlen : length head = Z.to_nat maxLength)
      by (subst head; rewrite length_take; lia).
    assert (Hlook : ∀ j, (j < Z.to_nat maxLength)%nat → head !! j = text !! j)
      by (intros j Hj; subst head; by apply lookup_take_lt).
    assert (Hsentence : lastIndexOf head period None <= 0).
    { destruct (lastIndexOf_all_found head period) as [|[Hrange Hsw]]; [lia|].
      destruct (decide (lastIndexOf head period None <= 0)) as [|Hpos]; [done|].
      pose proof (occurrence_below_length 46 _ _ (proj1 Hrange) Hsw) as Hlt.
      apply (occurs_single 46) in Hsw. rewrite Hlook in Hsw by lia.
      exfalso. apply (Hdots (Z.to_nat (lastIndexOf head period None))); (lia || done). }
    rewrite (proj2 (Z.ltb_ge _ _)) by exact Hsentence.
    assert (Hspace : lastIndexOf text space (Some (maxLength - 3)) = -1).
    { destruct (lastIndexOf_found text space (maxLength - 3)) as [|[Hrange Hsw]];
        [done|].
      apply (occurs_single 32) in Hsw.
      exfalso.
      apply (Hspaces (Z.to_nat (lastIndexOf text space (Some (maxLength - 3)))));
        (lia || done). }
    rewrite Hspace, slice_prefix.
    replace (relative (Z.of_nat (length text)) (-1))
      with (Z.of_nat (length text - 1))
      by (unfold relative; change (-1 <? 0) with true; cbv iota; lia).
    by rewrite Nat2Z.id. }
  split; [exact Hres|].
  intros Hplain. rewrite Hres, length_app, trim_no_space by (by apply Forall_take).
  rewrite length_take. change (length ellipsis) with 3%nat. lia.
Qed.

Lemma trim_without_period_or_space_witness :
  let text := codes "abcdefghijkl" in
  trimTweetLength text 10 = trim (take (length text - 1) text) ++ ellipsis
  ∧ (Forall (λ c, is_space c = false) text →
     length (trimTweetLength text 10) = (length text + 2)%nat).
Proof.
  apply (trim_without_period_or_space (codes "abcdefghijkl") 10);
    [lia | simpl; lia | |].
  - intros i _ Hi. assert (Hlt : (i < 10)%nat) by lia. clear Hi.
    do 10 (destruct i as [|i]; [discriminate|]). lia.
  - intros i Hi. assert (Hlt : (i < 8)%nat) by lia. clear Hi.
    do 8 (destruct i as [|i]; [discriminate|]). lia.
Defined.

End Post.

(* ===================================================================== *)
(** * The client base: [extractAnswer]                                     *)
(* ===================================================================== *)

Module Base.
Import Text.

Definition answerTag : list N := codes "Answer: ".
Definition endTag : list N := codes "<|endoftext|>".

(** [extractAnswer(text)]. *)
Definition extractAnswer (text : list N) : list N :=
  let startIndex := indexOf text answerTag 0 + 8 in
  let endIndex := indexOf text endTag 11 in
  slice text startIndex (Some endIndex).

Lemma starts_with_app (pat rest : list N) : starts_with pat (pat ++ rest) = true.
Proof.
  induction pat as [|p pat IH]; simpl; [reflexivity|].
  by rewrite N.eqb_refl, IH.
Qed.

(** [indexOf] answers the first occurrence at or after the position. *)
Lemma indexOf_first (s pat : list N) (position i : nat) :
  (position ≤ i)%nat → (i ≤ length s)%nat →
  starts_with pat (drop i s) = true →
  (∀ j, (position ≤ j < i)%nat → starts_with pat (drop j s) = false) →
  indexOf s pat (Z.of_nat position) = Z.of_nat i.
Proof.
  intros Hpos Hlen Hhit Hfirst. unfold indexOf.
  replace (Z.to_nat (Z.min (Z.max (Z.of_nat position) 0) (Z.of_nat (length s))))
    with position by lia.
  rewrite (search_first pat (drop position s) position (i - position)).
  - simpl. lia.
  - rewrite drop_drop. by replace (position + (i - position))%nat with i by lia.
  - intros j Hj. rewrite drop_drop. apply Hfirst. lia.
Qed.

(** [indexOf] answers -1 when there is no occurrence at or after the
    position. *)
Lemma indexOf_none (s pat : list N) (position : nat) :
  (position ≤ length s)%nat →
  (∀ j, (position ≤ j ≤ length s)%nat → starts_with pat (drop j s) = false) →
  indexOf s pat (Z.of_nat position) = -1.
Proof.
  intros Hpos Hnone. unfold indexOf.
  replace (Z.to_nat (Z.min (Z.max (Z.of_nat position) 0) (Z.of_nat (length s))))
    with position by lia.
  destruct (search pat (drop position s) position) as [r|] eqn:Hsearch;
    [|reflexivity].
  destruct (search_Some _ _ _ _ Hsearch) as (Hlo & Hlen & Hhit & _).
  rewrite drop_drop, length_drop in *.
  rewrite Hnone in Hhit; [discriminate | lia].
Qed.

Lemma slice_range (s : list N) (from to : nat) :
  (from ≤ to ≤ length s)%nat →
  slice s (Z.of_nat from) (Some (Z.of_nat to)) = take (to - from) (drop from s).
Proof.
  intros Hrange. unfold slice, relative.
  rewrite !(proj2 (Z.ltb_ge _ _)) by lia.
  f_equal; [lia | f_equal; lia].
Qed.

(** [s.slice(from, -1)] is [s] from [from] on without its last character. *)
Lemma slice_to_last (s : list N) (from : nat) :
  (from ≤ length s)%nat →
  slice s (Z.of_nat from) (Some (-1)) = take (length s - 1 - from) (drop from s).
Proof.
  intros Hrange. unfold slice, relative. change (-1 <? 0) with true. cbv iota.
  rewrite (proj2 (Z.ltb_ge _ _)) by lia.
  f_equal; [lia | f_equal; lia].
Qed.

(** The answer between the first ["Answer: "] and the first end marker
    found from index 11 on is returned as it is. *)
Theorem extractAnswer_between_tags (pre answer post : list N) :
  let text := pre ++ answerTag ++ answer ++ endTag ++ post in
  (∀ j, (j < length pre)%nat → starts_with answerTag (drop j text) = false) →
  (11 ≤ length pre + 8 + length answer)%nat →
  (∀ j, (11 ≤ j < length pre + 8 + length answer)%nat →
        starts_with endTag (drop j text) = false) →
  extractAnswer text = answer.
Proof.
  intros text Htag Hlong Hend. unfold extractAnswer.
  assert (Hlen : length text = (length pre + 8 + length answer + 13 + length post)%nat).
  { unfold text. rewrite !length_app.
    change (length answerTag) with 8%nat. change (length endTag) with 13%nat. lia. }
  change 0 with (Z.of_nat 0) at 1. change 11 with (Z.of_nat 11).
  rewrite (indexOf_first text answerTag 0 (length pre)); try lia.
  2: { unfold text. rewrite drop_app_length. apply starts_with_app. }
  2: { intros j Hj. apply Htag. lia. }
  rewrite (indexOf_first text endTag 11 (length pre + 8 + length answer)); try lia.
  2: { unfold text.
       replace (pre ++ answerTag ++ answer ++ endTag ++ post)
         with ((pre ++ answerTag ++ answer) ++ endTag ++ post)
         by (by rewrite <- !app_assoc).
       replace (length pre + 8 + length answer)%nat
         with (length (pre ++ answerTag ++ answer))
         by (rewrite !length_app; change (length answerTag) with 8%nat; lia).
       rewrite drop_app_length. apply starts_with_app. }
  2: { exact Hend. }
  replace (Z.of_nat (length pre) + 8) with (Z.of_nat (length pre + 8)) by lia.
  rewrite slice_range by lia.
  replace (length pre + 8 + length answer - (length pre + 8))%nat
    with (length answer) by lia.
  replace (length pre + 8)%nat with (length (pre ++ answerTag))
    by (rewrite length_app; change (length answerTag) with 8%nat; lia).
  unfold text.
  replace (pre ++ answerTag ++ answer ++ endTag ++ post)
    with ((pre ++ answerTag) ++ answer ++ endTag ++ post)
    by (by rewrite <- !app_assoc).
  rewrite drop_app_length. apply take_app_length.
Qed.

Lemma extractAnswer_between_tags_witness :
  extractAnswer (codes "Q: why? Answer: because<|endoftext|> and more")
  = codes "because".
Proof.
  apply (extractAnswer_between_tags (codes "Q: why? ") (codes "because")
           (codes " and more")).
  - intros j Hj. assert (Hlt : (j < 8)%nat) by exact Hj. clear Hj.
    do 8 (destruct j as [|j]; [reflexivity|]). lia.
  - simpl. lia.
  - intros j [Hlo Hhi]. assert (Hlt : (j < 23)%nat) by exact Hhi. clear Hhi.
    do 23 (destruct j as [|j]; [reflexivity || lia|]). lia.
Defined.

(** Without an end marker from index 11 on, [indexOf] answers -1 and
    [slice(start, -1)] drops the last character of the answer. *)
Theorem extractAnswer_without_end_tag (pre answer : list N) :
  let text := pre ++ answerTag ++ answer in
  (∀ j, (j < length pre)%nat → starts_with answerTag (drop j text) = false) →
  (11 ≤ length text)%nat →
  (∀ j, (11 ≤ j ≤ length text)%nat → starts_with endTag (drop j text) = false) →
  extractAnswer text = take (length answer - 1) answer.
Proof.
  intros text Htag Hlong Hend. unfold extractAnswer.
  assert (Hlen : length text = (length pre + 8 + length answer)%nat).
  { unfold text. rewrite !length_app. change (length answerTag) with 8%nat. lia. }
  change 0 with (Z.of_nat 0) at 1. change 11 with (Z.of_nat 11).
  rewrite (indexOf_first text answerTag 0 (length pre)); try lia.
  2: { unfold text. rewrite drop_app_length. apply starts_with_app. }
  2: { intros j Hj. apply Htag. lia. }
  rewrite (indexOf_none text endTag 11) by (exact Hlong || exact Hend).
  replace (Z.of_nat (length pre) + 8) with (Z.of_nat (length pre + 8)) by lia.
  rewrite slice_to_last by lia.
  replace (length text - 1 - (length pre + 8))%nat with (length answer - 1)%nat by lia.
  replace (length pre + 8)%nat with (length (pre ++ answerTag))
    by (rewrite length_app; change (length answerTag) with 8%nat; lia).
  unfold text. rewrite app_assoc, drop_app_length. reflexivity.
Qed.

Lemma extractAnswer_without_end_tag_witness :
  extractAnswer (codes "Answer: forty-two") = codes "forty-tw".
Proof.
  apply (extractAnswer_without_end_tag [] (codes "forty-two")).
  - intros j Hj. simpl in Hj. lia.
  - simpl. lia.
  - intros j [Hlo Hhi]. assert (Hlt : (j < 18)%nat) by (simpl in Hhi; lia).
    clear Hhi.
    do 18 (destruct j as [|j]; [reflexivity || lia|]). lia.
Defined.

End Base.

(* ===================================================================== *)
(** * Splitting a long text into tweets (client-twitter/utils.ts)         *)
(* ===================================================================== *)

Module TweetSplit.
Import Text.

Definition space : list N := codes " ".
Definition blankLine : list N := [10; 10]%N.

(** The characters of the class [[\.!\?]]. *)
Definition is_terminator (c : N) : bool := bool_decide (c ∈ [46; 33; 63]%N).

(** The matches of [/[^\.!\?]+[\.!\?]+|[^\.!\?]+$/g], from left to right:
    [cur] is the match being read and [closing] tells that its terminators
    have begun.  A match starts at a character that is no terminator, takes
    all characters up to the next terminator and then all terminators that
    follow; at the end of the text it may have no terminator. *)
Fixpoint match_sentences (cur : list N) (closing : bool) (s : list N)
    : list (list N) :=
  match s with
  | [] => match cur with [] => [] | _ => [cur] end
  | c :: s' =>
      if is_terminator c then
        match cur with
        | [] => match_sentences [] false s'
        | _ => match_sentences (cur ++ [c]) true s'
        end
      else if closing then cur :: match_sentences [c] false s'
      else match_sentences (cur ++ [c]) false s'
  end.

(** [paragraph.match(...) || [paragraph]]. *)
Definition sentences (paragraph : list N) : list (list N) :=
  match match_sentences [] false paragraph with
  | [] => [paragraph]
  | found => found
  end.

(** [(current + sep + piece).trim().length <= maxLength]. *)
Definition fits (maxLength : Z) (current sep piece : list N) : bool :=
  Z.of_nat (length (trim (current ++ sep ++ piece))) <=? maxLength.

(** [if (current) current += sep + piece; else current = piece]. *)
Definition extend (current sep piece : list N) : list N :=
  match current with [] => piece | _ => current ++ sep ++ piece end.

(** [if (current) chunks.push(current.trim())]. *)
Definition push (chunks : list (list N)) (current : list N) : list (list N) :=
  match current with [] => chunks | _ => chunks ++ [trim current] end.

(** The body of the loop over the words of a long sentence. *)
Definition add_word (maxLength : Z) (st : list (list N) * list N) (word : list N)
    : list (list N) * list N :=
  let '(chunks, currentChunk) := st in
  if fits maxLength currentChunk space word
  then (chunks, extend currentChunk space word)
  else (push chunks currentChunk, word).

(** The body of the loop over the sentences. *)
Definition add_sentence (maxLength : Z) (st : list (list N) * list N)
    (sentence : list N) : list (list N) * list N :=
  let '(chunks, currentChunk) := st in
  if fits maxLength currentChunk space sentence
  then (chunks, extend currentChunk space sentence)
  else
    let chunks' := push chunks currentChunk in
    if Z.of_nat (length sentence) <=? maxLength then (chunks', sentence)
    else fold_left (add_word maxLength) (split sentence space) (chunks', []).

Definition splitParagraph (paragraph : list N) (maxLength : Z) : list (list N) :=
  let '(chunks, currentChunk) :=
    fold_left (add_sentence maxLength) (sentences paragraph) ([], []) in
  push chunks currentChunk.

(** [currentTweet] is a string, or [undefined] after [chunks[chunks.length - 1]]
    of an empty array. *)
Definition js_string (o : option (list N)) : list N :=
  match o with Some s => s | None => codes "undefined" end.

Definition truthy (o : option (list N)) : bool :=
  match o with Some (_ :: _) => true | _ => false end.

(** The body of the loop over the paragraphs. *)
Definition add_paragraph (maxLength : Z) (st : list (list N) * option (list N))
    (paragraph : list N) : list (list N) * option (list N) :=
  let '(tweets, currentTweet) := st in
  match paragraph with
  | [] => st
  | _ =>
      if fits maxLength (js_string currentTweet) blankLine paragraph
      then (tweets,
            Some (if truthy currentTweet
                  then js_string currentTweet ++ blankLine ++ paragraph
                  else paragraph))
      else
        let tweets' :=
          if truthy currentTweet then tweets ++ [trim (js_string currentTweet)]
          else tweets in
        if Z.of_nat (length paragraph) <=? maxLength then (tweets', Some paragraph)
        else
          let chunks := splitParagraph paragraph maxLength in
          (tweets' ++ removelast chunks, last chunks)
  end.

Definition splitTweetContent (content : list N) (maxLength : Z) : list (list N) :=
  let paragraphs := trim <$> split content blankLine in
  let '(tweets, currentTweet) :=
    fold_left (add_paragraph maxLength) paragraphs ([], Some []) in
  if truthy currentTweet then tweets ++ [trim (js_string currentTweet)] else tweets.

(** ** Pieces of a text *)

Lemma infix_refl (s : list N) : infix s s.
Proof. exists [], []. by rewrite app_nil_r. Qed.

Lemma infix_trans (a b c : list N) : infix a b → infix b c → infix a c.
Proof.
  intros (l1 & r1 & ->) (l2 & r2 & ->). exists (l2 ++ l1), (r1 ++ r2).
  by rewrite <- !app_assoc.
Qed.

Lemma infix_app_r (a l s : list N) : infix a s → infix a (l ++ s).
Proof. intros (l1 & r1 & ->). exists (l ++ l1), r1. by rewrite <- !app_assoc. Qed.

Lemma infix_app_l (a s r : list N) : infix a s → infix a (s ++ r).
Proof. intros (l1 & r1 & ->). exists l1, (r1 ++ r). by rewrite <- !app_assoc. Qed.

Lemma split_go_infix (sep : list N) (fuel : nat) (cur s : list N) :
  Forall (λ x, infix x (rev cur ++ s)) (split_go sep fuel cur s).
Proof.
  revert cur s. induction fuel as [|fuel IH]; intros cur s; simpl.
  { constructor; [apply infix_refl | constructor]. }
  destruct s as [|c s'].
  { constructor; [|constructor]. rewrite app_nil_r. apply infix_refl. }
  destruct (starts_with sep (c :: s')).
  - constructor.
    + exists [], (c :: s'). reflexivity.
    + eapply Forall_impl; [apply IH|]. intros x Hx. simpl in Hx.
      apply infix_app_r.
      rewrite <- (take_drop (length sep) (c :: s')). by apply infix_app_r.
  - eapply Forall_impl; [apply IH|]. intros x Hx. simpl in Hx.
    by rewrite <- app_assoc in Hx.
Qed.

(** Every piece of [s.split(sep)] is a piece of [s]. *)
Lemma split_infix (s sep : list N) : Forall (λ x, infix x s) (split s sep).
Proof. apply (split_go_infix sep (length s) [] s). Qed.

Lemma elem_of_rev (c : N) (l : list N) : c ∈ rev l ↔ c ∈ l.
Proof. rewrite !list_elem_of_In. symmetry. apply in_rev. Qed.

Lemma split_go_free (c : N) (fuel : nat) (cur s : list N) :
  (length s ≤ fuel)%nat → c ∉ cur →
  Forall (λ x, c ∉ x) (split_go [c] fuel cur s).
Proof.
  revert cur s. induction fuel as [|fuel IH]; intros cur s Hfuel Hcur; simpl.
  { destruct s; [|simpl in Hfuel; lia]. constructor; [|constructor].
    rewrite app_nil_r, elem_of_rev. exact Hcur. }
  destruct s as [|d s'].
  { constructor; [|constructor]. by rewrite elem_of_rev. }
  destruct (N.eqb_spec c d) as [->|Hne]; simpl.
  - constructor; [by rewrite elem_of_rev|].
    apply IH; [simpl in *; rewrite drop_0; lia | apply not_elem_of_nil].
  - apply IH; [simpl in Hfuel; lia|].
    intros [->|Hin]%elem_of_cons; contradiction.
Qed.

(** No piece of [s.split(c)], for a single character [c], contains [c]. *)
Lemma split_free (s : list N) (c : N) : Forall (λ x, c ∉ x) (split s [c]).
Proof. apply split_go_free; [lia | apply not_elem_of_nil]. Qed.

Lemma match_sentences_infix (cur : list N) (closing : bool) (s : list N) :
  Forall (λ x, infix x (cur ++ s)) (match_sentences cur closing s).
Proof.
  revert cur closing. induction s as [|c s IH]; intros cur closing; simpl.
  { destruct cur; constructor; [|constructor].
    rewrite app_nil_r. apply infix_refl. }
  destruct (is_terminator c).
  - destruct cur as [|d cur].
    + eapply Forall_impl; [apply IH|]. intros x Hx.
      by apply (infix_app_r x [c]).
    + eapply Forall_impl; [apply IH|]. intros x Hx.
      by rewrite <- app_assoc in Hx.
  - destruct closing.
    + constructor.
      * exists [], (c :: s). reflexivity.
      * eapply Forall_impl; [apply IH|]. intros x Hx. by apply infix_app_r.
    + eapply Forall_impl; [apply IH|]. intros x Hx.
      by rewrite <- app_assoc in Hx.
Qed.

(** Every sentence is a piece of the paragraph. *)
Lemma sentences_infix (paragraph : list N) :
  Forall (λ x, infix x paragraph) (sentences paragraph).
Proof.
  unfold sentences. pose proof (match_sentences_infix [] false paragraph) as H.
  destruct (match_sentences [] false paragraph).
  - constructor; [apply infix_refl | constructor].
  - exact H.
Qed.

(** ** Trimming a text with something in front *)

Lemma trimEnd_app (a p : list N) :
  trimEnd p ≠ [] → trimEnd (a ++ p) = a ++ trimEnd p.
Proof.
  intros Hp. induction a as [|c a IH]; simpl; [reflexivity|].
  rewrite IH. destruct (a ++ trimEnd p) eqn:Happ; [|reflexivity].
  apply app_eq_nil in Happ as [_ ?]. contradiction.
Qed.

Lemma length_trimStart_app (a q : list N) :
  (length (trimStart q) ≤ length (trimStart (a ++ q)))%nat.
Proof.
  induction a as [|c a IH]; simpl; [lia|].
  destruct (is_space c); [exact IH|]. simpl. rewrite length_app.
  pose proof (length_trimStart q). lia.
Qed.

Lemma length_trim_app_r (a p : list N) :
  (length (trim p) ≤ length (trim (a ++ p)))%nat.
Proof.
  unfold trim. rewrite <- !trimStart_trimEnd.
  destruct (trimEnd p) as [|c r] eqn:Hend; [simpl; lia|].
  rewrite trimEnd_app by (rewrite Hend; discriminate). rewrite Hend.
  apply length_trimStart_app.
Qed.

(** ** The length of the chunks *)

Section Bound.

Variable maxLength : Z.

Definition bounded (x : list N) : Prop := Z.of_nat (length x) <= maxLength.

(** No run of characters without a space is longer than the limit. *)
Definition words_fit (text : list N) : Prop :=
  ∀ w, infix w text → 32%N ∉ w → bounded w.

Lemma words_fit_infix (p text : list N) :
  infix p text → words_fit text → words_fit p.
Proof. intros Hp Htext w Hw. apply Htext. by eapply infix_trans. Qed.

Lemma bounded_trim (x : list N) : bounded x → bounded (trim x).
Proof. unfold bounded. pose proof (length_trim x). lia. Qed.

Lemma fold_left_invariant {A B} (f : A → B → A) (I : A → Prop) (P : B → Prop)
    (l : list B) (a : A) :
  (∀ a b, P b → I a → I (f a b)) → Forall P l → I a → I (fold_left f l a).
Proof.
  intros Hstep Hl. revert a. induction Hl as [|b l Hb _ IH]; intros a Ha; simpl.
  - exact Ha.
  - apply IH, Hstep; assumption.
Qed.

(** The chunks pushed so far fit, and so does the current one once
    trimmed. *)
Definition chunks_fit (st : list (list N) * list N) : Prop :=
  Forall bounded st.1 ∧ (st.2 ≠ [] → bounded (trim st.2)).

Lemma push_fit (chunks : list (list N)) (current : list N) :
  chunks_fit (chunks, current) → Forall bounded (push chunks current).
Proof.
  intros [Hchunks Hcur]; simpl in *. unfold push.
  destruct current; [exact Hchunks|].
  apply Forall_app. split; [exact Hchunks|]. constructor; [|constructor].
  by apply Hcur.
Qed.

Lemma extend_fit (current sep piece : list N) :
  fits maxLength current sep piece = true →
  bounded (trim (extend current sep piece)).
Proof.
  unfold fits, bounded, extend. intros Hfit%Z.leb_le.
  destruct current as [|c current]; [|exact Hfit].
  pose proof (length_trim_app_r ([] ++ sep) piece) as Hle.
  rewrite <- app_assoc in Hle. lia.
Qed.

Lemma add_word_fit (st : list (list N) * list N) (word : list N) :
  bounded word → chunks_fit st → chunks_fit (add_word maxLength st word).
Proof.
  destruct st as [chunks current]. intros Hword Hst. unfold add_word.
  destruct (fits maxLength current space word) eqn:Hfit.
  - split; simpl; [apply Hst|]. intros _. by apply extend_fit.
  - split; simpl; [by apply push_fit|]. intros _. by apply bounded_trim.
Qed.

Lemma add_sentence_fit (st : list (list N) * list N) (sentence : list N) :
  Forall bounded (split sentence space) →
  chunks_fit st → chunks_fit (add_sentence maxLength st sentence).
Proof.
  destruct st as [chunks current]. intros Hwords Hst. unfold add_sentence.
  destruct (fits maxLength current space sentence) eqn:Hfit.
  - split; simpl; [apply Hst|]. intros _. by apply extend_fit.
  - destruct (Z.of_nat (length sentence) <=? maxLength) eqn:Hshort.
    + split; simpl; [by apply push_fit|]. intros _.
      apply bounded_trim. by apply Z.leb_le.
    + apply (fold_left_invariant _ chunks_fit bounded); [|exact Hwords|].
      * intros a b Hb Ha. by apply add_word_fit.
      * split; simpl; [by apply push_fit | done].
Qed.

Lemma splitParagraph_fit (paragraph : list N) :
  words_fit paragraph → Forall bounded (splitParagraph paragraph maxLength).
Proof.
  intros Hwords. unfold splitParagraph.
  assert (Hst : chunks_fit
                  (fold_left (add_sentence maxLength) (sentences paragraph) ([], []))).
  { apply (fold_left_invariant _ chunks_fit
             (λ sentence, Forall bounded (split sentence space))).
    - intros a b Hb Ha. by apply add_sentence_fit.
    - eapply Forall_impl; [apply sentences_infix|]. intros sentence Hsentence.
      pose proof (split_infix sentence space) as Hpieces.
      pose proof (split_free sentence 32) as Hfree.
      change [32%N] with space in Hfree.
      rewrite Forall_forall in Hpieces, Hfree. apply Forall_forall.
      intros w Hw. apply Hwords; [|by apply Hfree].
      eapply infix_trans; [by apply Hpieces | exact Hsentence].
    - split; simpl; [constructor | done]. }
  destruct (fold_left _ _ _) as [chunks current]. by apply push_fit.
Qed.

(** The tweets pushed so far fit, and so does the current one once
    trimmed. *)
Definition tweets_fit (st : list (list N) * option (list N)) : Prop :=
  Forall bounded st.1 ∧ (truthy st.2 = true → bounded (trim (js_string st.2))).

Lemma add_paragraph_fit (st : list (list N) * option (list N)) (paragraph : list N) :
  words_fit paragraph → tweets_fit st →
  tweets_fit (add_paragraph maxLength st paragraph).
Proof.
  destruct st as [tweets currentTweet]. intros Hwords [Htweets Hcur].
  simpl in Htweets, Hcur. unfold add_paragraph.
  destruct paragraph as [|c paragraph]; [by split|].
  set (p := c :: paragraph) in *.
  destruct (fits maxLength (js_string currentTweet) blankLine p) eqn:Hfit.
  - split; simpl; [exact Htweets|]. intros _.
    destruct (truthy currentTweet).
    + unfold fits in Hfit. by apply Z.leb_le in Hfit.
    + unfold fits in Hfit. apply Z.leb_le in Hfit. unfold bounded.
      pose proof (length_trim_app_r (js_string currentTweet ++ blankLine) p) as Hle.
      rewrite <- app_assoc in Hle. lia.
  - assert (Hpushed : Forall bounded
                        (if truthy currentTweet
                         then tweets ++ [trim (js_string currentTweet)]
                         else tweets)).
    { destruct (truthy currentTweet); [|exact Htweets].
      apply Forall_app. split; [exact Htweets|]. constructor; [|constructor].
      by apply Hcur. }
    destruct (Z.of_nat (length p) <=? maxLength) eqn:Hshort.
    + split; simpl; [exact Hpushed|]. intros _.
      apply bounded_trim. by apply Z.leb_le.
    + pose proof (splitParagraph_fit p Hwords) as Hchunks.
      split; simpl.
      * apply Forall_app. split; [exact Hpushed|].
        rewrite Forall_forall in *. intros x Hx. apply Hchunks.
        apply list_elem_of_In. apply list_elem_of_In in Hx.
        clear -Hx. induction (splitParagraph p maxLength) as [|y [|z l] IH];
          simpl in *; try tauto.
      * destruct (last (splitParagraph p maxLength)) as [x|] eqn:Hlast;
          simpl; [|discriminate].
        intros _. apply bounded_trim.
        rewrite Forall_forall in Hchunks. apply Hchunks.
        apply last_Some in Hlast as [l ->]. apply elem_of_app. right.
        by apply list_elem_of_singleton.
Qed.

Lemma splitTweetContent_fit (content : list N) :
  words_fit content → Forall bounded (splitTweetContent content maxLength).
Proof.
  intros Hwords. unfold splitTweetContent.
  assert (Hst : tweets_fit
                  (fold_left (add_paragraph maxLength)
                     (trim <$> split content blankLine) ([], Some []))).
  { apply (fold_left_invariant _ tweets_fit words_fit).
    - intros a b Hb Ha. by apply add_paragraph_fit.
    - apply Forall_fmap. eapply Forall_impl; [apply split_infix|].
      intros piece Hpiece. simpl.
      apply (words_fit_infix _ content); [|exact Hwords].
      eapply infix_trans; [apply trim_infix | exact Hpiece].
    - split; simpl; [constructor | discriminate]. }
  destruct (fold_left _ _ _) as [tweets currentTweet].
  destruct Hst as [Htweets Hcur]; simpl in *.
  destruct (truthy currentTweet); [|exact Htweets].
  apply Forall_app. split; [exact Htweets|]. constructor; [|constructor].
  by apply Hcur.
Qed.

(** A piece without [c] of a text lies on one side of an occurrence of
    [c]. *)
Lemma infix_beside (w a b : list N) (c : N) :
  infix w (a ++ c :: b) → c ∉ w → infix w a ∨ infix w b.
Proof.
  intros (l & r & Heq) Hfree. symmetry in Heq.
  apply app_eq_app in Heq as [k [[-> Hrest]|[-> Hrest]]].
  - destruct k as [|d k]; simpl in Hrest.
    + destruct w as [|d w]; [left; exists a, []; by rewrite app_nil_r|].
      injection Hrest as <- _. exfalso. apply Hfree. by left.
    + injection Hrest as _ ->. right. by exists k, r.
  - apply app_eq_app in Hrest as [k2 [[-> Hrest]|[-> Hrest]]].
    + destruct k2 as [|d k2]; simpl in Hrest.
      * left. exists l, []. by rewrite !app_nil_r.
      * injection Hrest as <- _. exfalso. apply Hfree.
        apply elem_of_app. right. by left.
    + left. by exists l, k2.
Qed.

Lemma split_go_covers (c : N) (fuel : nat) (cur s w : list N) :
  (length s ≤ fuel)%nat → infix w (rev cur ++ s) → c ∉ w →
  Exists (infix w) (split_go [c] fuel cur s).
Proof.
  revert cur s. induction fuel as [|fuel IH]; intros cur s Hfuel Hw Hfree; simpl.
  { by constructor. }
  destruct s as [|d s'].
  { constructor. by rewrite app_nil_r in Hw. }
  destruct (N.eqb_spec c d) as [<-|Hne]; simpl.
  - destruct (infix_beside _ _ _ _ Hw Hfree) as [Hleft|Hright].
    + by constructor.
    + apply Exists_cons_tl. rewrite drop_0.
      apply IH; [simpl in Hfuel; lia | exact Hright | exact Hfree].
  - apply IH; [simpl in Hfuel; lia | | exact Hfree].
    simpl. by rewrite <- app_assoc.
Qed.

(** When the words of a text, its pieces between spaces, fit the limit,
    so does every run of characters without a space. *)
Lemma words_fit_split (text : list N) :
  Forall bounded (split text space) → words_fit text.
Proof.
  intros Hpieces w Hw Hfree.
  pose proof (split_go_covers 32 (length text) [] text w (Nat.le_refl _) Hw Hfree)
    as Hcover.
  apply Exists_exists in Hcover as (piece & Hin & l & r & ->).
  rewrite Forall_forall in Hpieces. specialize (Hpieces _ Hin).
  unfold bounded in *. rewrite !length_app in Hpieces. lia.
Qed.

(** Every tweet that [splitTweetContent] returns fits the limit, provided
    that every word of the content, a piece of it between two spaces, fits
    the limit. *)
Theorem tweets_fit_the_limit (content : list N) :
  Forall bounded (split content space) →
  Forall bounded (splitTweetContent content maxLength).
Proof. intros Hwords. by apply splitTweetContent_fit, words_fit_split. Qed.

End Bound.

(** ** The shape of the chunks *)

Definition trimmed (x : list N) : Prop := trim x = x.

Lemma push_trimmed (chunks : list (list N)) (current : list N) :
  Forall trimmed chunks → Forall trimmed (push chunks current).
Proof.
  intros Hchunks. unfold push. destruct current; [exact Hchunks|].
  apply Forall_app. split; [exact Hchunks|]. constructor; [|constructor].
  apply trim_idempotent.
Qed.

Lemma add_word_trimmed (maxLength : Z) (st : list (list N) * list N)
    (word : list N) :
  Forall trimmed st.1 → Forall trimmed (add_word maxLength st word).1.
Proof.
  destruct st as [chunks current]; simpl. intros Hchunks.
  destruct (fits maxLength current space word); simpl;
    [exact Hchunks | by apply push_trimmed].
Qed.

Lemma fold_left_preserves {A B} (f : A → B → A) (I : A → Prop) (l : list B) (a : A) :
  (∀ a b, I a → I (f a b)) → I a → I (fold_left f l a).
Proof.
  intros Hstep. revert a. induction l as [|b l IH]; intros a Ha; simpl; auto.
Qed.

Lemma add_sentence_trimmed (maxLength : Z) (st : list (list N) * list N)
    (sentence : list N) :
  Forall trimmed st.1 → Forall trimmed (add_sentence maxLength st sentence).1.
Proof.
  destruct st as [chunks current]; simpl. intros Hchunks.
  destruct (fits maxLength current space sentence); simpl; [exact Hchunks|].
  destruct (Z.of_nat (length sentence) <=? maxLength); simpl;
    [by apply push_trimmed|].
  apply (fold_left_preserves _ (λ st, Forall trimmed st.1)).
  - intros a b. apply add_word_trimmed.
  - simpl. by apply push_trimmed.
Qed.

Lemma splitParagraph_trimmed (paragraph : list N) (maxLength : Z) :
  Forall trimmed (splitParagraph paragraph maxLength).
Proof.
  unfold splitParagraph.
  assert (Hst : Forall trimmed
                  (fold_left (add_sentence maxLength) (sentences paragraph)
                     ([], [])).1).
  { apply (fold_left_preserves _ (λ st, Forall trimmed st.1)).
    - intros a b. apply add_sentence_trimmed.
    - constructor. }
  destruct (fold_left _ _ _) as [chunks current]. by apply push_trimmed.
Qed.

Lemma removelast_elem_of (x : list N) (l : list (list N)) :
  x ∈ removelast l → x ∈ l.
Proof.
  induction l as [|y [|z l] IH]; simpl; [done| |].
  - intros []%elem_of_nil.
  - intros [->|Hin]%elem_of_cons; [by left | right; by apply IH].
Qed.

(** The tweets pushed so far are trimmed, and so is the current one when
    it comes out of [splitParagraph]. *)
Definition tweets_trimmed (st : list (list N) * option (list N)) : Prop :=
  Forall trimmed st.1.

Lemma add_paragraph_trimmed (maxLength : Z)
    (st : list (list N) * option (list N)) (paragraph : list N) :
  tweets_trimmed st → tweets_trimmed (add_paragraph maxLength st paragraph).
Proof.
  destruct st as [tweets currentTweet]. unfold tweets_trimmed; cbn [fst].
  intros Htweets. unfold add_paragraph.
  destruct paragraph as [|c paragraph]; [exact Htweets|].
  set (p := c :: paragraph).
  destruct (fits maxLength (js_string currentTweet) blankLine p);
    [exact Htweets|].
  assert (Hpushed : Forall trimmed
                      (if truthy currentTweet
                       then tweets ++ [trim (js_string currentTweet)]
                       else tweets)).
  { destruct (truthy currentTweet); [|exact Htweets].
    apply Forall_app. split; [exact Htweets|]. constructor; [|constructor].
    apply trim_idempotent. }
  destruct (Z.of_nat (length p) <=? maxLength); [exact Hpushed|].
  cbn [fst]. apply Forall_app. split; [exact Hpushed|].
  pose proof (splitParagraph_trimmed p maxLength) as Hchunks.
  rewrite Forall_forall in *. intros x Hx. by apply Hchunks, removelast_elem_of.
Qed.

Lemma splitTweetContent_trimmed (content : list N) (maxLength : Z) :
  Forall trimmed (splitTweetContent content maxLength).
Proof.
  unfold splitTweetContent.
  assert (Hst : tweets_trimmed
                  (fold_left (add_paragraph maxLength)
                     (trim <$> split content blankLine) ([], Some []))).
  { apply (fold_left_preserves _ tweets_trimmed).
    - intros a b. apply add_paragraph_trimmed.
    - constructor. }
  destruct (fold_left _ _ _) as [tweets currentTweet].
  unfold tweets_trimmed in Hst; simpl in Hst.
  destruct (truthy currentTweet); [|exact Hst].
  apply Forall_app. split; [exact Hst|]. constructor; [|constructor].
  apply trim_idempotent.
Qed.

(** No tweet that [splitTweetContent] returns begins or ends with white
    space, whatever the content and the limit. *)
Theorem tweets_are_trimmed (content : list N) (maxLength : Z) :
  Forall trimmed (splitTweetContent content maxLength).
Proof. apply splitTweetContent_trimmed. Qed.

(** A word longer than the limit is kept whole. *)
Example long_word_is_not_cut :
  splitParagraph (codes "A supercalifragilistic word") 12
  = [codes "A"; codes "supercalifragilistic"; codes "word"].
Proof. vm_compute. reflexivity. Qed.

Definition thread_text : list N :=
  codes "Hi there. How are you?! fine thanks. And" ++ blankLine ++ codes "more.".

Example thread_text_split :
  splitTweetContent thread_text 12
  = [codes "Hi there."; codes "How are"; codes "you?!"; codes "fine thanks.";
     codes "And" ++ blankLine ++ codes "more."].
Proof. vm_compute. reflexivity. Qed.

Example thread_text_words :
  split thread_text space
  = [codes "Hi"; codes "there."; codes "How"; codes "are"; codes "you?!";
     codes "fine"; codes "thanks."; codes "And" ++ blankLine ++ codes "more."].
Proof. vm_compute. reflexivity. Qed.

Lemma tweets_fit_the_limit_witness :
  Forall (bounded 12) (split thread_text space)
  ∧ Forall (bounded 12) (splitTweetContent thread_text 12).
Proof.
  assert (Hwords : Forall (bounded 12) (split thread_text space)).
  { rewrite thread_text_words. unfold bounded.
    repeat (apply Forall_cons; split; [vm_compute; discriminate|]).
    apply Forall_nil_2. }
  split; [exact Hwords | exact (tweets_fit_the_limit 12 thread_text Hwords)].
Defined.

End TweetSplit.

(* ===================================================================== *)
(** * Filtering spam ([isValidTweet]) and the list of target users        *)
(* ===================================================================== *)

Module Filters.
Import Text.

(** [(text.match(/c/g) || []).length] for a character [c]. *)
Definition count (c : N) (text : list N) : nat :=
  length (List.filter (N.eqb c) text).

(** [isValidTweet(tweet)], on [tweet.text]; [None] is a text that is
    [undefined], for which [tweet.text?.match] gives no match. *)
Definition isValidTweet (text : option (list N)) : bool :=
  let hashtagCount := count 35 (default [] text) in
  let atCount := count 64 (default [] text) in
  let dollarSignCount := count 36 (default [] text) in
  let totalCount := (hashtagCount + atCount + dollarSignCount)%nat in
  (hashtagCount <=? 1)%nat && (atCount <=? 2)%nat && (dollarSignCount <=? 1)%nat
  && (totalCount <=? 3)%nat.

(** [parseTargetUsers(targetUsersStr)] of environment.ts; [None] is
    [undefined] or [null]. *)
Definition parseTargetUsers (targetUsersStr : option (list N)) : list (list N) :=
  match targetUsersStr with
  | None => []
  | Some str =>
      match trim str with
      | [] => []
      | _ =>
          List.filter (λ user, negb (bool_decide (user = [])))
            (trim <$> split str (codes ","))
      end
  end.

Lemma count_app (c : N) (x y : list N) : count c (x ++ y) = (count c x + count c y)%nat.
Proof. unfold count. by rewrite List.filter_app, length_app. Qed.

Lemma count_infix (c : N) (x s : list N) : infix x s → (count c x ≤ count c s)%nat.
Proof. intros (l & r & ->). rewrite !count_app. lia. Qed.

(** Every piece of a text that passes the filter passes it too: cutting a
    text never turns it into spam. *)
Theorem valid_tweet_pieces_are_valid (x s : list N) :
  infix x s → isValidTweet (Some s) = true → isValidTweet (Some x) = true.
Proof.
  intros Hx. unfold isValidTweet; simpl.
  pose proof (count_infix 35 x s Hx). pose proof (count_infix 64 x s Hx).
  pose proof (count_infix 36 x s Hx).
  rewrite !andb_true_iff, !Nat.leb_le. lia.
Qed.

Lemma valid_tweet_pieces_are_valid_witness :
  isValidTweet (Some (codes "@bob")) = true.
Proof.
  apply (valid_tweet_pieces_are_valid (codes "@bob") (codes "thanks @bob #nice")).
  - exists (codes "thanks "), (codes " #nice"). reflexivity.
  - reflexivity.
Defined.

Lemma infix_free (c : N) (x s : list N) : infix x s → c ∉ s → c ∉ x.
Proof.
  intros (l & r & ->) Hfree Hin. apply Hfree.
  apply elem_of_app. right. apply elem_of_app. by left.
Qed.

(** Every name that [parseTargetUsers] returns is not empty, has no white
    space at either end and contains no comma. *)
Theorem target_users_are_clean (targetUsersStr : option (list N)) :
  Forall (λ user, user ≠ [] ∧ trim user = user ∧ 44%N ∉ user)
         (parseTargetUsers targetUsersStr).
Proof.
  unfold parseTargetUsers. destruct targetUsersStr as [str|]; [|constructor].
  destruct (trim str); [constructor|].
  apply Forall_forall. intros user Hin.
  apply list_elem_of_In, filter_In in Hin as [Hin Hfull].
  apply list_elem_of_In, list_elem_of_fmap in Hin as (piece & -> & Hpiece).
  split; [|split].
  - intros Hempty. rewrite Hempty in Hfull.
    by rewrite bool_decide_eq_true_2 in Hfull.
  - apply trim_idempotent.
  - pose proof (TweetSplit.split_free str 44) as Hfree.
    rewrite Forall_forall in Hfree.
    apply (infix_free 44 _ piece); [apply trim_infix | by apply Hfree].
Qed.

Example target_users :
  parseTargetUsers (Some (codes " alice, bob ,,carol "))
  = [codes "alice"; codes "bob"; codes "carol"].
Proof. vm_compute. reflexivity. Qed.

End Filters.

(* ===================================================================== *)
(** * The client base: the login ([init])                                 *)
(* ===================================================================== *)

Module Client.

Import ThreadBuilder.

(** The fields of [TwitterConfig] that [init] reads. *)
Record TwitterConfig := {
  TWITTER_USERNAME : option string;
  TWITTER_ACCESS_TOKEN : option string;
  TWITTER_ACCESS_SECRET : option string;
  TWITTER_RETRY_LIMIT : Z
}.

(** What [this.twitterClient] is: the app-only client of the constructor,
    the client that [appLogin()] returns, or a client made with the access
    token and secret. *)
Inductive api := AppOnly | AppLoggedIn | UserContext.

(** How [fetchProfile(username)] ends. *)
Inductive profile_result :=
| Loaded (p : TwitterProfile)
| NoProfile                           (* a falsy value            *)
| ProfileFailed (message : string).   (* it throws, and rethrows  *)

(** The cached id of the latest checked tweet: none (or an empty string), a
    numeral, or a string that [BigInt] rejects. *)
Inductive cached_id := NoId | Id (n : Z) | NotANumber.

Record state := {
  twitterClient : api;
  profile : option TwitterProfile;      (* this.profile                      *)
  lastCheckedTweetId : option Z;        (* this.lastCheckedTweetId           *)
  logins : nat;                         (* calls of appLogin()               *)
  built : nat;                          (* calls of new TwitterApi({...})
                                           with the access token and secret  *)
  sleeps : nat                          (* two-second waits                  *)
}.

(** A client as its constructor leaves it. *)
Definition fresh : state :=
  {| twitterClient := AppOnly; profile := None; lastCheckedTweetId := None;
     logins := 0; built := 0; sleeps := 0 |}.

Definition set_client (c : api) (s : state) : state :=
  {| twitterClient := c; profile := profile s;
     lastCheckedTweetId := lastCheckedTweetId s;
     logins := logins s; built := built s; sleeps := sleeps s |}.

Definition set_profile (p : option TwitterProfile) (s : state) : state :=
  {| twitterClient := twitterClient s; profile := p;
     lastCheckedTweetId := lastCheckedTweetId s;
     logins := logins s; built := built s; sleeps := sleeps s |}.

Definition set_lastCheckedTweetId (n : Z) (s : state) : state :=
  {| twitterClient := twitterClient s; profile := profile s;
     lastCheckedTweetId := Some n;
     logins := logins s; built := built s; sleeps := sleeps s |}.

Definition count_login (s : state) : state :=
  {| twitterClient := twitterClient s; profile := profile s;
     lastCheckedTweetId := lastCheckedTweetId s;
     logins := S (logins s); built := built s; sleeps := sleeps s |}.

Definition count_built (s : state) : state :=
  {| twitterClient := twitterClient s; profile := profile s;
     lastCheckedTweetId := lastCheckedTweetId s;
     logins := logins s; built := S (built s); sleeps := sleeps s |}.

Definition sleep (s : state) : state :=
  {| twitterClient := twitterClient s; profile := profile s;
     lastCheckedTweetId := lastCheckedTweetId s;
     logins := logins s; built := built s; sleeps := S (sleeps s) |}.

(** The login attempts made so far, of either kind. *)
Definition attempts (s : state) : nat := (logins s + built s)%nat.

(** The errors that [init] throws. *)
Inductive failure :=
| NoUsername            (* "Twitter username not configured"             *)
| RetriesExhausted      (* "Twitter login failed after maximum retries." *)
| ProfileMissing        (* "Failed to load profile"                      *)
| Rethrown (message : string)
| BigIntSyntaxError.

Inductive ended := Returned | Threw (e : failure).

(** How the [while] loop of [init] is left. *)
Inductive loop_exit := Proceed | ReturnEarly | LoginFailed.

Definition truthy (o : option string) : bool :=
  match o with Some s => bool_decide (s ≠ EmptyString) | None => false end.

Section Init.

(** [appLogin k] tells whether the call number [k] of [appLogin()]
    succeeds, and [construct k] whether the call number [k] of
    [new TwitterApi({ appKey, appSecret, accessToken, accessSecret })]
    returns; a call that does not throws inside the [try] block. *)
Variable appLogin : nat → bool.
Variable construct : nat → bool.
Variable fetchProfile : string → profile_result.
Variable latestChecked : cached_id.

Variable config : TwitterConfig.

(** [!accessToken && !accessSecret]. *)
Definition no_credentials : bool :=
  negb (truthy (TWITTER_ACCESS_TOKEN config))
  && negb (truthy (TWITTER_ACCESS_SECRET config)).

(** The [try] block of the login loop: [Some exit] when it leaves the loop
    ([return] after the app login, [break] after the construction), [None]
    when it throws and the [catch] block logs the error. *)
Definition attempt (s : state) : option loop_exit * state :=
  if no_credentials then
    if appLogin (logins s)
    then (Some ReturnEarly, set_client AppLoggedIn (count_login s))
    else (None, count_login s)
  else
    if construct (built s)
    then (Some Proceed, set_client UserContext (count_built s))
    else (None, count_built s).

(** The loop [while (retries > 0)] with [retries] iterations left. *)
Fixpoint login_loop (retries : nat) (s : state) : loop_exit * state :=
  match retries with
  | O => (Proceed, s)
  | S retries' =>
      match attempt s with
      | (Some exit, s1) => (exit, s1)
      | (None, s1) =>
          match retries' with
          | O => (LoginFailed, s1)
          | S _ => login_loop retries' (sleep s1)
          end
      end
  end.

(** [loadLatestCheckedTweetId()]. *)
Definition loadLatestCheckedTweetId (s : state) : ended * state :=
  match latestChecked with
  | NoId => (Returned, s)
  | Id n => (Returned, set_lastCheckedTweetId n s)
  | NotANumber => (Threw BigIntSyntaxError, s)
  end.

(** [init()].  The retry limit is an integer.  (The cached cookies that
    [init] reads first have no effect: [setCookiesFromArray] only builds
    strings.) *)
Definition init (s : state) : ended * state :=
  if negb (truthy (TWITTER_USERNAME config)) then (Threw NoUsername, s)
  else
    match login_loop (Z.to_nat (TWITTER_RETRY_LIMIT config)) s with
    | (ReturnEarly, s1) => (Returned, s1)
    | (LoginFailed, s1) => (Threw RetriesExhausted, s1)
    | (Proceed, s1) =>
        match fetchProfile (default EmptyString (TWITTER_USERNAME config)) with
        | ProfileFailed message => (Threw (Rethrown message), s1)
        | NoProfile => (Threw ProfileMissing, set_profile None s1)
        | Loaded p => loadLatestCheckedTweetId (set_profile (Some p) s1)
        end
    end.

(** ** The login loop *)

Lemma login_loop_spec (retries : nat) (s : state) (e : loop_exit) (s' : state) :
  login_loop retries s = (e, s') →
  profile s' = profile s
  ∧ (attempts s' ≤ attempts s + retries)%nat
  ∧ match e with
    | Proceed =>
        (retries = 0%nat ∧ s' = s)
        ∨ (no_credentials = false ∧ twitterClient s' = UserContext)
    | ReturnEarly => no_credentials = true ∧ twitterClient s' = AppLoggedIn
    | LoginFailed =>
        attempts s' = (attempts s + retries)%nat
        ∧ twitterClient s' = twitterClient s
        ∧ if no_credentials
          then built s' = built s
               ∧ ∀ k, (k < retries)%nat → appLogin (logins s + k) = false
          else logins s' = logins s
               ∧ ∀ k, (k < retries)%nat → construct (built s + k) = false
    end.
Proof.
  unfold attempts.
  revert s. induction retries as [|retries IH]; intros s; simpl.
  { intros [= <- <-]. split; [done|]. split; [lia|]. by left. }
  unfold attempt. destruct no_credentials eqn:Hcred.
  - destruct (appLogin (logins s)) eqn:Hlogin.
    { intros [= <- <-]; simpl. split; [done|]. split; [lia|]. done. }
    destruct retries as [|retries].
    { intros [= <- <-]; simpl. split; [done|]. split; [lia|].
      split; [lia|]. split; [done|]. split; [done|].
      intros k Hk. assert (k = 0%nat) as -> by lia. by rewrite Nat.add_0_r. }
    intros Hloop. destruct (IH _ Hloop) as (Hprofile & Hcount & Hexit).
    simpl in *. split; [done|]. split; [lia|].
    destruct e.
    + destruct Hexit as [[? _]|(? & _)]; [lia | congruence].
    + exact Hexit.
    + destruct Hexit as (Hall & Hclient & Hbuilt & Hfailed).
      split; [lia|]. split; [done|]. split; [done|].
      intros [|k] Hk; [by rewrite Nat.add_0_r|].
      replace (logins s + S k)%nat with (S (logins s) + k)%nat by lia.
      apply Hfailed. lia.
  - destruct (construct (built s)) eqn:Hbuilt.
    { intros [= <- <-]; simpl. split; [done|]. split; [lia|]. by right. }
    destruct retries as [|retries].
    { intros [= <- <-]; simpl. split; [done|]. split; [lia|].
      split; [lia|]. split; [done|]. split; [done|].
      intros k Hk. assert (k = 0%nat) as -> by lia. by rewrite Nat.add_0_r. }
    intros Hloop. destruct (IH _ Hloop) as (Hprofile & Hcount & Hexit).
    simpl in *. split; [done|]. split; [lia|].
    destruct e.
    + destruct Hexit as [[? _]|Hexit]; [lia | by right].
    + destruct Hexit as [? _]. congruence.
    + destruct Hexit as (Hall & Hclient & Hlogins & Hfailed).
      split; [lia|]. split; [done|]. split; [done|].
      intros [|k] Hk; [by rewrite Nat.add_0_r|].
      replace (built s + S k)%nat with (S (built s) + k)%nat by lia.
      apply Hfailed. lia.
Qed.

(** When [init] returns, the profile is loaded, unless neither an access
    token nor an access secret is configured: then [init] returns right
    after the app login and leaves [this.profile] as it was. *)
Theorem init_returns_with_profile_or_app_login (s s' : state) :
  init s = (Returned, s') →
  is_Some (profile s')
  ∨ (no_credentials = true ∧ twitterClient s' = AppLoggedIn
     ∧ profile s' = profile s).
Proof.
  unfold init. destruct (negb (truthy (TWITTER_USERNAME config))); [discriminate|].
  destruct (login_loop _ s) as [e s1] eqn:Hloop.
  destruct (login_loop_spec _ _ _ _ Hloop) as (Hprofile & _ & Hexit).
  destruct e; [| |discriminate].
  - destruct (fetchProfile _) as [p| |message]; try discriminate.
    unfold loadLatestCheckedTweetId.
    destruct latestChecked; intros [= <-]; simpl; eauto.
  - intros [= <-]. right. destruct Hexit as (Hcred & Hclient). done.
Qed.

(** [init] makes at most as many login attempts as the retry limit says: an
    attempt is a call of [appLogin] when neither a token nor a secret is
    configured, and a construction of the client with the token and the
    secret otherwise.  [init] gives up with "login failed" only after
    exactly that many attempts, all of which failed. *)
Theorem login_attempts_within_limit (s s' : state) (o : ended) :
  init s = (o, s') →
  (attempts s' ≤ attempts s + Z.to_nat (TWITTER_RETRY_LIMIT config))%nat
  ∧ (o = Threw RetriesExhausted →
     attempts s' = (attempts s + Z.to_nat (TWITTER_RETRY_LIMIT config))%nat
     ∧ if no_credentials
       then built s' = built s
            ∧ ∀ k, (k < Z.to_nat (TWITTER_RETRY_LIMIT config))%nat →
                   appLogin (logins s + k) = false
       else logins s' = logins s
            ∧ ∀ k, (k < Z.to_nat (TWITTER_RETRY_LIMIT config))%nat →
                   construct (built s + k) = false).
Proof.
  unfold init. destruct (negb (truthy (TWITTER_USERNAME config))).
  { intros [= <- <-]. split; [lia | discriminate]. }
  destruct (login_loop _ s) as [e s1] eqn:Hloop.
  destruct (login_loop_spec _ _ _ _ Hloop) as (_ & Hcount & Hexit).
  destruct e.
  - destruct (fetchProfile _) as [p| |message].
    + unfold loadLatestCheckedTweetId.
      destruct latestChecked; intros [= <- <-]; (split; [exact Hcount | discriminate]).
    + intros [= <- <-]. split; [exact Hcount | discriminate].
    + intros [= <- <-]. split; [exact Hcount | discriminate].
  - intros [= <- <-]. split; [exact Hcount | discriminate].
  - intros [= <- <-]. split; [exact Hcount|]. intros _.
    destruct Hexit as (Hall & _ & Hfailed). done.
Qed.

End Init.

(** ** Concrete clients *)

(** The configuration that [generateReply] passes for a simulation: no
    access token, one retry. *)
Definition simulatorConfig : TwitterConfig :=
  {| TWITTER_USERNAME := Some "Simulator"; TWITTER_ACCESS_TOKEN := None;
     TWITTER_ACCESS_SECRET := None; TWITTER_RETRY_LIMIT := 1 |}.

Definition workerConfig : TwitterConfig :=
  {| TWITTER_USERNAME := Some "agent"; TWITTER_ACCESS_TOKEN := Some "token";
     TWITTER_ACCESS_SECRET := Some "secret"; TWITTER_RETRY_LIMIT := 5 |}.

Definition noProfileYet : string → profile_result := λ _, NoProfile.

(** The client of a simulation is initialised without a profile. *)
Lemma init_returns_with_profile_or_app_login_witness :
  init (λ _, true) (λ _, true) noProfileYet NoId simulatorConfig fresh
  = (Returned,
     {| twitterClient := AppLoggedIn; profile := None;
        lastCheckedTweetId := None; logins := 1; built := 0; sleeps := 0 |})
  ∧ (is_Some (@None TwitterProfile)
     ∨ (no_credentials simulatorConfig = true ∧ AppLoggedIn = AppLoggedIn
        ∧ @None TwitterProfile = None)).
Proof.
  split; [reflexivity|].
  exact (init_returns_with_profile_or_app_login (λ _, true) (λ _, true) noProfileYet
           NoId simulatorConfig fresh _ eq_refl).
Defined.

(** A worker whose client cannot be constructed: five attempts, no app
    login, four waits. *)
Lemma login_attempts_within_limit_witness :
  let run := init (λ _, true) (λ _, false) noProfileYet NoId workerConfig fresh in
  run.1 = Threw RetriesExhausted
  ∧ attempts run.2 = 5%nat ∧ logins run.2 = 0%nat ∧ sleeps run.2 = 4%nat.
Proof.
  split; [reflexivity|].
  destruct (login_attempts_within_limit (λ _, true) (λ _, false) noProfileYet NoId
              workerConfig fresh _ _ eq_refl) as [_ Hexact].
  destruct (Hexact eq_refl) as [Hall Hfailed].
  split; [exact Hall|]. split; [exact (proj1 Hfailed) | reflexivity].
Defined.

End Client.

(* ===================================================================== *)
(** * The request queue: order and pacing of the calls *)
(* ===================================================================== *)

Module QueueOrder.
Import RequestQueue.

Section Order.

Variable random2000 : nat → Z.

(** How [add]'s promise settles after a call of the request that settled
    as [o]. *)
Definition settlement (name : string) (o : settled) : event :=
  match o with Fulfilled => Resolve name | Rejected => Reject name end.

(** The trace of a queue that called [calls], the first of them after [k]
    draws of [Math.random]: every call is followed by the settlement of the
    caller's promise and by the pacing delay. *)
Fixpoint rounds (k : nat) (calls : list (string * settled)) : list event :=
  match calls with
  | [] => []
  | (name, o) :: calls' =>
      Attempt name o :: settlement name o :: Pace (randomDelay random2000 k)
        :: rounds (S k) calls'
  end.

Lemma rounds_app (k : nat) (calls calls' : list (string * settled)) :
  rounds k (calls ++ calls') = rounds k calls ++ rounds (k + length calls) calls'.
Proof.
  revert k. induction calls as [|[name o] calls IH]; intros k; simpl.
  - by rewrite Nat.add_0_r.
  - rewrite IH. by replace (S k + length calls)%nat with (k + S (length calls))%nat by lia.
Qed.

Definition paced (s : state) : Prop :=
  trace s = rounds 0 (observed (trace s))
  ∧ draws s = length (observed (trace s)).

Lemma paced_step (l : label) (s s' : state) :
  well_formed s → paced s → step random2000 l s = Some s' → paced s'.
Proof.
  destruct s as [q proc lp tr d]. unfold well_formed, paced; simpl.
  destruct lp as [|p [|p' lp]]; [| |tauto].
  - intros [-> ->] Hpaced. destruct l as [r|i|i]; simpl.
    + by intros [= <-].
    + destruct i; discriminate.
    + destruct i; discriminate.
  - intros [-> Hp] [Htrace Hdraws]. destruct l as [r|i|i]; simpl.
    + by intros [= <-].
    + unfold settle; simpl. destruct i as [|i]; simpl; [|destruct i; discriminate].
      destruct p as [[r]|t|]; try discriminate. simpl.
      assert (Hround : ∀ o,
        let tr' := (tr ++ [Attempt (req_name r) o; settlement (req_name r) o])
                   ++ [Pace (randomDelay random2000 d)] in
        tr' = rounds 0 (observed tr') ∧ S d = length (observed tr')).
      { intros o tr'. subst tr'.
        rewrite !observed_app. destruct o; simpl.
        all: rewrite app_nil_r, rounds_app; simpl;
        rewrite <- Htrace, <- Hdraws, length_app; simpl;
        rewrite <- app_assoc; (split; [reflexivity | lia]). }
      destruct (req_outcome r (attempts (req_name r) tr));
        intros [= <-]; simpl; apply Hround.
    + unfold wake; simpl. destruct i as [|i]; simpl; [|destruct i; discriminate].
      destruct p as [t|t|]; try discriminate.
      intros [= <-]. unfold loop_head; simpl.
      destruct q as [|request rest]; simpl; done.
Qed.

Lemma paced_run (ls : list label) (s s' : state) :
  well_formed s → paced s → run random2000 ls s = Some s' → paced s'.
Proof.
  revert s. induction ls as [|l ls IH]; simpl; intros s Hwf Hpaced.
  - by intros [= <-].
  - destruct (step random2000 l s) as [s1|] eqn:Hstep; [|discriminate].
    apply IH; [by eapply well_formed_step | by eapply paced_step].
Qed.

(** Whatever the callers and the timers do, the queue's trace consists of
    rounds: a call of a request, the settlement of the caller's promise with
    the outcome of that call, and a pacing delay drawn for this round.  No
    backoff delay is ever slept. *)
Theorem every_call_is_settled_and_paced (ls : list label) (s : state) :
  run random2000 ls init = Some s →
  trace s = rounds 0 (observed (trace s))
  ∧ draws s = length (observed (trace s)).
Proof.
  apply paced_run; [apply well_formed_init | by split].
Qed.

(** Requests are called in the order in which they were added, each of them
    at most once; and when no activation of [processQueue] is left, every
    request added so far has been called exactly once and the queue is
    empty. *)
Theorem requests_are_called_once_in_order_of_add (ls : list label) (s : state) :
  run random2000 ls init = Some s →
  (observed (trace s)).*1 `prefix_of` added ls
  ∧ (loops s = [] → (observed (trace s)).*1 = added ls ∧ queue s = []).
Proof.
  intros Hrun.
  pose proof (fifo_single_attempt random2000 ls s Hrun) as Hfifo.
  pose proof (well_formed_run random2000 ls _ _ well_formed_init Hrun) as Hwf.
  unfold lineup in Hfifo. split.
  - rewrite <- Hfifo. by eexists.
  - intros Hidle. unfold well_formed in Hwf. rewrite Hidle in Hwf, Hfifo.
    destruct Hwf as [_ Hqueue]. rewrite Hqueue in Hfifo. simpl in Hfifo.
    rewrite app_nil_r in Hfifo. done.
Qed.

End Order.

Lemma every_call_is_settled_and_paced_witness :
  ∃ s, run (λ _, 0) abc_schedule init = Some s
       ∧ trace s = rounds (λ _, 0) 0 (observed (trace s))
       ∧ draws s = length (observed (trace s)).
Proof.
  eexists. split; [reflexivity|].
  exact (every_call_is_settled_and_paced (λ _, 0) abc_schedule _ eq_refl).
Defined.

Lemma requests_are_called_once_in_order_of_add_witness :
  ∃ s, run (λ _, 0) abc_schedule init = Some s
       ∧ (observed (trace s)).*1 `prefix_of` added abc_schedule
       ∧ (loops s = [] → (observed (trace s)).*1 = added abc_schedule ∧ queue s = []).
Proof.
  eexists. split; [reflexivity|].
  exact (requests_are_called_once_in_order_of_add (λ _, 0) abc_schedule _ eq_refl).
Defined.

End QueueOrder.

(* ===================================================================== *)
(** * The thread builder: shape of the thread and the store *)
(* ===================================================================== *)

Module ThreadShape.
Import ThreadBuilder.

Section Shape.

Variable stringToUuid : string → UUID.
Variable getTime : option string → Z.
Variable client : Client.
Variable maxReplies : Z.

Local Abbreviation memoryKey := (memoryKey stringToUuid client).
Local Abbreviation persist := (persist stringToUuid getTime client).
Local Abbreviation processThread := (processThread stringToUuid getTime client maxReplies).
Local Abbreviation buildConversationThread :=
  (buildConversationThread stringToUuid getTime client maxReplies).

(** [parent] is what [client.getTweet] serves for the parent reference of
    [child]. *)
Definition replies_to (child parent : TweetData) : Prop :=
  truthy (in_reply_to_user_id child) = true
  ∧ getTweet client (js_string (in_reply_to_user_id child)) = Found parent.

(** Every tweet of the list but the last is the served parent of the next
    one. *)
Fixpoint linked (th : list TweetData) : Prop :=
  match th with
  | parent :: rest =>
      match rest with
      | child :: _ => replies_to child parent ∧ linked rest
      | [] => True
      end
  | [] => True
  end.

(** The memory step throws on [t] in the store [d]. *)
Definition throws_on (t : TweetData) (d : Store) : Prop := (persist t d).1 = Thrown.

(** Why the thread [th] does not go beyond its first tweet [root], [d] being
    the store that the call left: [root] has no parent reference, or
    [client.getTweet] serves no parent for it, or it serves one and the
    depth limit is reached, or the parent is in the thread already, or the
    memory step threw on the parent (and still throws on it in [d]). *)
Definition stops_at (root : TweetData) (th : list TweetData) (d : Store) : Prop :=
  truthy (in_reply_to_user_id root) = false
  ∨ (∀ parent, getTweet client (js_string (in_reply_to_user_id root)) ≠ Found parent)
  ∨ ∃ parent,
      getTweet client (js_string (in_reply_to_user_id root)) = Found parent
      ∧ (Z.of_nat (length th) >= maxReplies
         ∨ id parent ∈ id <$> th
         ∨ throws_on parent d).

Lemma linked_snoc (l : list TweetData) (p t : TweetData) :
  linked (l ++ [p]) → replies_to t p → linked ((l ++ [p]) ++ [t]).
Proof.
  intros Hl Ht. induction l as [|x l IH]; simpl in *; [tauto|].
  destruct l as [|y l]; simpl in *; tauto.
Qed.

(** A memory step that threw throws again in the store it left. *)
Lemma persist_thrown (t : TweetData) (d d1 : Store) :
  persist t d = (Thrown, d1) → throws_on t d1.
Proof.
  unfold throws_on, ThreadBuilder.persist.
  destruct (getMemoryById (memoryKey t) d) as [m|] eqn:Hrow; [discriminate|].
  destruct (profile client) as [p|]; [discriminate|].
  intros [= <-]. unfold getMemoryById in *. simpl. by rewrite Hrow.
Qed.

Lemma hd_snoc (l : list TweetData) (p t : TweetData) :
  hd t (l ++ [p]) = hd p l.
Proof. by destruct l. Qed.

(** What a level of the recursion does to the thread, when it is called at
    the depth that is the length of the thread and the visited ids are those
    of the thread: nothing, or it puts the current tweet in front, and in
    front of it the chain of its parents as far as it goes. *)
Definition extends (t : TweetData) (depth : Z) (b : Build) (o : outcome)
    (b' : Build) : Prop :=
  (o = Thrown → throws_on t (store b'))
  ∧ (Z.of_nat (length (thread b)) = depth →
     (∀ x, x ∈ visited b ↔ x ∈ id <$> thread b) →
     (thread b' = thread b
      ∧ (depth >= maxReplies ∨ o = Thrown ∨ id t ∈ visited b))
     ∨ ∃ new, thread b' = new ++ t :: thread b
              ∧ linked (new ++ [t])
              ∧ stops_at (hd t new) (thread b') (store b')).

Lemma processThread_extends (fuel : nat) (t : TweetData) (depth : Z) (b : Build)
    (o : outcome) (b' : Build) :
  processThread fuel t depth b = Some (o, b') → extends t depth b o b'.
Proof.
  revert fuel t depth b o b'.
  apply (processThread_cases stringToUuid getTime client maxReplies extends);
    unfold extends; cbn [thread visited store].
  - intros t depth b Hdepth. split; [discriminate|]. intros _ _. left. auto.
  - intros t depth b d _ Hpersist. split; [|intros _ _; left; auto].
    intros _. by eapply persist_thrown.
  - intros t depth b d _ _ Hvisited. split; [discriminate|]. intros _ _. left. auto.
  - intros t depth b d _ _ _ Hend. split; [discriminate|]. intros _ _. right.
    exists []. split; [reflexivity|]. split; [exact I|].
    unfold stops_at. destruct Hend as [Hroot|Hnone]; auto.
  - intros t depth b d parent o b'' _ _ _ Htruthy Hfetch [Hthrown IH].
    split; [discriminate|]. intros Hlen Hvis. right.
    assert (Hlen' : Z.of_nat (length (t :: thread b)) = depth + 1).
    { cbn [length]. rewrite Nat2Z.inj_succ. lia. }
    assert (Hvis' : ∀ x, x ∈ {[id t]} ∪ visited b ↔ x ∈ id <$> t :: thread b).
    { intros x.
      rewrite elem_of_union, elem_of_singleton, fmap_cons, elem_of_cons, Hvis.
      reflexivity. }
    destruct (IH Hlen' Hvis') as [[Hsame Hwhy]|(new & Hnew & Hlinked & Hstop)].
    + exists []. rewrite Hsame. split; [reflexivity|]. split; [exact I|].
      right; right. exists parent. split; [exact Hfetch|].
      destruct Hwhy as [Hdepth|[Ho|Hseen]].
      * left. lia.
      * right; right. by apply Hthrown.
      * right; left. by apply Hvis'.
    + exists (new ++ [parent]). rewrite Hnew, <- app_assoc. split; [reflexivity|].
      split; [apply linked_snoc; [exact Hlinked | by split]|].
      rewrite hd_snoc. rewrite Hnew in Hstop. exact Hstop.
Qed.

Lemma returned_thread_followed (fuel : nat) (tweet : TweetData) (d d' : Store)
    (th : list TweetData) :
  buildConversationThread fuel tweet d = Some (Returned th, d') →
  match th with
  | [] => maxReplies <= 0
  | root :: _ => last th = Some tweet ∧ linked th ∧ stops_at root th d'
  end.
Proof.
  unfold ThreadBuilder.buildConversationThread.
  destruct (ThreadBuilder.processThread _ _ _ _ fuel tweet 0 _) as [[o b]|] eqn:Hrun;
    [|discriminate].
  apply processThread_extends in Hrun. destruct Hrun as [_ Hrun]. simpl in Hrun.
  destruct o; [|discriminate]. intros [= <- <-].
  destruct Hrun as [[-> Hwhy]|(new & -> & Hlinked & Hstop)].
  - reflexivity.
  - intros x. rewrite elem_of_empty. by rewrite elem_of_nil.
  - destruct Hwhy as [?|[?|?]]; [lia | discriminate | set_solver].
  - destruct new as [|x new]; cbn [app hd] in *; [auto|].
    split; [|auto]. change (x :: new ++ [tweet]) with ((x :: new) ++ [tweet]).
    apply last_snoc.
Qed.

(** [buildConversationThread] ends, and when it returns, the thread is the
    reply chain of the tweet, followed as far as it goes: the thread ends
    with the tweet, each of its tweets is the parent that [client.getTweet]
    served for the reference of the next one, and the first tweet is where
    the chain stops (no reference, no parent served, the depth limit, a
    parent seen before, or a parent on which the memory step threw).  The
    thread is empty only for a depth limit of 0 or less. *)
Theorem thread_is_the_reply_chain (tweet : TweetData) (d : Store) (extra : nat) :
  ∃ r d',
    buildConversationThread (enough maxReplies + extra) tweet d = Some (r, d')
    ∧ ∀ th, r = Returned th →
        match th with
        | [] => maxReplies <= 0
        | root :: _ => last th = Some tweet ∧ linked th ∧ stops_at root th d'
        end.
Proof.
  destruct (buildConversationThread_total stringToUuid getTime client maxReplies
              tweet d extra) as [[r d'] Hbuild].
  exists r, d'. split; [exact Hbuild|]. intros th ->.
  by eapply returned_thread_followed.
Qed.

Lemma rejected_without_profile (fuel : nat) (tweet : TweetData) (d d' : Store) :
  buildConversationThread fuel tweet d = Some (Rejected, d') → profile client = None.
Proof.
  unfold ThreadBuilder.buildConversationThread.
  destruct (ThreadBuilder.processThread _ _ _ _ fuel tweet 0 _) as [[o b]|] eqn:Hrun;
    [|discriminate].
  apply processThread_thrown in Hrun. by destruct o.
Qed.

(** The rows of the store are kept, and when the thread is returned each of
    its tweets has a row. *)
Definition stored (th : list TweetData) (d : Store) : Prop :=
  ∀ t, t ∈ th → is_Some (getMemoryById (memoryKey t) d).

Lemma processThread_stored (fuel : nat) (t : TweetData) (depth : Z) (b : Build)
    (o : outcome) (b' : Build) :
  processThread fuel t depth b = Some (o, b') →
  stored (thread b) (store b) → stored (thread b') (store b').
Proof.
  revert fuel t depth b o b'.
  apply (processThread_cases stringToUuid getTime client maxReplies
           (λ _ _ b _ b', stored (thread b) (store b) → stored (thread b') (store b')));
    unfold stored; simpl.
  - tauto.
  - intros t depth b d _ Hpersist Hb x Hx.
    eapply persist_keeps; [exact Hpersist | by apply Hb].
  - intros t depth b d _ Hpersist _ Hb x Hx.
    eapply persist_keeps; [exact Hpersist | by apply Hb].
  - intros t depth b d _ Hpersist _ _ Hb x [->|Hx]%elem_of_cons.
    + by eapply persist_stored.
    + eapply persist_keeps; [exact Hpersist | by apply Hb].
  - intros t depth b d parent o b'' _ Hpersist _ _ _ IH Hb. apply IH.
    intros x [->|Hx]%elem_of_cons.
    + by eapply persist_stored.
    + eapply persist_keeps; [exact Hpersist | by apply Hb].
Qed.

Lemma returned_thread_stored (fuel : nat) (tweet : TweetData) (d d' : Store)
    (th : list TweetData) :
  buildConversationThread fuel tweet d = Some (Returned th, d') →
  (∀ t, t ∈ th → is_Some (getMemoryById (memoryKey t) d'))
  ∧ covers d d'.
Proof.
  unfold ThreadBuilder.buildConversationThread.
  destruct (ThreadBuilder.processThread _ _ _ _ fuel tweet 0 _) as [[o b]|] eqn:Hrun;
    [|discriminate].
  destruct o; [|discriminate]. intros [= <- <-]. split.
  - apply (processThread_stored _ _ _ _ _ _ Hrun). intros t Ht. simpl in Ht.
    by apply elem_of_nil in Ht.
  - apply (processThread_grows _ _ _ _ _ _ _ _ _ _ Hrun).
Qed.

(** When [buildConversationThread] has returned, every tweet of the thread
    has a memory row, and every id that had a row before still has one. *)
Theorem thread_tweets_are_stored (tweet : TweetData) (d : Store) (extra : nat) :
  ∃ r d',
    buildConversationThread (enough maxReplies + extra) tweet d = Some (r, d')
    ∧ match r with
      | Returned th =>
          (∀ t, t ∈ th → is_Some (getMemoryById (memoryKey t) d')) ∧ covers d d'
      | Rejected => profile client = None
      end.
Proof.
  destruct (buildConversationThread_total stringToUuid getTime client maxReplies
              tweet d extra) as [[r d'] Hbuild].
  exists r, d'. split; [exact Hbuild|]. destruct r as [th|].
  - by eapply returned_thread_stored.
  - by eapply rejected_without_profile.
Qed.

End Shape.

(** ** A second build *)

Section Again.

Variable stringToUuid : string → UUID.
Variable getTime : option string → Z.

(** The client at the first and at the second call: the same agent and
    profile; [client.getTweet] is asked again at the second call. *)
Variables client1 client2 : Client.
Variable maxReplies : Z.

Hypothesis same_agent : agentId client2 = agentId client1.
Hypothesis same_profile : profile client2 = profile client1.

(** [client.getTweet] answers at the second call as it did at the first. *)
Hypothesis same_answers : ∀ ref, getTweet client2 ref = getTweet client1 ref.

Lemma persist_again (t : TweetData) (d : Store) :
  persist stringToUuid getTime client2 t d = persist stringToUuid getTime client1 t d.
Proof.
  unfold persist, memoryOf, memoryKey. by rewrite same_agent, same_profile.
Qed.

Lemma processThread_again (fuel : nat) (t : TweetData) (depth : Z) (b : Build) :
  processThread stringToUuid getTime client2 maxReplies fuel t depth b
  = processThread stringToUuid getTime client1 maxReplies fuel t depth b.
Proof.
  revert t depth b. induction fuel as [|fuel IH]; intros t depth b; [reflexivity|].
  simpl. rewrite persist_again, same_answers.
  destruct (bool_decide (depth >= maxReplies)); [reflexivity|].
  destruct (persist _ _ client1 t (store b)) as [[|] d1]; [|reflexivity].
  destruct (bool_decide (id t ∈ visited b)); [reflexivity|].
  destruct (truthy (in_reply_to_user_id t)); [|reflexivity].
  destruct (getTweet client1 _); [|reflexivity|reflexivity].
  by rewrite IH.
Qed.

(** With a loaded profile, and with a [client.getTweet] that answers at the
    second call as it did at the first, a second [buildConversationThread]
    of the same tweet, run on the store that the first one left when it
    returned, returns the same thread and writes nothing. *)
Theorem second_build_writes_nothing (p : TwitterProfile) (tweet : TweetData)
    (d : Store) (extra : nat) :
  profile client1 = Some p →
  ∃ r d1,
    buildConversationThread stringToUuid getTime client1 maxReplies
      (enough maxReplies + extra) tweet d
    = Some (r, d1)
    ∧ ∀ th, r = Returned th →
        buildConversationThread stringToUuid getTime client2 maxReplies
          (enough maxReplies + extra) tweet d1
        = Some (Returned th, d1).
Proof.
  intros Hp.
  destruct (buildConversationThread_total stringToUuid getTime client1 maxReplies
              tweet d extra) as [[r d1] Hbuild].
  pose proof (rebuild_keeps_store _ _ _ _ p _ _ _ _ _ Hp Hbuild) as Hagain.
  exists r, d1. split; [exact Hbuild|]. intros th ->.
  unfold buildConversationThread in *. by rewrite processThread_again.
Qed.

End Again.

(** The store after the thread of D was built on the chain D→C→B→A. *)
Definition chain_store : Store :=
  default emptyStore
    (snd <$> ThreadBuilder.buildConversationThread (λ s, s) (λ _, 0) chainClient 10
               (enough 10) tweetD emptyStore).

Lemma chain_build :
  ThreadBuilder.buildConversationThread (λ s, s) (λ _, 0) chainClient 10
    (enough 10) tweetD emptyStore
  = Some (Returned [tweetA; tweetB; tweetC; tweetD], chain_store).
Proof. vm_compute. reflexivity. Qed.

(** On the chain the returned thread is linked, stops at A, which has no
    parent reference, and every tweet of it is stored. *)
Example chain_is_linked_and_stored :
  linked chainClient [tweetA; tweetB; tweetC; tweetD]
  ∧ stops_at (λ s, s) (λ _, 0) chainClient 10 tweetA
      [tweetA; tweetB; tweetC; tweetD] chain_store
  ∧ ∀ t, t ∈ [tweetA; tweetB; tweetC; tweetD] →
         is_Some (getMemoryById (memoryKey (λ s, s) chainClient t) chain_store).
Proof.
  pose proof (returned_thread_followed _ _ _ _ _ _ _ _ _ chain_build)
    as (_ & Hlinked & Hstop).
  split; [exact Hlinked|]. split; [exact Hstop|].
  eapply returned_thread_stored, chain_build.
Qed.

(** A client for which the fetch of C fails. *)
Definition flakyClient : Client :=
  {| agentId := "agent"; profile := Some agentProfile;
     getTweet := λ ref,
       if String.eqb ref "c" then FetchFailed else getTweet chainClient ref |}.

(** When a fetch that failed at the first call succeeds at the second, the
    second build returns a longer thread and writes rows: a failed fetch is
    not remembered. *)
Example second_build_after_a_failed_fetch :
  ∃ d1 d2,
    ThreadBuilder.buildConversationThread (λ s, s) (λ _, 0) flakyClient 10
      (enough 10) tweetD emptyStore
    = Some (Returned [tweetD], d1)
    ∧ ThreadBuilder.buildConversationThread (λ s, s) (λ _, 0) chainClient 10
        (enough 10) tweetD d1
      = Some (Returned [tweetA; tweetB; tweetC; tweetD], d2)
    ∧ length (memories d1) = 1%nat ∧ length (memories d2) = 4%nat.
Proof. eexists _, _. vm_compute. repeat split. Qed.

Lemma second_build_writes_nothing_witness :
  ∃ r d1,
    ThreadBuilder.buildConversationThread (λ s, s) (λ _, 0) chainClient 10
      (enough 10 + 0) tweetD emptyStore = Some (r, d1)
    ∧ ∀ th, r = Returned th →
        ThreadBuilder.buildConversationThread (λ s, s) (λ _, 0) chainClient 10
          (enough 10 + 0) tweetD d1 = Some (Returned th, d1).
Proof.
  exact (second_build_writes_nothing (λ s, s) (λ _, 0) chainClient chainClient 10
           eq_refl eq_refl (λ _, eq_refl) agentProfile tweetD emptyStore 0 eq_refl).
Defined.

End ThreadShape.

(* ===================================================================== *)
(** * The scheduling loops: how they end and how they pile up *)
(* ===================================================================== *)

Module LoopLife.
Import SchedulingLoop.

(** The timer of the search loop fires [n] times in a row. *)
Lemma search_timers_fire (cfg : Config) (n : nat) (rn : list activity) :
  run SearchEngage cfg (replicate n (TimerFired 0 0))
    {| running := rn; timers := [search_delay 0] |}
  = Some {| running := rn ++ replicate n Searching; timers := [search_delay 0] |}.
Proof.
  revert rn. induction n as [|n IH]; intros rn; cbn [replicate run].
  - by rewrite app_nil_r.
  - assert (Hstep : step SearchEngage cfg (TimerFired 0 0)
                      {| running := rn; timers := [search_delay 0] |}
                    = Some {| running := rn ++ [Searching];
                              timers := [search_delay 0] |}) by reflexivity.
    rewrite Hstep, IH, <- app_assoc. reflexivity.
Qed.

(** Nothing bounds the number of searches in flight: the timer of the next
    search is set when a search starts, so for every [n] the search loop can
    reach a state with [n + 1] searches in flight, and the next timer
    pending. *)
Theorem searches_pile_up (cfg : Config) (n : nat) :
  reachable SearchEngage cfg
    {| running := replicate (S n) Searching; timers := [search_delay 0] |}.
Proof.
  exists 0, (replicate n (TimerFired 0 0)). apply search_timers_fire.
Qed.

(** The loop waits for nothing and no timer is pending: only posts that
    were started can still be in flight. *)
Definition over (s : state) : Prop := awaited s = 0%nat ∧ timers s = [].

Lemma awaited_lookup (l : list activity) (i : nat) (a : activity) :
  l !! i = Some a → is_awaited a = true →
  (1 ≤ length (List.filter is_awaited l))%nat.
Proof.
  intros Hi Ha. rewrite (awaited_delete _ _ _ Hi). unfold weight. rewrite Ha. lia.
Qed.

Lemma over_step (k : kind) (cfg : Config) (l : label) (s s' : state) :
  over s → step k cfg l s = Some s' → over s'.
Proof.
  destruct s as [rn tm]. unfold over, awaited; simpl. intros [Hnone ->].
  assert (Hidle : ∀ i a, rn !! i = Some a → is_awaited a = false).
  { intros i a Hi. destruct (is_awaited a) eqn:Ha; [|reflexivity].
    pose proof (awaited_lookup _ _ _ Hi Ha). lia. }
  assert (Hdel : ∀ i a, rn !! i = Some a →
                        length (List.filter is_awaited (delete i rn)) = 0%nat).
  { intros i a Hi. pose proof (awaited_delete _ _ _ Hi). lia. }
  destruct l as [i lastPost now r|i|i e r|i|j r]; simpl.
  - destruct (rn !! i) as [a|] eqn:Hi; [|discriminate].
    pose proof (Hidle _ _ Hi). by destruct a.
  - destruct (rn !! i) as [a|] eqn:Hi; [|discriminate].
    pose proof (Hidle _ _ Hi). by destruct a.
  - destruct (rn !! i) as [a|] eqn:Hi; [|discriminate].
    pose proof (Hidle _ _ Hi) as Ha. pose proof (Hdel _ _ Hi).
    destruct a; try discriminate. destruct e; try discriminate.
    intros [= <-]; simpl. done.
  - destruct (rn !! i) as [a|] eqn:Hi; [|discriminate].
    pose proof (Hdel _ _ Hi). destruct a; try discriminate.
    intros [= <-]; simpl. done.
  - by destruct j.
Qed.

Lemma over_run (k : kind) (cfg : Config) (ls : list label) (s s' : state) :
  over s → run k cfg ls s = Some s' → over s'.
Proof.
  revert s. induction ls as [|l ls IH]; simpl; intros s Hs.
  - by intros [= <-].
  - destruct (step k cfg l s) as [s1|] eqn:Hstep; [|discriminate].
    apply IH. by eapply over_step.
Qed.

(** When the cache rejects the read of the last post, [generateNewTweetLoop]
    rejects before it sets its timer, and the posting loop is over: from
    then on no generation runs and no timer is pending, whatever happens;
    only posts that were started before can still finish. *)
Theorem failed_cache_read_ends_the_posting_loop
    (cfg : Config) (s s' : state) (i : nat) :
  reachable ContentPosting cfg s →
  step ContentPosting cfg (CacheFailed i) s = Some s' →
  ∀ ls s'', run ContentPosting cfg ls s' = Some s'' →
            awaited s'' = 0%nat ∧ timers s'' = [].
Proof.
  intros (r0 & ls0 & Hrun) Hstep.
  assert (Hs : single s).
  { apply (single_run ContentPosting cfg ls0 (start ContentPosting cfg r0) s);
      [discriminate | by apply single_start | exact Hrun]. }
  assert (Hover : over s').
  { destruct s as [rn tm]. unfold single, over, awaited in *; simpl in *.
    destruct (rn !! i) as [a|] eqn:Hi; [|discriminate].
    destruct a; try discriminate. injection Hstep as <-. simpl.
    pose proof (awaited_delete _ _ _ Hi) as Hdel. unfold weight in Hdel.
    simpl in Hdel. split; [lia|]. destruct tm; [done | simpl in Hs; lia]. }
  intros ls s'' Hrun'. by eapply over_run.
Qed.

(** In dry-run mode the posting loop is never started: no timer is ever set,
    and the only generation is the one that [POST_IMMEDIATELY] asks for. *)
Theorem dry_run_never_schedules (cfg : Config) (s : state) :
  TWITTER_DRY_RUN cfg = true → reachable ContentPosting cfg s →
  timers s = [] ∧ (running s = [] ∨ running s = [PostingFirst]).
Proof.
  intros Hdry (r & ls & Hrun).
  set (quiet := λ s : state,
         timers s = [] ∧ (running s = [] ∨ running s = [PostingFirst])).
  assert (Hstart : quiet (start ContentPosting cfg r)).
  { unfold quiet, start. rewrite Hdry. destruct (POST_IMMEDIATELY cfg); simpl; auto. }
  revert Hrun Hstart. generalize (start ContentPosting cfg r) as s0.
  induction ls as [|l ls IH]; simpl; intros s0.
  - by intros [= <-].
  - destruct (step ContentPosting cfg l s0) as [s1|] eqn:Hstep; [|discriminate].
    intros Hrun Hs0. apply (IH s1 Hrun).
    destruct s0 as [rn tm]. destruct Hs0 as [Htm Hrn]; simpl in *. subst tm.
    destruct l as [i lastPost now r'|i|i e r'|i|j r']; simpl in Hstep.
    + destruct Hrn as [->| ->]; [by destruct i|].
      destruct i as [|i]; [discriminate | by destruct i].
    + destruct Hrn as [->| ->]; [by destruct i|].
      destruct i as [|i]; [discriminate | by destruct i].
    + destruct Hrn as [->| ->]; [by destruct i|].
      destruct i as [|i]; [|by destruct i]. simpl in Hstep.
      rewrite Hdry in Hstep. destruct e; try discriminate.
      injection Hstep as <-. unfold quiet; simpl; auto.
    + destruct Hrn as [->| ->]; [by destruct i|].
      destruct i as [|i]; [discriminate | by destruct i].
    + by destruct j.
Qed.

Lemma failed_cache_read_ends_the_posting_loop_witness :
  reachable ContentPosting defaults {| running := [ReadingLastPost]; timers := [] |}
  ∧ step ContentPosting defaults (CacheFailed 0)
      {| running := [ReadingLastPost]; timers := [] |} = Some idle
  ∧ ∀ ls s'', run ContentPosting defaults ls idle = Some s'' →
              awaited s'' = 0%nat ∧ timers s'' = [].
Proof.
  assert (Hreach : reachable ContentPosting defaults
                     {| running := [ReadingLastPost]; timers := [] |}).
  { exists 0, []. reflexivity. }
  split; [exact Hreach|]. split; [reflexivity|].
  exact (failed_cache_read_ends_the_posting_loop defaults _ idle 0 Hreach eq_refl).
Defined.

Definition dryRun : Config :=
  {| intervalMin := None; intervalMax := None;
     POST_IMMEDIATELY := true; TWITTER_DRY_RUN := true |}.

Lemma dry_run_never_schedules_witness :
  let s := {| running := [PostingFirst]; timers := [] |} in
  TWITTER_DRY_RUN dryRun = true
  ∧ reachable ContentPosting dryRun s
  ∧ timers s = [] ∧ (running s = [] ∨ running s = [PostingFirst]).
Proof.
  assert (Hreach : reachable ContentPosting dryRun
                     {| running := [PostingFirst]; timers := [] |}).
  { exists 0, []. reflexivity. }
  split; [reflexivity|]. split; [exact Hreach|].
  exact (dry_run_never_schedules dryRun _ eq_refl Hreach).
Defined.

End LoopLife.

(* ===================================================================== *)
(** * The agent supervisor: the registry over time *)
(* ===================================================================== *)

Module Registry.
Import Supervisor.

(** What happens to the supervisor: a [StartAgent] request, the exit of a
    spawned child, a [StopAgent] request. *)
Inductive label :=
| Start (req : StartAgentRequest) (os_pid : option N)
| Exit (i : nat)
| Stop (pid : string).

(** A step of the server, [None] when there is none.  A spawn that fails
    (no pid) makes the child emit ['error']; [startAgent] registers no
    listener for it, so the server process ends there and serves nothing
    more. *)
Definition step (l : label) (s : state) : option state :=
  match l with
  | Start req os_pid =>
      match os_pid with
      | Some _ => Some (startAgent req os_pid s).2
      | None => if missing req then Some (startAgent req os_pid s).2 else None
      end
  | Exit i =>
      match children s !! i with
      | Some child => Some (on_exit child s)
      | None => None
      end
  | Stop pid => Some (stopAgent pid s).2
  end.

Fixpoint run (ls : list label) (s : state) : option state :=
  match ls with
  | [] => Some s
  | l :: ls' =>
      match step l s with
      | Some s' => run ls' s'
      | None => None
      end
  end.

(** Every entry of the registry is filed under the pid of its process, which
    was spawned by [startAgent], and its status is [running] or
    [stopped]. *)
Definition filed (s : state) : Prop :=
  ∀ key a, agents s !! key = Some a →
    key = pid_key (pid (process a))
    ∧ process a ∈ children s
    ∧ (status a = "running" ∨ status a = "stopped").

Lemma filed_step (l : label) (s s' : state) :
  filed s → step l s = Some s' → filed s'.
Proof.
  unfold filed. intros Hs Hstep key a.
  destruct l as [req os_pid|i|pid']; simpl in Hstep.
  - assert (Hstart : s' = (startAgent req os_pid s).2).
    { destruct os_pid; [|destruct (missing req)]; congruence. }
    subst s'. clear Hstep. unfold startAgent.
    destruct (missing req); simpl; [apply Hs|].
    destruct (decide (key = pid_key os_pid)) as [->|Hne].
    + rewrite lookup_insert_eq. intros [= <-]; simpl.
      split; [reflexivity|]. split; [|by left].
      apply elem_of_app. right. by apply list_elem_of_singleton.
    + rewrite lookup_insert_ne by congruence. intros Ha.
      destruct (Hs _ _ Ha) as (Hkey & Hin & Hst).
      split; [exact Hkey|]. split; [|exact Hst]. apply elem_of_app. by left.
  - destruct (children s !! i) as [child|]; [|discriminate].
    injection Hstep as <-. unfold on_exit, get.
    destruct (agents s !! pid_key (pid child)) as [a0|] eqn:Hown.
    2: { destruct (bool_decide _); apply Hs. }
    simpl. destruct (decide (key = pid_key (pid child))) as [->|Hne].
    + rewrite lookup_insert_eq. intros [= <-]; simpl.
      destruct (Hs _ _ Hown) as (Hkey & Hin & _). auto.
    + rewrite lookup_insert_ne by congruence. apply Hs.
  - injection Hstep as <-. unfold stopAgent, get.
    destruct (agents s !! pid') as [a0|] eqn:Hown.
    2: { destruct (bool_decide _); apply Hs. }
    simpl. destruct (decide (key = pid')) as [->|Hne].
    + rewrite lookup_insert_eq. intros [= <-]; simpl.
      destruct (Hs _ _ Hown) as (Hkey & Hin & _). auto.
    + rewrite lookup_insert_ne by congruence. apply Hs.
Qed.

(** In every state of the supervisor, each registered agent is filed under
    the pid of a process that [startAgent] spawned, and its status is
    [running] or [stopped]: no other status is ever written. *)
Theorem registry_is_filed_by_pid (ls : list label) (s : state) :
  run ls init = Some s →
  ∀ key a, agents s !! key = Some a →
    key = pid_key (pid (process a))
    ∧ process a ∈ children s
    ∧ (status a = "running" ∨ status a = "stopped").
Proof.
  assert (Hinit : filed init).
  { intros key a Ha. simpl in Ha. by rewrite lookup_empty in Ha. }
  revert Hinit. generalize init as s0.
  induction ls as [|l ls IH]; simpl; intros s0 Hs0.
  - by intros [= <-].
  - destruct (step l s0) as [s1|] eqn:Hstep; [|discriminate].
    apply IH. by eapply filed_step.
Qed.

Lemma registered_step (l : label) (s s' : state) (key : string) :
  step l s = Some s' → is_Some (agents s !! key) → is_Some (agents s' !! key).
Proof.
  intros Hstep Hkey. destruct l as [req os_pid|i|pid']; simpl in Hstep.
  - assert (Hstart : s' = (startAgent req os_pid s).2).
    { destruct os_pid; [|destruct (missing req)]; congruence. }
    subst s'. clear Hstep. unfold startAgent.
    destruct (missing req); simpl; [exact Hkey|].
    apply lookup_insert_is_Some'. by right.
  - destruct (children s !! i) as [child|]; [|discriminate].
    injection Hstep as <-. unfold on_exit.
    destruct (get _ s); simpl; [|exact Hkey|exact Hkey].
    apply lookup_insert_is_Some'. by right.
  - injection Hstep as <-. unfold stopAgent.
    destruct (get _ s); simpl; [|exact Hkey|exact Hkey].
    apply lookup_insert_is_Some'. by right.
Qed.

(** The registry never forgets an agent while the server lives: whatever
    the server goes through after an agent was registered (its exit, its
    stop, other starts that spawn), [GetAgentStatus] answers for its pid
    with a status, and [StopAgent] answers with success and signals the
    registered process once more. *)
Theorem registered_agent_is_never_forgotten
    (ls : list label) (s s' : state) (key : string) :
  is_Some (agents s !! key) → run ls s = Some s' →
  ∃ a, agents s' !! key = Some a
       ∧ getAgentStatus key s' = Ok (key, Some (status a))
       ∧ (stopAgent key s').1 = Ok true
       ∧ killed (stopAgent key s').2 = killed s' ++ [process a].
Proof.
  intros Hkey Hrun.
  assert (Hkey' : is_Some (agents s' !! key)).
  { revert s Hkey Hrun. induction ls as [|l ls IH]; simpl; intros s Hkey.
    - by intros [= <-].
    - destruct (step l s) as [s1|] eqn:Hstep; [|discriminate].
      apply IH. by eapply registered_step. }
  destruct Hkey' as [a Ha]. exists a. split; [exact Ha|].
  unfold getAgentStatus, stopAgent. rewrite (get_own _ _ _ Ha). done.
Qed.

Definition request : StartAgentRequest :=
  {| character := Some "{ name: agent }";
     twitter := Some {| username := Some "agent"; token := Some "token";
                        secret := Some "secret" |} |}.

(** An agent is started, exits, and is stopped. *)
Definition life : list label := [Start request (Some 4242%N); Exit 0; Stop "4242"].

Definition after_life : state := default init (run life init).

Lemma registry_is_filed_by_pid_witness :
  run life init = Some after_life
  ∧ ∀ key a, agents after_life !! key = Some a →
      key = pid_key (pid (process a))
      ∧ process a ∈ children after_life
      ∧ (status a = "running" ∨ status a = "stopped").
Proof.
  split; [reflexivity|].
  exact (registry_is_filed_by_pid life after_life eq_refl).
Defined.

Lemma registered_agent_is_never_forgotten_witness :
  let s := (startAgent request (Some 4242%N) init).2 in
  is_Some (agents s !! "4242")
  ∧ ∃ a, agents after_life !! "4242" = Some a
         ∧ getAgentStatus "4242" after_life = Ok ("4242", Some (status a))
         ∧ (stopAgent "4242" after_life).1 = Ok true
         ∧ killed (stopAgent "4242" after_life).2 = killed after_life ++ [process a].
Proof.
  assert (Hkey : is_Some (agents (startAgent request (Some 4242%N) init).2 !! "4242")).
  { eexists. vm_compute. reflexivity. }
  split; [exact Hkey|].
  exact (registered_agent_is_never_forgotten [Exit 0; Stop "4242"] _ after_life "4242"
           Hkey eq_refl).
Defined.

End Registry.

(* ===================================================================== *)
(** * The client base: the tweet cache ([getTweet]) *)
(* ===================================================================== *)

Module TweetCache.
Import ThreadBuilder.

(** A tweet as the platform returns it ([TweetV2]), and a user ([UserV2]). *)
Record TweetV2 := {
  v2_id : string;
  v2_text : string;
  v2_author_id : string;
  v2_conversation_id : option string;
  v2_in_reply_to_user_id : option string;
  v2_created_at : option string
}.

Record UserV2 := { user_username : string; user_name : string }.

(** A request sent to the platform through the request queue. *)
Inductive call := SingleTweet (tweetId : string) | User (userId : string).

(** The tweets of [runtime.cacheManager] by key, and the requests made so
    far. *)
Record state := {
  cache : gmap string TweetData;
  calls : list call
}.

Definition key (tweetId : string) : string := "twitter/tweets/" +:+ tweetId.

(** [cacheTweet(tweet)], for a tweet that is there. *)
Definition cacheTweet (tweet : TweetData) (s : state) : state :=
  {| cache := <[key (id tweet) := tweet]> (cache s); calls := calls s |}.

Definition getCachedTweet (tweetId : string) (s : state) : option TweetData :=
  cache s !! key tweetId.

Definition request (c : call) (s : state) : state :=
  {| cache := cache s; calls := calls s ++ [c] |}.

Section Platform.

(** The answers of the platform; [None] is a request that rejects or
    resolves without [data]. *)
Variable singleTweet : string → option TweetV2.
Variable user : string → option UserV2.

(** [getTweet(tweetId)]. *)
Definition getTweet (tweetId : string) (s : state) : fetched * state :=
  match getCachedTweet tweetId s with
  | Some cachedTweet => (Found cachedTweet, s)
  | None =>
      let s1 := request (SingleTweet tweetId) s in
      match singleTweet tweetId with
      | None => (FetchFailed, s1)
      | Some tweet =>
          let s2 := request (User (v2_author_id tweet)) s1 in
          match user (v2_author_id tweet) with
          | None => (FetchFailed, s2)
          | Some tweetUser =>
              let tweetData :=
                {| id := v2_id tweet; text := v2_text tweet;
                   author_id := v2_author_id tweet;
                   conversation_id := v2_conversation_id tweet;
                   in_reply_to_user_id := v2_in_reply_to_user_id tweet;
                   created_at := v2_created_at tweet;
                   username := user_username tweetUser;
                   name := user_name tweetUser |} in
              (Found tweetData, cacheTweet tweetData s2)
          end
      end
  end.

(** Every cached tweet is filed under its own id, as [cacheTweet] does. *)
Definition keyed (s : state) : Prop :=
  ∀ k t, cache s !! k = Some t → k = key (id t).

Lemma key_inj (a b : string) : key a = key b → a = b.
Proof. unfold key. simpl. intros H. by injection H. Qed.

(** A tweet that [getTweet] has returned is served from the cache from then
    on, under its own id: the next [getTweet] of this id returns the same
    tweet and sends no request.  (A tweet that the platform returned with
    another id than the one asked for is filed under its own id, not under
    the one asked for.) *)
Theorem returned_tweet_is_served_from_cache
    (tweetId : string) (s s1 : state) (t : TweetData) :
  keyed s → getTweet tweetId s = (Found t, s1) →
  keyed s1 ∧ getTweet (id t) s1 = (Found t, s1)
  ∧ (id t ≠ tweetId → getCachedTweet tweetId s1 = None).
Proof.
  intros Hkeyed. unfold getTweet, getCachedTweet.
  destruct (cache s !! key tweetId) as [cached|] eqn:Hhit.
  - intros [= <- <-]. split; [exact Hkeyed|].
    pose proof (Hkeyed _ _ Hhit) as Hkey. apply key_inj in Hkey. subst tweetId.
    rewrite Hhit. split; [reflexivity | congruence].
  - destruct (singleTweet tweetId) as [tweet|]; [|discriminate].
    destruct (user (v2_author_id tweet)) as [tweetUser|]; [|discriminate].
    intros [= <- <-]. unfold keyed, cacheTweet. cbn [cache request id].
    split; [|split].
    + intros k t. destruct (decide (k = key (v2_id tweet))) as [->|Hne].
      * rewrite lookup_insert_eq. by intros [= <-].
      * rewrite lookup_insert_ne by congruence. apply Hkeyed.
    + by rewrite lookup_insert_eq.
    + intros Hother. rewrite lookup_insert_ne; [exact Hhit|].
      intros Heq. apply key_inj in Heq. congruence.
Qed.

(** A tweet in the cache is returned without a request to the platform, and
    a miss costs at most two requests. *)
Lemma getTweet_calls (tweetId : string) (s : state) :
  ∃ new, calls (getTweet tweetId s).2 = calls s ++ new
         ∧ (length new ≤ 2)%nat
         ∧ (is_Some (getCachedTweet tweetId s) → new = []).
Proof.
  unfold getTweet. destruct (getCachedTweet tweetId s) as [cached|].
  - exists []. rewrite app_nil_r. simpl. auto.
  - destruct (singleTweet tweetId) as [tweet|]; simpl.
    + destruct (user _); simpl; eexists [_; _]; rewrite <- app_assoc;
        (split; [reflexivity|]); (split; [simpl; lia|]); by intros [? ?].
    + eexists [_]. split; [reflexivity|]. split; [simpl; lia|]. by intros [? ?].
Qed.

End Platform.

Definition platformTweet : TweetV2 :=
  {| v2_id := "a"; v2_text := "text of a"; v2_author_id := "7";
     v2_conversation_id := Some "a"; v2_in_reply_to_user_id := None;
     v2_created_at := None |}.

Definition empty : state := {| cache := ∅; calls := [] |}.

Lemma returned_tweet_is_served_from_cache_witness :
  let singleTweet := λ _ : string, Some platformTweet in
  let user := λ _ : string, Some {| user_username := "ann"; user_name := "Ann" |} in
  let r := getTweet singleTweet user "a" empty in
  ∃ t, r.1 = Found t ∧ keyed empty
       ∧ keyed r.2 ∧ getTweet singleTweet user (id t) r.2 = (Found t, r.2)
       ∧ (id t ≠ "a" → getCachedTweet "a" r.2 = None).
Proof.
  intros singleTweet user r.
  assert (Hkeyed : keyed empty).
  { intros k t Hk. simpl in Hk. by rewrite lookup_empty in Hk. }
  eexists. split; [reflexivity|]. split; [exact Hkeyed|].
  exact (returned_tweet_is_served_from_cache singleTweet user "a" empty r.2 _
           Hkeyed eq_refl).
Defined.

End TweetCache.

(* ===================================================================== *)
(** * Sending a thread ([sendTweet]) *)
(* ===================================================================== *)

Module SendTweet.
Import ThreadBuilder.

(** The answer to a post: [result.data] with the id of the new tweet, a
    result without [data], or a rejection. *)
Inductive posted := Sent (tweetId : string) | NoData | PostFailed.

(** A call of [v2.tweet(text, { reply: { in_reply_to_tweet_id } })]. *)
Record Post := {
  post_text : list N;
  in_reply_to_tweet_id : string
}.

(** The variables of the loop over the chunks, and the posts made. *)
Record Sending := {
  posts : list Post;
  sentTweets : list TweetData;
  previousTweetId : string
}.

Inductive sent := Memories (ms : list Memory) | SendFailed.

Section Send.

Variable stringToUuid : string → UUID.
Variable getTime : option string → Z.
Variable client : Client.

(** [client.twitterConfig.MAX_TWEET_LENGTH]. *)
Variable maxTweetLength : Z.

(** The platform's answer to the post number [k] (through the request
    queue, which passes a rejection on to the caller). *)
Variable tweet : nat → Post → posted.

(** Whether the attachments of the content load for the chunk number [k];
    they are loaded anew for every chunk and the data are not used.  [true]
    when the content has no attachment. *)
Variable loadMedia : nat → bool.

(** The loop [for (const chunk of tweetChunks)]. *)
Fixpoint send (chunks : list (list N)) (st : Sending) : outcome * Sending :=
  match chunks with
  | [] => (Completed, st)
  | chunk :: rest =>
      if loadMedia (length (posts st)) then
        let post := {| post_text := Text.trim chunk;
                       in_reply_to_tweet_id := previousTweetId st |} in
        let st1 := {| posts := posts st ++ [post]; sentTweets := sentTweets st;
                      previousTweetId := previousTweetId st |} in
        match tweet (length (posts st)) post with
        | Sent tweetId =>
            match getTweet client tweetId with
            | Found finalTweet =>
                send rest {| posts := posts st1;
                             sentTweets := sentTweets st ++ [finalTweet];
                             previousTweetId := id finalTweet |}
            | NoTweet => (Thrown, st1)
            | FetchFailed => (Thrown, st1)
            end
        | NoData => send rest st1
        | PostFailed => (Thrown, st1)
        end
      else (Thrown, st)
  end.

(** The memory built for a sent tweet. *)
Definition memoryOfSent (room : UUID) (t : TweetData) : Memory :=
  {| memory_id := stringToUuid (id t +:+ "-" +:+ agentId client);
     memory_agentId := agentId client;
     content :=
       {| content_text := text t;
          source := "twitter";
          url := id t;
          inReplyTo :=
            if truthy (in_reply_to_user_id t)
            then Some (stringToUuid
                         (js_string (in_reply_to_user_id t) +:+ "-" +:+ agentId client))
            else None |};
     createdAt := getTime (created_at t);
     roomId := room;
     userId := agentId client |}.

(** [sendTweet(client, content, roomId, twitterUsername, inReplyTo)], with
    the posts it made. *)
Definition sendTweet (content_text : list N) (room : UUID) (inReplyTo : string)
    : sent * list Post :=
  let tweetChunks := TweetSplit.splitTweetContent content_text maxTweetLength in
  match send tweetChunks
          {| posts := []; sentTweets := []; previousTweetId := inReplyTo |} with
  | (Completed, st) => (Memories (memoryOfSent room <$> sentTweets st), posts st)
  | (Thrown, st) => (SendFailed, posts st)
  end.

(** The id that the loop keeps after the post number [k]: the id of the
    tweet that [client.getTweet] returned for the posted one, if any. *)
Definition kept (k : nat) (post : Post) : option string :=
  match tweet k post with
  | Sent tweetId =>
      match getTweet client tweetId with
      | Found finalTweet => Some (id finalTweet)
      | _ => None
      end
  | _ => None
  end.

(** The posts from number [k] on form a chain of replies that starts at
    [previous]: each post replies to the id kept last. *)
Fixpoint chain (k : nat) (previous : string) (ps : list Post) : Prop :=
  match ps with
  | [] => True
  | post :: ps' =>
      in_reply_to_tweet_id post = previous
      ∧ chain (S k) (default previous (kept k post)) ps'
  end.

Lemma send_spec (chunks : list (list N)) (st st' : Sending) (o : outcome) :
  send chunks st = (o, st') →
  ∃ new found,
    posts st' = posts st ++ new
    ∧ sentTweets st' = sentTweets st ++ found
    ∧ (length found ≤ length new)%nat
    ∧ post_text <$> new `prefix_of` Text.trim <$> chunks
    ∧ (o = Completed → post_text <$> new = Text.trim <$> chunks)
    ∧ chain (length (posts st)) (previousTweetId st) new.
Proof.
  revert st st' o. induction chunks as [|chunk rest IH]; intros st st' o; simpl.
  { intros [= <- <-]. exists [], []. rewrite !app_nil_r. simpl.
    repeat split; [lia | done]. }
  destruct (loadMedia (length (posts st))).
  2: { intros [= <- <-]. exists [], []. rewrite !app_nil_r. simpl.
       repeat split; [lia | apply prefix_nil | discriminate]. }
  set (post := {| post_text := Text.trim chunk;
                  in_reply_to_tweet_id := previousTweetId st |}).
  assert (Hstop : ∀ tws : list TweetData,
    kept (length (posts st)) post = None →
    ∃ (new : list Post) (found : list TweetData),
      posts st ++ [post] = posts st ++ new
      ∧ tws = tws ++ found
      ∧ (length found ≤ length new)%nat
      ∧ post_text <$> new `prefix_of` Text.trim chunk :: (Text.trim <$> rest)
      ∧ (Thrown = Completed →
         post_text <$> new = Text.trim chunk :: (Text.trim <$> rest))
      ∧ chain (length (posts st)) (previousTweetId st) new).
  { intros tws Hkept. exists [post], []. rewrite app_nil_r. simpl.
    repeat split; [lia | | discriminate].
    apply prefix_cons, prefix_nil. }
  assert (Hnext : ∀ st1 st' o,
    posts st1 = posts st ++ [post] →
    (∃ found1, sentTweets st1 = sentTweets st ++ found1 ∧ (length found1 ≤ 1)%nat) →
    previousTweetId st1
    = default (previousTweetId st) (kept (length (posts st)) post) →
    send rest st1 = (o, st') →
    ∃ new found,
      posts st' = posts st ++ new
      ∧ sentTweets st' = sentTweets st ++ found
      ∧ (length found ≤ length new)%nat
      ∧ post_text <$> new `prefix_of` Text.trim chunk :: (Text.trim <$> rest)
      ∧ (o = Completed →
         post_text <$> new = Text.trim chunk :: (Text.trim <$> rest))
      ∧ chain (length (posts st)) (previousTweetId st) new).
  { intros st1 st'' o' Hposts (found1 & Hsent & Hone) Hprev Hsend.
    destruct (IH _ _ _ Hsend) as (new & found & Hp & Hs & Hlen & Hpre & Hall & Hchain).
    exists (post :: new), (found1 ++ found).
    rewrite Hp, Hs, Hposts, Hsent, <- !app_assoc.
    split; [reflexivity|]. split; [reflexivity|].
    split; [rewrite length_app; simpl; lia|].
    rewrite fmap_cons. change (post_text post) with (Text.trim chunk).
    split; [by apply prefix_cons|].
    split; [intros Ho; by rewrite (Hall Ho)|].
    cbn [chain]. split; [reflexivity|].
    rewrite Hposts, length_app, Nat.add_1_r, Hprev in Hchain. exact Hchain. }
  unfold kept in Hstop, Hnext.
  destruct (tweet (length (posts st)) post) as [tweetId| |] eqn:Hpost.
  - destruct (getTweet client tweetId) as [finalTweet| |] eqn:Hfinal.
    + intros Hsend. refine (Hnext _ _ _ _ _ _ Hsend); simpl; [reflexivity| |reflexivity].
      exists [finalTweet]. simpl. split; [reflexivity | lia].
    + intros [= <- <-]. by apply Hstop.
    + intros [= <- <-]. by apply Hstop.
  - intros Hsend. refine (Hnext _ _ _ _ _ _ Hsend); simpl; [reflexivity| |reflexivity].
    exists []. simpl. rewrite app_nil_r. split; [reflexivity | lia].
  - intros [= <- <-]. by apply Hstop.
Qed.

Lemma trimmed_chunks (chunks : list (list N)) :
  Forall TweetSplit.trimmed chunks → Text.trim <$> chunks = chunks.
Proof.
  induction 1 as [|chunk chunks Hchunk _ IH]; [reflexivity|].
  rewrite fmap_cons, IH. unfold TweetSplit.trimmed in Hchunk. by rewrite Hchunk.
Qed.

(** The texts that [sendTweet] posts are the chunks of [splitTweetContent],
    unchanged and in order: all of them when it returns, the first of them
    when it rejects; and it returns at most one memory for each post. *)
Theorem posted_texts_are_the_chunks
    (content_text : list N) (room : UUID) (inReplyTo : string) :
  let r := sendTweet content_text room inReplyTo in
  post_text <$> r.2
    `prefix_of` TweetSplit.splitTweetContent content_text maxTweetLength
  ∧ match r.1 with
    | Memories ms =>
        post_text <$> r.2 = TweetSplit.splitTweetContent content_text maxTweetLength
        ∧ (length ms ≤ length r.2)%nat
    | SendFailed => True
    end.
Proof.
  unfold sendTweet.
  pose proof (TweetSplit.splitTweetContent_trimmed content_text maxTweetLength)
    as Htrimmed.
  apply trimmed_chunks in Htrimmed.
  destruct (send _ _) as [o st] eqn:Hsend.
  destruct (send_spec _ _ _ _ Hsend)
    as (new & found & Hp & Hs & Hlen & Hpre & Hall & _).
  simpl in Hp, Hs. rewrite Htrimmed in Hpre, Hall. rewrite <- Hp in Hpre, Hall, Hlen.
  rewrite <- Hs in Hlen.
  destruct o; simpl.
  - split; [exact Hpre|]. split; [by apply Hall|].
    rewrite length_fmap. exact Hlen.
  - split; [exact Hpre | exact I].
Qed.

(** The posts of [sendTweet] form a chain of replies: the first post replies
    to [inReplyTo], and every later post to the id of the tweet that
    [client.getTweet] returned for the last post that came back with data; a
    post that came back without data is passed over. *)
Theorem posts_form_a_reply_chain
    (content_text : list N) (room : UUID) (inReplyTo : string) :
  chain 0 inReplyTo (sendTweet content_text room inReplyTo).2.
Proof.
  unfold sendTweet.
  destruct (send _ _) as [o st] eqn:Hsend.
  destruct (send_spec _ _ _ _ Hsend) as (new & found & Hp & _ & _ & _ & _ & Hchain).
  simpl in Hp, Hchain. destruct o; simpl; by rewrite Hp.
Qed.

End Send.

(** A client whose [getTweet] finds every tweet, and a platform that
    answers the second post without data. *)
Definition echoClient : Client :=
  {| agentId := "agent"; profile := Some agentProfile;
     getTweet := λ i, Found (ThreadBuilder.tweet i None) |}.

Definition platform (k : nat) (post : Post) : posted :=
  if (k =? 1)%nat then NoData else Sent ("t" +:+ pretty k).

Example thread_text_is_sent :
  (sendTweet (λ s, s) (λ _, 0) echoClient 12 platform (λ _, true)
     TweetSplit.thread_text "room" "root").2
  = [ {| post_text := Text.codes "Hi there."; in_reply_to_tweet_id := "root" |};
      {| post_text := Text.codes "How are"; in_reply_to_tweet_id := "t0" |};
      {| post_text := Text.codes "you?!"; in_reply_to_tweet_id := "t0" |};
      {| post_text := Text.codes "fine thanks."; in_reply_to_tweet_id := "t2" |};
      {| post_text := Text.codes "And" ++ TweetSplit.blankLine ++ Text.codes "more.";
         in_reply_to_tweet_id := "t3" |} ].
Proof. vm_compute. reflexivity. Qed.

End SendTweet.

(* ===================================================================== *)
(** * Numeric settings ([safeParseInt]) *)
(* ===================================================================== *)

Module Settings.
Import Text.

(** The value of a decimal digit. *)
Definition digit (c : N) : option Z :=
  if (48 <=? c)%N && (c <=? 57)%N then Some (Z.of_N c - 48) else None.

(** The value of the longest prefix of [s] made of decimal digits, read
    after digits of value [acc]; [seen] tells whether a digit was read.
    [None] is a prefix without digit. *)
Fixpoint digits (acc : Z) (seen : bool) (s : list N) : option Z :=
  match s with
  | [] => if seen then Some acc else None
  | c :: s' =>
      match digit c with
      | Some d => digits (acc * 10 + d) true s'
      | None => if seen then Some acc else None
      end
  end.

(** [parseInt(string, 10)]: leading white space is skipped, a sign is read,
    then the longest prefix of digits; [None] is [NaN].  The result is the
    integer that the digits denote, which is JavaScript's number as long as
    it is below [2 ^ 53]. *)
Definition parseInt (string : list N) : option Z :=
  match trimStart string with
  | 45%N :: s => Z.opp <$> digits 0 false s
  | 43%N :: s => digits 0 false s
  | s => digits 0 false s
  end.

(** [safeParseInt(value, defaultValue)]; [None] is [undefined] or
    [null]. *)
Definition safeParseInt (value : option (list N)) (defaultValue : Z) : Z :=
  match value with
  | None => defaultValue
  | Some [] => defaultValue
  | Some v =>
      match parseInt v with
      | None => defaultValue
      | Some parsed => Z.max 1 parsed
      end
  end.

Definition digit_code (d : N) : N := Ascii.N_of_ascii (pretty_N_char d).

Lemma digit_code_value (d : N) : (d < 10)%N → digit_code d = (48 + d)%N.
Proof.
  intros Hd.
  assert (d = 0 ∨ d = 1 ∨ d = 2 ∨ d = 3 ∨ d = 4 ∨ d = 5 ∨ d = 6 ∨ d = 7
          ∨ d = 8 ∨ d = 9)%N as Hcases by lia.
  repeat destruct Hcases as [->|Hcases]; try subst d; reflexivity.
Qed.

Lemma digit_digit_code (d : N) : (d < 10)%N → digit (digit_code d) = Some (Z.of_N d).
Proof.
  intros Hd. rewrite digit_code_value by exact Hd. unfold digit.
  rewrite (proj2 (N.leb_le _ _)) by lia. rewrite (proj2 (N.leb_le _ _)) by lia.
  simpl. f_equal. lia.
Qed.

Lemma codes_String (c : Ascii.ascii) (s : string) :
  codes (String c s) = Ascii.N_of_ascii c :: codes s.
Proof. reflexivity. Qed.

(** Reading the numeral of [x] printed in front of [s]. *)
Lemma digits_pretty_go (x : N) (s : string) (rest : list N) :
  (0 < x)%N →
  digits 0 false (codes (pretty_N_go x s) ++ rest)
  = digits (Z.of_N x) true (codes s ++ rest).
Proof.
  revert s. induction (N.lt_wf_0 x) as [x _ IH]; intros s Hpos.
  rewrite pretty_N_go_step by exact Hpos.
  assert (Hmod : (x `mod` 10 < 10)%N) by (apply N.mod_lt; lia).
  pose proof (N.div_mod x 10 ltac:(lia)) as Hx.
  destruct (decide (x `div` 10 = 0)%N) as [Hzero|Hmore].
  - rewrite Hzero, pretty_N_go_0, codes_String. simpl.
    fold (digit_code (x `mod` 10)). rewrite digit_digit_code by exact Hmod.
    f_equal. lia.
  - rewrite IH; [|apply N.div_lt; lia|by apply N.neq_0_lt_0].
    rewrite codes_String. simpl.
    fold (digit_code (x `mod` 10)). rewrite digit_digit_code by exact Hmod.
    f_equal. lia.
Qed.

Lemma pretty_go_head (x : N) (s : string) :
  (0 < x)%N → ∃ d tl, (d < 10)%N ∧ pretty_N_go x s = String (pretty_N_char d) tl.
Proof.
  revert s. induction (N.lt_wf_0 x) as [x _ IH]; intros s Hpos.
  rewrite pretty_N_go_step by exact Hpos.
  destruct (decide (x `div` 10 = 0)%N) as [Hzero|Hmore].
  - rewrite Hzero, pretty_N_go_0. exists (x `mod` 10)%N, s.
    split; [apply N.mod_lt; lia | reflexivity].
  - apply IH; [apply N.div_lt; lia | by apply N.neq_0_lt_0].
Qed.

(** A numeral begins with a digit. *)
Lemma pretty_head (n : N) :
  ∃ d tl, (d < 10)%N ∧ codes (pretty n) = digit_code d :: tl.
Proof.
  unfold pretty, pretty_N. destruct (decide (n = 0)%N) as [->|Hn].
  - exists 0%N, []. split; [lia | reflexivity].
  - destruct (pretty_go_head n EmptyString) as (d & tl & Hd & ->); [lia|].
    exists d, (codes tl). split; [exact Hd | reflexivity].
Qed.

Lemma digits_pretty (n : N) (rest : list N) :
  head rest ≫= digit = None →
  digits 0 false (codes (pretty n) ++ rest) = Some (Z.of_N n).
Proof.
  intros Hrest.
  assert (Hend : ∀ acc, digits acc true rest = Some acc).
  { intros acc. destruct rest as [|c rest]; [reflexivity|].
    simpl in *. by rewrite Hrest. }
  unfold pretty, pretty_N. destruct (decide (n = 0)%N) as [->|Hn].
  - simpl. apply Hend.
  - rewrite digits_pretty_go by lia. simpl. apply Hend.
Qed.

Lemma parseInt_numeral (n : N) (rest : list N) :
  head rest ≫= digit = None →
  parseInt (codes (pretty n) ++ rest) = Some (Z.of_N n)
  ∧ parseInt (45%N :: codes (pretty n) ++ rest) = Some (- Z.of_N n).
Proof.
  intros Hrest. pose proof (digits_pretty n rest Hrest) as Hdigits.
  split.
  - unfold parseInt. destruct (pretty_head n) as (d & tl & Hd & Hhead).
    rewrite Hhead in *. rewrite digit_code_value in * by exact Hd.
    assert (d = 0 ∨ d = 1 ∨ d = 2 ∨ d = 3 ∨ d = 4 ∨ d = 5 ∨ d = 6 ∨ d = 7
            ∨ d = 8 ∨ d = 9)%N as Hcases by lia.
    repeat destruct Hcases as [->|Hcases]; try subst d; exact Hdigits.
  - unfold parseInt. change (trimStart (45%N :: ?s)) with (45%N :: s).
    cbv iota beta. by rewrite Hdigits.
Qed.

(** [safeParseInt] reads the numeral at the beginning of a setting and
    ignores what follows it; a value below 1 is raised to 1, and so is every
    negative numeral.  (Numerals from [2 ^ 53] on are rounded by
    JavaScript.) *)
Theorem safeParseInt_reads_the_leading_numeral
    (n : N) (rest : list N) (defaultValue : Z) :
  (n < 2 ^ 53)%N →
  head rest ≫= digit = None →
  safeParseInt (Some (codes (pretty n) ++ rest)) defaultValue = Z.max 1 (Z.of_N n)
  ∧ safeParseInt (Some (45%N :: codes (pretty n) ++ rest)) defaultValue = 1.
Proof.
  intros _ Hrest. destruct (parseInt_numeral n rest Hrest) as [Hplain Hminus].
  unfold safeParseInt. rewrite Hminus. split; [|lia].
  destruct (pretty_head n) as (d & tl & _ & Hhead).
  destruct (codes (pretty n) ++ rest) as [|c v] eqn:Hv.
  { rewrite Hhead in Hv. discriminate. }
  by rewrite Hplain.
Qed.

Example safeParseInt_examples :
  safeParseInt (Some (codes "0")) 5 = 1
  ∧ safeParseInt (Some (codes " 15 minutes")) 5 = 15
  ∧ safeParseInt (Some (codes "1.9")) 5 = 1
  ∧ safeParseInt (Some (codes "-3")) 5 = 1
  ∧ safeParseInt (Some (codes "soon")) 0 = 0
  ∧ safeParseInt None 0 = 0.
Proof. vm_compute. repeat split. Qed.

Lemma safeParseInt_reads_the_leading_numeral_witness :
  safeParseInt (Some (codes "280" ++ codes " characters")) 5 = Z.max 1 280
  ∧ safeParseInt (Some (45%N :: codes "280" ++ codes " characters")) 5 = 1.
Proof.
  apply (safeParseInt_reads_the_leading_numeral 280 (codes " characters") 5).
  - reflexivity.
  - reflexivity.
Defined.

End Settings.

(* ===================================================================== *)
(** * Simulated replies ([generateReply]) *)
(* ===================================================================== *)

Module Simulation.
Import ThreadBuilder.

(** The client that [generateReply] uses after [client.init()]: its profile
    is the one that [init] left. *)
Definition simulationClient (agent : UUID) (s : Client.state)
    (getTweet : string → fetched) : ThreadBuilder.Client :=
  {| agentId := agent; profile := Client.profile s; getTweet := getTweet |}.

Section Reply.

Variable stringToUuid : string → UUID.
Variable getTime : option string → Z.

(** [await buildConversationThread(tweet, client).catch(() => [])]: the
    depth limit is left out, so it is 10. *)
Definition conversation (client : ThreadBuilder.Client) (fuel : nat)
    (tweet : TweetData) (d : Store) : option (list TweetData * Store) :=
  match buildConversationThread stringToUuid getTime client 10 fuel tweet d with
  | Some (ThreadBuilder.Returned th, d') => Some (th, d')
  | Some (Rejected, d') => Some ([], d')
  | None => None
  end.

(** The client of a simulation has no profile: [generateReply] configures no
    access token, so [init] returns after the app login.  The thread of a
    tweet that has no memory row yet is therefore empty: the memory step
    throws on [client.profile!.id], the rejection is turned into [[]], and
    no memory is written. *)
Theorem simulated_reply_has_no_thread
    (appLogin construct : nat → bool)
    (fetchProfile : string → Client.profile_result)
    (latestChecked : Client.cached_id) (s : Client.state)
    (agent : UUID) (getTweet : string → fetched)
    (tweet : TweetData) (d : Store) (extra : nat) :
  Client.init appLogin construct fetchProfile latestChecked Client.simulatorConfig
    Client.fresh
  = (Client.Returned, s) →
  getMemoryById (memoryKey stringToUuid (simulationClient agent s getTweet) tweet) d
  = None →
  Client.profile s = None
  ∧ ∃ d', conversation (simulationClient agent s getTweet) (enough 10 + extra) tweet d
          = Some ([], d')
          ∧ memories d' = memories d.
Proof.
  intros Hinit Hrow.
  assert (Hprofile : Client.profile s = None).
  { unfold Client.init in Hinit. simpl in Hinit.
    unfold Client.attempt, Client.no_credentials in Hinit. simpl in Hinit.
    destruct (appLogin 0%nat); [|discriminate]. by injection Hinit as <-. }
  split; [exact Hprofile|].
  unfold conversation, buildConversationThread.
  change (enough 10 + extra)%nat with (S (10 + extra)).
  cbn [processThread]. rewrite bool_decide_eq_false_2 by lia.
  unfold persist. cbn [store]. rewrite Hrow. cbn [profile simulationClient].
  rewrite Hprofile. eexists. split; reflexivity.
Qed.

End Reply.

Lemma simulated_reply_has_no_thread_witness :
  let s := (Client.init (λ _, true) (λ _, true) Client.noProfileYet Client.NoId
              Client.simulatorConfig Client.fresh).2 in
  Client.profile s = None
  ∧ ∃ d', conversation (λ x, x) (λ _, 0) (simulationClient "agent" s (getTweet chainClient))
            (enough 10 + 0) tweetD emptyStore
          = Some ([], d')
          ∧ memories d' = memories emptyStore.
Proof.
  exact (simulated_reply_has_no_thread (λ x, x) (λ _, 0) (λ _, true) (λ _, true)
           Client.noProfileYet Client.NoId _ "agent" (getTweet chainClient)
           tweetD emptyStore 0 eq_refl eq_refl).
Defined.

End Simulation.

(* ===================================================================== *)
(** * The worker's environment ([parseCharacterFromEnv]) *)
(* ===================================================================== *)

Module Worker.
Import Supervisor.

(** [env.KEY] in an environment given as a list in which an earlier entry
    wins (the variables that [spawn] adds come before the inherited
    ones). *)
Definition getenv (key : string) (env : list (string * string)) : option string :=
  snd <$> List.find (λ p, String.eqb p.1 key) env.

(** [config.twitter]. *)
Record TwitterKeys := {
  consumerKey : option string;
  consumerSecret : option string
}.

(** The character with the secrets put over its settings, or the error
    "Invalid CHARACTER.". *)
Inductive parsed (C : Type) :=
| Parsed (character : C) (secrets : list (string * option string))
| InvalidCharacter.
Arguments Parsed {C} character secrets.
Arguments InvalidCharacter {C}.

Section Parse.

Variable C : Type.

(** [JSON.parse] of a text as an object; [None] when it throws or gives no
    object. *)
Variable JSON_parse : string → option C.

Variable config : TwitterKeys.

(** [parseCharacterFromEnv(env)]. *)
Definition parseCharacterFromEnv (env : list (string * string)) : parsed C :=
  let twitterConfig :=
    [("TWITTER_APP_KEY", consumerKey config);
     ("TWITTER_APP_SECRET", consumerSecret config);
     ("TWITTER_USERNAME", getenv "TWITTER_USERNAME" env);
     ("TWITTER_ACCESS_TOKEN", getenv "TWITTER_ACCESS_TOKEN" env);
     ("TWITTER_ACCESS_SECRET", getenv "TWITTER_ACCESS_SECRET" env)] in
  if forallb (λ p, truthy p.2) twitterConfig then
    match getenv "CHARACTER" env ≫= JSON_parse with
    | Some character => Parsed character twitterConfig
    | None => InvalidCharacter
    end
  else InvalidCharacter.

(** The worker of a request that [startAgent] accepted finds the four
    variables of the request in its environment: with the application keys
    configured, [parseCharacterFromEnv] fails only when the character of the
    request is not JSON, which [startAgent] does not check. *)
Theorem accepted_request_reaches_the_worker
    (req : StartAgentRequest) (tw : TwitterCredentials) (os_pid : option N)
    (inherited : list (string * string)) :
  missing req = false → twitter req = Some tw →
  truthy (consumerKey config) = true → truthy (consumerSecret config) = true →
  parseCharacterFromEnv (env (spawn req os_pid) ++ inherited)
  = match character req ≫= JSON_parse with
    | Some c =>
        Parsed c [("TWITTER_APP_KEY", consumerKey config);
                  ("TWITTER_APP_SECRET", consumerSecret config);
                  ("TWITTER_USERNAME", username tw);
                  ("TWITTER_ACCESS_TOKEN", token tw);
                  ("TWITTER_ACCESS_SECRET", secret tw)]
    | None => InvalidCharacter
    end.
Proof.
  intros Hvalid Htw Hkey Hsecret. unfold missing in Hvalid. rewrite Htw in Hvalid.
  apply orb_false_iff in Hvalid as [Hc Hfields].
  apply orb_false_iff in Hfields as [Hfields Hs].
  apply orb_false_iff in Hfields as [Hu Ht].
  apply negb_false_iff in Hc, Hu, Ht, Hs.
  unfold parseCharacterFromEnv, spawn, getenv. rewrite Htw. simpl.
  destruct (character req) as [c|]; [|discriminate].
  destruct (username tw) as [u|]; [|discriminate].
  destruct (token tw) as [t|]; [|discriminate].
  destruct (secret tw) as [x|]; [|discriminate].
  simpl in *. rewrite Hkey, Hsecret, Hu, Ht, Hs. reflexivity.
Qed.

End Parse.

Lemma accepted_request_reaches_the_worker_witness :
  let keys := {| consumerKey := Some "key"; consumerSecret := Some "secret" |} in
  let tw := {| username := Some "agent"; token := Some "token";
               secret := Some "secret" |} in
  let req := {| character := Some "not json"; twitter := Some tw |} in
  parseCharacterFromEnv unit (λ _, None) keys
    (env (spawn req (Some 4242%N)) ++ [("PATH", "/usr/bin")])
  = InvalidCharacter.
Proof.
  exact (accepted_request_reaches_the_worker unit (λ _, None)
           {| consumerKey := Some "key"; consumerSecret := Some "secret" |}
           {| character := Some "not json";
              twitter := Some {| username := Some "agent"; token := Some "token";
                                 secret := Some "secret" |} |}
           {| username := Some "agent"; token := Some "token";
              secret := Some "secret" |}
           (Some 4242%N) [("PATH", "/usr/bin")]
           eq_refl eq_refl eq_refl eq_refl).
Defined.

End Worker.
